(** * graphprac: attributed undirected graphs, induced views, ranking, cliques

    A shallow embedding of the Go package [graphprac] (graph.go and
    analysis.go, in the revisions found in the repository) together with the
    properties of its behaviour.

    Conventions of the embedding.
    - Go strings are byte strings: [string].
    - A slice of attributes is a [list Attribute]; an in-place write
      [a[i] = x] is a list update at index [i].
    - [*Node] and [*Edge] are addresses into two stores of records; a nil
      result of a lookup is [None]; reading through an address that holds
      no object is the nil-pointer panic.
    - A Go panic is the [Panic] outcome of the [Result] type.
    - gonum's [simple.UndirectedGraph] and [topo.BronKerbosch], and the
      standard library's [sort.Sort], [strconv.ParseFloat], [strings.Split]
      and [fmt.Sprint] are dependencies whose code is not part of the
      package; each is introduced where it is first used.

    The repository holds two revisions of the package. The later one
    (graph.go with [SetAttribute], [Induce] and 64-bit IDs; analysis.go with
    [Attributes.Set] calls) is embedded at top level; what differs in the
    earlier one is embedded in [Module Rev1]. *)

From Stdlib Require Import ZArith String Ascii List Lia SpecFloat.
From stdpp Require Import base option list gmap strings pretty.

Local Open Scope string_scope.
Local Open Scope list_scope.
Local Open Scope Z_scope.

(** ** Outcomes of calls that may panic *)

Inductive Result (A : Type) : Type :=
| Ok (a : A)
| Panic (msg : string).
Arguments Ok {A} a.
Arguments Panic {A} msg.

Global Instance Result_ret : MRet Result := λ A a, Ok a.
Global Instance Result_bind : MBind Result := λ A B k r,
  match r with
  | Ok a => k a
  | Panic m => Panic m
  end.

(** A [for _, x := range xs] loop whose body may panic. *)
Fixpoint foldM {A S} (body : S → A → Result S) (s : S) (xs : list A)
  : Result S :=
  match xs with
  | [] => Ok s
  | x :: xs' => s' ← body s x; foldM body s' xs'
  end.

(** ** Attributes (graph.go: [Attributes], [Get], [Set] / [SetAttribute]) *)

(** [encoding.Attribute] (formerly [dot.Attribute]): a key/value pair. *)
Record Attribute : Type := mkAttr { Key : string; Value : string }.

Global Instance Attribute_eq_dec : EqDecision Attribute.
Proof. solve_decision. Defined.

(** [type Attributes []encoding.Attribute] *)
Abbreviation Attributes := (list Attribute).

(** [func (a Attributes) Get(attr string) string]: the value of the first
    pair whose key is [attr], the empty string when there is none. *)
Fixpoint Get (a : Attributes) (attr : string) : string :=
  match a with
  | [] => ""
  | kv :: a' => if String.eqb (Key kv) attr then Value kv else Get a' attr
  end.

(** Index of the first pair with key [attr]: where the
    [for i, kv := range] loop of [Set] stops. *)
Fixpoint index_of (a : Attributes) (attr : string) : option nat :=
  match a with
  | [] => None
  | kv :: a' =>
      if String.eqb (Key kv) attr then Some 0%nat
      else S <$> index_of a' attr
  end.

(** The deletion statement of [Set], [a[i], a = a[len(a)-1], a[:len(a)-1]]
    (through the pointer receiver): the last pair is written over slot [i]
    and the slice is shortened by one. The same statement prunes the node
    and edge slices of the induced graph. It is only reached with [i] in
    range, so never on an empty slice. *)
Definition swap_delete {A} (i : nat) (a : list A) : list A :=
  match last a with
  | Some x => take (length a - 1) (<[i := x]> a)
  | None => a
  end.

(** [func (a *Attributes) SetAttribute(attr encoding.Attribute) error]. On
    the first pair with the same key: overwrite its value when the new value
    is non-empty, otherwise swap-delete the pair. Without such a pair:
    append [attr] as it is. The error result is always nil. *)
Definition SetAttribute (a : Attributes) (attr : Attribute) : Attributes :=
  match index_of a (Key attr) with
  | Some i =>
      if negb (String.eqb (Value attr) "")
      then alter (λ kv, mkAttr (Key kv) (Value attr)) i a
      else swap_delete i a
  | None => a ++ [attr]
  end.

(** [func (a *Attributes) Set(attr, value string)], the name and signature
    of the same body in the revision of graph.go that analysis.go calls. *)
Definition Set_ (a : Attributes) (attr value : string) : Attributes :=
  SetAttribute a (mkAttr attr value).

(** [func (a Attributes) Attributes() []encoding.Attribute] and
    [DOTAttributes]: the enumeration of the bag is the slice itself. *)
Definition DOTAttributes (a : Attributes) : list Attribute := a.

(** The keys of a bag, in order. *)
Definition keys (a : Attributes) : list string := Key <$> a.

(** The value of the first pair with key [attr], if any: what a
    [for _, a := range attrs { if a.Key == attr { ...; break } }] loop
    reads. *)
Fixpoint lookup_attr (a : Attributes) (attr : string) : option string :=
  match a with
  | [] => None
  | kv :: a' =>
      if String.eqb (Key kv) attr then Some (Value kv) else lookup_attr a' attr
  end.

(** How many pairs of the bag have key [k]. *)
Definition occurrences (a : Attributes) (k : string) : nat :=
  length (filter (λ x, x = k) (keys a)).

(** The bag reached from the empty one by a sequence of [Set] calls, each
    given by its key and its value. *)
Definition bag_of (ops : list (string * string)) : Attributes :=
  foldl (λ a kv, Set_ a kv.1 kv.2) [] ops.

(** ** Nodes and edges (graph.go: [Node], [Edge]) *)

(** Addresses of [Node] and [Edge] objects: the values of type [*Node] and
    [*Edge]. *)
Abbreviation NodePtr := positive.
Abbreviation EdgePtr := positive.

(** [type Node struct { NodeID int64; Name string; Attributes }] *)
Record Node : Type :=
  mkNode { NodeID : Z; Name : string; Node_Attributes : Attributes }.

(** [type Edge struct { F, T *Node; Attributes }] *)
Record Edge : Type :=
  mkEdge { F : NodePtr; T : NodePtr; Edge_Attributes : Attributes }.

(** ** gonum's [simple.UndirectedGraph]

    The graph type embedded in [Graph]. Its code belongs to gonum, not to
    the package; the definitions below follow its documented behaviour:
    a map from node ID to node, a symmetric map from ID pairs to edges,
    [NewNode] proposing an unused ID without adding anything, [AddNode]
    panicking on an ID collision, [SetEdge] panicking on a self edge and
    adding endpoints that are missing. Node removal is not used by the
    package and not modelled, so the next ID is always one above the
    largest ID in use (0 for an empty graph); the 64-bit ceiling of the ID
    allocator is outside the model. Enumeration order of Go maps is
    unspecified; [Nodes] and [Edges] fix one order and every statement made
    about them is either order-independent or made for all orders. *)
Module simple.

Record UndirectedGraph : Type := mkUndirectedGraph {
  nodes : gmap Z NodePtr;
  edges : gmap (Z * Z) EdgePtr
}.

Definition NewUndirectedGraph : UndirectedGraph :=
  mkUndirectedGraph ∅ ∅.

Definition Has (g : UndirectedGraph) (id : Z) : bool :=
  bool_decide (is_Some (nodes g !! id)).

Definition Node (g : UndirectedGraph) (id : Z) : option NodePtr :=
  nodes g !! id.

Definition Nodes (g : UndirectedGraph) : list NodePtr :=
  snd <$> map_to_list (nodes g).

(** The ID of [NewNode()] (earlier API: [NewNodeID()]). *)
Definition NewNodeID (g : UndirectedGraph) : Z :=
  foldr Z.max (-1) (fst <$> map_to_list (nodes g)) + 1.

(** [AddNode(n)], with [id = n.ID()] read by the caller. *)
Definition AddNode (g : UndirectedGraph) (id : Z) (n : NodePtr)
  : Result UndirectedGraph :=
  if Has g id then Panic "simple: node ID collision"
  else Ok (mkUndirectedGraph (<[id := n]> (nodes g)) (edges g)).

Definition EdgeBetween (g : UndirectedGraph) (xid yid : Z)
  : option EdgePtr :=
  edges g !! (xid, yid).

Definition Edge (g : UndirectedGraph) (uid vid : Z) : option EdgePtr :=
  EdgeBetween g uid vid.

Definition HasEdgeBetween (g : UndirectedGraph) (xid yid : Z) : bool :=
  bool_decide (is_Some (edges g !! (xid, yid))).

(** [SetEdge(e)], with [from = e.From()], [fid = from.ID()],
    [to = e.To()], [tid = to.ID()] read by the caller. *)
Definition SetEdge (g : UndirectedGraph)
    (fid : Z) (from : NodePtr) (tid : Z) (to : NodePtr) (e : EdgePtr)
  : Result UndirectedGraph :=
  if fid =? tid then Panic "simple: adding self edge"
  else
    g1 ← (if Has g fid then Ok g else AddNode g fid from);
    g2 ← (if Has g1 tid then Ok g1 else AddNode g1 tid to);
    Ok (mkUndirectedGraph (nodes g2)
          (<[(tid, fid) := e]> (<[(fid, tid) := e]> (edges g2)))).

(** Every edge once: of the two entries of an edge, the one with the
    smaller ID first. *)
Definition Edges (g : UndirectedGraph) : list EdgePtr :=
  snd <$> map_to_list
    (filter (λ kv : Z * Z * EdgePtr, kv.1.1 < kv.1.2) (edges g)).

End simple.

(** ** Graph (graph.go) *)

(** [type Graph struct { *simple.UndirectedGraph; GraphAttrs, NodeAttrs,
    EdgeAttrs Attributes }] *)
Record Graph : Type := mkGraph {
  UndirectedGraph : simple.UndirectedGraph;
  GraphAttrs : Attributes;
  NodeAttrs : Attributes;
  EdgeAttrs : Attributes
}.

(** The program state: the [Node] and [Edge] objects allocated so far and
    the graph. *)
Record State : Type := mkState {
  nodeObjs : gmap NodePtr Node;
  edgeObjs : gmap EdgePtr Edge;
  graph : Graph
}.

Definition with_UndirectedGraph (st : State) (u : simple.UndirectedGraph)
  : State :=
  mkState (nodeObjs st) (edgeObjs st)
    (mkGraph u (GraphAttrs (graph st)) (NodeAttrs (graph st)) (EdgeAttrs (graph st))).

(** [simple.NewUndirectedGraph()] wrapped in a [Graph], nothing allocated. *)
Definition empty_State : State :=
  mkState ∅ ∅ (mkGraph simple.NewUndirectedGraph [] [] []).

Definition nil_deref {A} : Result A :=
  Panic "invalid memory address or nil pointer dereference".

(** [n.ID()] for [n : *Node]. *)
Definition ID (st : State) (n : NodePtr) : Result Z :=
  match nodeObjs st !! n with
  | Some o => Ok (NodeID o)
  | None => nil_deref
  end.

(** [n.Attributes] for [n : *Node] and [e.Attributes] for [e : *Edge]. *)
Definition node_attrs (st : State) (n : NodePtr) : Result Attributes :=
  match nodeObjs st !! n with
  | Some o => Ok (Node_Attributes o)
  | None => nil_deref
  end.

Definition edge_attrs (st : State) (e : EdgePtr) : Result Attributes :=
  match edgeObjs st !! e with
  | Some o => Ok (Edge_Attributes o)
  | None => nil_deref
  end.

(** [e.From().ID()] and [e.To().ID()] for [e : *Edge]. *)
Definition From_ID (st : State) (e : EdgePtr) : Result Z :=
  match edgeObjs st !! e with
  | Some o => ID st (F o)
  | None => nil_deref
  end.

Definition To_ID (st : State) (e : EdgePtr) : Result Z :=
  match edgeObjs st !! e with
  | Some o => ID st (T o)
  | None => nil_deref
  end.

(** Promoted methods of the embedded graph. *)
Definition Node_by_ID (st : State) (id : Z) : option NodePtr :=
  simple.Node (UndirectedGraph (graph st)) id.

Definition Nodes (st : State) : list NodePtr :=
  simple.Nodes (UndirectedGraph (graph st)).

Definition Edges (st : State) : list EdgePtr :=
  simple.Edges (UndirectedGraph (graph st)).

Definition EdgeBetween (st : State) (xid yid : Z) : option EdgePtr :=
  simple.EdgeBetween (UndirectedGraph (graph st)) xid yid.

(** [g.AddNode(n)], promoted from the embedded graph: how the DOT decoder
    registers the node it obtained from [NewNode]. *)
Definition AddNode (n : NodePtr) (st : State) : Result unit * State :=
  match ID st n with
  | Ok id =>
      match simple.AddNode (UndirectedGraph (graph st)) id n with
      | Ok u => (Ok (), with_UndirectedGraph st u)
      | Panic m => (Panic m, st)
      end
  | Panic m => (Panic m, st)
  end.

(** A new [Node] object: [&Node{NodeID: id}]. *)
Definition alloc_Node (id : Z) (st : State) : NodePtr * State :=
  let p := fresh (dom (nodeObjs st)) in
  (p, mkState (<[p := mkNode id "" []]> (nodeObjs st)) (edgeObjs st) (graph st)).

(** A new [Edge] object: [&Edge{F: from, T: to}]. *)
Definition alloc_Edge (from to : NodePtr) (st : State) : EdgePtr * State :=
  let p := fresh (dom (edgeObjs st)) in
  (p, mkState (nodeObjs st) (<[p := mkEdge from to []]> (edgeObjs st)) (graph st)).

(** [func (g *Graph) NewNode() graph.Node]:
    [return &Node{NodeID: g.UndirectedGraph.NewNode().ID()}]. The object is
    created with the ID proposed by the embedded graph; no [AddNode] call
    is made. *)
Definition NewNode (st : State) : NodePtr * State :=
  alloc_Node (simple.NewNodeID (UndirectedGraph (graph st))) st.

(** [func (g *Graph) NewEdge(from, to graph.Node) graph.Edge]. *)
Definition NewEdge (from to : NodePtr) (st : State)
  : Result EdgePtr * State :=
  match ID st from, ID st to with
  | Ok fid, Ok tid =>
      match simple.Edge (UndirectedGraph (graph st)) fid tid with
      | Some e => (Ok e, st)
      | None =>
          let '(e, st1) := alloc_Edge from to st in
          match simple.SetEdge (UndirectedGraph (graph st1)) fid from tid to e with
          | Ok u => (Ok e, with_UndirectedGraph st1 u)
          | Panic m => (Panic m, st1)
          end
      end
  | Panic m, _ => (Panic m, st)
  | _, Panic m => (Panic m, st)
  end.

(** [func (g *Graph) NodeMap() map[int64]*Node] *)
Definition NodeMap (st : State) : Result (gmap Z NodePtr) :=
  foldM (λ (m : gmap Z NodePtr) n, id ← ID st n; Ok (<[id := n]> m))
        ∅ (Nodes st).


(** ** Induced subgraphs (graph.go: [Induce], [nodeInducedGraph]) *)

(** [type nodeInducedGraph struct { *Graph; nodes map[int64]bool }]. The
    embedded [*Graph] is the graph of the state the view is used in. *)
Record nodeInducedGraph : Type :=
  mkInduced { selected : gmap Z bool }.

(** [g.nodes[id]]: a missing key reads as [false]. *)
Definition is_selected (i : nodeInducedGraph) (id : Z) : bool :=
  default false (selected i !! id).

(** [func Induce(g *Graph, by []*Node) graph.Graph] *)
Definition Induce (st : State) (by_ : list NodePtr)
  : Result nodeInducedGraph :=
  m ← foldM (λ (m : gmap Z bool) n, id ← ID st n; Ok (<[id := true]> m))
            ∅ by_;
  Ok (mkInduced m).

(** The pruning loop shared by [Nodes], [Edges] and [From]:
    [for i := 0; i < len(n); { if !keep(n[i]) { n[i], n = n[len(n)-1],
    n[:len(n)-1] } else { i++ } }]. Each turn either shortens [n] or moves
    [i] forward, so [length n - i] turns are enough; [fuel] counts them. *)
Fixpoint prune {A} (keep : A → Result bool) (fuel i : nat) (n : list A)
  : Result (list A) :=
  match fuel with
  | O => Ok n
  | S fuel' =>
      match n !! i with
      | None => Ok n
      | Some x =>
          b ← keep x;
          if b : bool then prune keep fuel' (S i) n
          else prune keep fuel' i (swap_delete i n)
      end
  end.

Module Induced.

(** [func (g nodeInducedGraph) Node(id int64) graph.Node] *)
Definition Node (i : nodeInducedGraph) (st : State) (id : Z)
  : option NodePtr :=
  if negb (is_selected i id) then None else Node_by_ID st id.

(** [func (g nodeInducedGraph) Nodes() graph.Nodes] *)
Definition Nodes (i : nodeInducedGraph) (st : State)
  : Result (list NodePtr) :=
  let n := Nodes st in
  prune (λ p, id ← ID st p; Ok (is_selected i id)) (length n) 0 n.

(** [func (g nodeInducedGraph) Edges() graph.Edges]: an edge is dropped
    when [!g.nodes[e.From().ID()] || !g.nodes[e.To().ID()]]; the second
    operand is evaluated only when the first is false. *)
Definition Edges (i : nodeInducedGraph) (st : State)
  : Result (list EdgePtr) :=
  let e := Edges st in
  prune (λ p,
           fid ← From_ID st p;
           if negb (is_selected i fid) then Ok false
           else tid ← To_ID st p; Ok (is_selected i tid))
        (length e) 0 e.

(** [func (g nodeInducedGraph) EdgeBetween(xid, yid int64) graph.Edge] *)
Definition EdgeBetween (i : nodeInducedGraph) (st : State) (xid yid : Z)
  : option EdgePtr :=
  if negb (is_selected i xid) || negb (is_selected i yid) then None
  else EdgeBetween st xid yid.

End Induced.

(** ** Clique labelling (analysis.go: [Clique]) *)

(** [strings.Split(s, sep)] for a one-byte separator: the pieces of [s]
    between occurrences of [sep]; one (empty) piece for the empty string. *)
Fixpoint Split (s : string) (sep : ascii) : list string :=
  match s with
  | EmptyString => [""]
  | String c s' =>
      if Ascii.eqb c sep then "" :: Split s' sep
      else match Split s' sep with
           | x :: xs => String c x :: xs
           | [] => [String c ""]
           end
  end.

(** [fmt.Sprint(i)] for an [int]: its decimal numeral. *)
Definition Sprint (i : Z) : string := pretty i.

(** [strings.Join(elems, ",")], used to state what [Clique] writes. *)
Fixpoint Join (elems : list string) : string :=
  match elems with
  | [] => ""
  | [x] => x
  | x :: rest => x +:+ "," +:+ Join rest
  end.

(** A node object with its attributes replaced by [f] of them. *)
Definition set_attrs (f : Attributes → Attributes) (o : Node) : Node :=
  mkNode (NodeID o) (Name o) (f (Node_Attributes o)).

(** Replace the attributes of the object at [p] by [f] of them: the net
    effect of writes made through [nodes[id].Attributes]. *)
Definition update_attrs (f : Attributes → Attributes) (p : NodePtr)
    (st : State) : State :=
  mkState (alter (set_attrs f) p (nodeObjs st)) (edgeObjs st) (graph st).

(** The search of the inner loop,
    [for j, a := range attrs { if a.Key == "clique" { attrs[j] =
    dot.Attribute{"clique", fmt.Sprintf("%s,%d", a.Value, i)}; found = true;
    break } }]: [Some] of the updated slice when found. [attrs] shares its
    array with the node's slice, so the write is a write to the node. *)
Fixpoint extend (i : Z) (attrs : Attributes) : option Attributes :=
  match attrs with
  | [] => None
  | a :: rest =>
      if String.eqb (Key a) "clique"
      then Some (mkAttr "clique" (Value a +:+ "," +:+ Sprint i) :: rest)
      else (a ::.) <$> extend i rest
  end.

(** The body run for a member [n] of a surviving clique labelled [i], as a
    function of the attributes of [nodes[n.ID()]]. *)
Definition visit (i : Z) (attrs : Attributes) : Attributes :=
  let found :=
    if String.eqb (Get attrs "clique_count") "" then extend i attrs
    else None in
  match found with
  | Some attrs' => attrs'
  | None => Set_ (Set_ attrs "clique" (Sprint i)) "clique_count" ""
  end.

(** The body of the closing loop over [nodes]: on the first pair with key
    ["clique"], set ["clique_count"] to the number of comma-separated
    pieces of its value. *)
Definition count_labels (attrs : Attributes) : Attributes :=
  match lookup_attr attrs "clique" with
  | Some v =>
      Set_ attrs "clique_count"
           (Sprint (Z.of_nat (length (Split v ","%char))))
  | None => attrs
  end.

(** One member of a clique: [nodes[n.ID()]] is nil when the ID is not a
    key of the map, and reading its attributes panics. *)
Definition visit_member (body : Attributes → Attributes)
    (nodes : gmap Z NodePtr) (st : State) (id : Z) : Result State :=
  match nodes !! id with
  | Some p =>
      match nodeObjs st !! p with
      | Some _ => Ok (update_attrs body p st)
      | None => nil_deref
      end
  | None => nil_deref
  end.

(** The labelling loop: [for _, c := range mc { if len(c) < k { continue };
    for _, n := range c { ... }; i++ }]. A clique is the list of the IDs of
    its members, the only thing read from them. *)
Fixpoint label_cliques (body : Z → Attributes → Attributes)
    (nodes : gmap Z NodePtr) (k : Z) (mc : list (list Z)) (i : Z)
    (st : State) : Result State :=
  match mc with
  | [] => Ok st
  | c :: mc' =>
      if Z.of_nat (length c) <? k then label_cliques body nodes k mc' i st
      else
        st' ← foldM (visit_member (body i) nodes) st c;
        label_cliques body nodes k mc' (i + 1) st'
  end.

(** The closing loop, [for _, n := range nodes { ... }]. *)
Definition count_all (body : Attributes → Attributes)
    (nodes : gmap Z NodePtr) (st : State) : State :=
  foldr (update_attrs body) st (snd <$> map_to_list nodes).

Section Clique.

(** [topo.BronKerbosch(g)]: the maximal cliques of the graph, each as
    the IDs of its members. *)
Variable BronKerbosch : State → list (list Z).

(** [func Clique(g *Graph, k int)]. The counter [ck] of the source is
    computed and never read; it is left out. *)
Definition Clique (k : Z) (st : State) : Result State :=
  let mc := BronKerbosch st in
  nodes ← NodeMap st;
  st1 ← label_cliques visit nodes k mc 0 st;
  Ok (count_all count_labels nodes st1).

End Clique.

(** ** The earlier revision (graph.go, analysis.go) *)

Module Rev1.

(** [func (g *Graph) NewNode() graph.Node]:
    [n := &Node{NodeID: g.NewNodeID()}; g.AddNode(n); return n]. *)
Definition NewNode (st : State) : Result NodePtr * State :=
  let '(n, st1) :=
    alloc_Node (simple.NewNodeID (UndirectedGraph (graph st))) st in
  match AddNode n st1 with
  | (Ok _, st2) => (Ok n, st2)
  | (Panic m, st2) => (Panic m, st2)
  end.

(** The earlier revision of the member body:
    [for j, a := range attrs { ... }] without the ["clique_count"] test,
    and [nodes[n.ID()].Attributes = []dot.Attribute{{"clique",
    fmt.Sprint(i)}}] when no ["clique"] pair is found. *)
Definition visit (i : Z) (attrs : Attributes) : Attributes :=
  match extend i attrs with
  | Some attrs' => attrs'
  | None => [mkAttr "clique" (Sprint i)]
  end.

(** The earlier revision of the closing body:
    [n.Attributes = append(n.Attributes, dot.Attribute{"clique_count",
    ...})]. *)
Definition count_labels (attrs : Attributes) : Attributes :=
  match lookup_attr attrs "clique" with
  | Some v =>
      attrs ++ [mkAttr "clique_count"
                  (Sprint (Z.of_nat (length (Split v ","%char))))]
  | None => attrs
  end.

Section Clique.
Variable BronKerbosch : State → list (list Z).

Definition Clique (k : Z) (st : State) : Result State :=
  let mc := BronKerbosch st in
  nodes ← NodeMap st;
  st1 ← label_cliques visit nodes k mc 0 st;
  Ok (count_all count_labels nodes st1).
End Clique.

End Rev1.

(** ** Ranking by attribute (analysis.go: [NodesByAttribute],
    [EdgesByAttribute]) *)

(** [float64]: IEEE 754 binary64 values. [>] is the IEEE comparison, false
    whenever an operand is NaN. *)
Definition float64 : Type := spec_float.

Definition float64_gt (x y : float64) : bool := SFltb y x.

(** [x >= y], used to state orderings. *)
Definition float64_ge (x y : float64) : bool := SFleb y x.

Definition is_NaN (x : float64) : bool :=
  match x with S754_nan => true | _ => false end.

(** A key that orders the values other than NaN as [<] does: the class
    (infinities, negative, zero, positive), then exponent and mantissa. *)
Definition float_key (x : float64) : Z * Z * Z :=
  match x with
  | S754_zero _ => (0, 0, 0)
  | S754_infinity s => (if s then -2 else 2, 0, 0)
  | S754_nan => (0, 0, 0)
  | S754_finite s m e => if s then (-1, - e, - Zpos m) else (1, e, Zpos m)
  end.

Definition lex_lt (a b : Z * Z * Z) : Prop :=
  a.1.1 < b.1.1
  ∨ (a.1.1 = b.1.1 ∧ (a.1.2 < b.1.2 ∨ (a.1.2 = b.1.2 ∧ a.2 < b.2))).

(** The zero value of [var v float64]. *)
Definition float64_zero : float64 := S754_zero false.

(** A non-nil [error] value. The only errors of the package are the
    [*strconv.NumError] values of [strconv.ParseFloat]: the function, the
    input and the reason. *)
Record error : Type := NumError { Func : string; Num : string; Err : string }.

(** [sort.Interface] *)
Class Interface (D : Type) : Type := {
  Len : D → nat;
  Less : D → nat → nat → bool;
  Swap : D → nat → nat → D
}.

(** [s[i], s[j] = s[j], s[i]]. An index out of range panics in Go; here it
    leaves the slice as it is, and [sort.Sort] never passes one. *)
Definition swap {A} (i j : nat) (s : list A) : list A :=
  match s !! i, s !! j with
  | Some x, Some y => <[j := x]> (<[i := y]> s)
  | _, _ => s
  end.

(** [vals[i] > vals[j]], false on an index out of range (which
    [sort.Sort] never passes). *)
Definition vals_Less (vals : list float64) (i j : nat) : bool :=
  match vals !! i, vals !! j with
  | Some x, Some y => float64_gt x y
  | _, _ => false
  end.

(** [type nodesByAttr struct { nodes []*Node; vals []float64 }] with its
    [Len], [Less] and [Swap]. *)
Record nodesByAttr : Type :=
  mkNodesByAttr { nba_nodes : list NodePtr; nba_vals : list float64 }.

Global Instance nodesByAttr_Interface : Interface nodesByAttr := {|
  Len a := length (nba_nodes a);
  Less a i j := vals_Less (nba_vals a) i j;
  Swap a i j := mkNodesByAttr (swap i j (nba_nodes a)) (swap i j (nba_vals a))
|}.

(** [type edgesByAttr struct { edges []*Edge; vals []float64 }] with its
    [Len], [Less] and [Swap]. *)
Record edgesByAttr : Type :=
  mkEdgesByAttr { eba_edges : list EdgePtr; eba_vals : list float64 }.

Global Instance edgesByAttr_Interface : Interface edgesByAttr := {|
  Len a := length (eba_edges a);
  Less a i j := vals_Less (eba_vals a) i j;
  Swap a i j := mkEdgesByAttr (swap i j (eba_edges a)) (swap i j (eba_vals a))
|}.

(** *** The contract of [sort.Sort]

    [sort.Sort(data)] reaches [data] through [Len], [Less] and [Swap] only,
    with indices below [Len], and leaves it sorted by [Less] when [Less]
    orders the elements consistently. Its code (insertion sort on short
    ranges, quicksort with a heapsort fallback or pattern-defeating
    quicksort above, depending on the Go release) is not part of the
    package; the contract is what the package relies on. *)

(** [swaps_to n d d']: [d'] comes from [d] by [Swap] calls with indices
    below [n]. *)
Inductive swaps_to {D} `{Interface D} (n : nat) : D → D → Prop :=
| swaps_done d : swaps_to n d d
| swaps_step d i j d' :
    (i < n)%nat → (j < n)%nat →
    swaps_to n (Swap d i j) d' → swaps_to n d d'.

(** [elems] presents the data satisfying [P] as a list of elements that
    [Less] compares by [lt] and [Swap] exchanges. *)
Record View {D} `{Interface D} {E}
    (P : D → Prop) (elems : D → list E) (lt : E → E → bool) : Prop := {
  view_Len : ∀ d, P d → length (elems d) = Len d;
  view_Less : ∀ d i j x y, P d →
    elems d !! i = Some x → elems d !! j = Some y → Less d i j = lt x y;
  view_Swap : ∀ d i j, P d → (i < Len d)%nat → (j < Len d)%nat →
    elems (Swap d i j) = swap i j (elems d);
  view_closed : ∀ d i j, P d → (i < Len d)%nat → (j < Len d)%nat →
    P (Swap d i j)
}.

(** [lt] is a strict weak ordering of the elements satisfying [Q]. *)
Record StrictWeakOn {E} (Q : E → Prop) (lt : E → E → bool) : Prop := {
  swo_irrefl : ∀ x, Q x → lt x x = false;
  swo_trans : ∀ x y z, Q x → Q y → Q z →
    lt x y = true → lt y z = true → lt x z = true;
  swo_incomp : ∀ x y z, Q x → Q y → Q z →
    lt x y = false → lt y z = false → lt x z = false
}.

(** No element is ordered before an earlier one. *)
Definition ordered {E} (lt : E → E → bool) (l : list E) : Prop :=
  ∀ i j x y, (i < j)%nat → l !! i = Some x → l !! j = Some y →
             lt y x = false.

Record SortContract (sort_Sort : ∀ D, Interface D → D → D) : Prop := {
  Sort_swaps : ∀ D (I : Interface D) (d : D),
    swaps_to (Len d) d (sort_Sort D I d);
  Sort_ordered : ∀ D (I : Interface D) E (P : D → Prop)
      (elems : D → list E) (lt : E → E → bool) (Q : E → Prop),
    View P elems lt → StrictWeakOn Q lt →
    ∀ d, P d → Forall Q (elems d) →
         ordered lt (elems (sort_Sort D I d))
}.

(** The insertion sort of package sort,
    [for i := a + 1; i < b; i++ { for j := i; j > a && data.Less(j, j-1);
    j-- { data.Swap(j, j-1) } }], which [sort.Sort] itself runs on short
    slices: an implementation of the contract. *)
Fixpoint sift {D} `{Interface D} (a j : nat) (data : D) : D :=
  match j with
  | O => data
  | S j' =>
      if bool_decide (a < j)%nat && Less data j j'
      then sift a j' (Swap data j j')
      else data
  end.

Definition insertionSort {D} `{Interface D} (data : D) (a b : nat) : D :=
  foldl (λ d i, sift a i d) data (seq (S a) (b - S a)).

(** The inner loop of the insertion sort on a plain list compared by
    [lt]. *)
Fixpoint sift_list {E} (lt : E → E → bool) (j : nat) (l : list E) : list E :=
  match j with
  | O => l
  | S j' =>
      match l !! j, l !! j' with
      | Some x, Some y => if lt x y then sift_list lt j' (swap j j' l) else l
      | _, _ => l
      end
  end.

(** No element up to index [J] is ordered before an earlier one. *)
Definition ordered_upto {E} (J : nat) (lt : E → E → bool) (l : list E)
  : Prop :=
  ∀ i1 i2 x y, (i1 < i2)%nat → (i2 ≤ J)%nat →
               l !! i1 = Some x → l !! i2 = Some y → lt y x = false.

(** The same with the element at [j] left out, which however is not
    ordered after any later one: what holds while the element at [j] moves
    down. *)
Definition ordered_but {E} (J j : nat) (lt : E → E → bool) (l : list E)
  : Prop :=
  (∀ i1 i2 x y, (i1 < i2)%nat → (i2 ≤ J)%nat → i1 ≠ j → i2 ≠ j →
                l !! i1 = Some x → l !! i2 = Some y → lt y x = false)
  ∧ (∀ i2 x y, (j < i2)%nat → (i2 ≤ J)%nat →
               l !! j = Some x → l !! i2 = Some y → lt y x = false).

Definition insertion_Sort : ∀ D, Interface D → D → D :=
  λ D I data, insertionSort data 0 (Len data).

Section Ranking.

(** [strconv.ParseFloat(s, 64)]: the value and the error, nil ([None])
    when [s] is a well-formed number in range. *)
Variable ParseFloat : string → float64 * option error.

(** [sort.Sort] *)
Variable sort_Sort : ∀ D, Interface D → D → D.

(** The scan of one entity,
    [var v float64; for _, a := range n.Attributes { if a.Key == attr {
    v, err = strconv.ParseFloat(a.Value, 64); ...; break } }]:
    the value and the error of the first pair with key [attr], zero and
    no error without such a pair. *)
Fixpoint attr_value (attr : string) (a : Attributes)
  : float64 * option error :=
  match a with
  | [] => (float64_zero, None)
  | kv :: a' =>
      if String.eqb (Key kv) attr then ParseFloat (Value kv)
      else attr_value attr a'
  end.

(** The collecting loop over the entities [ents], whose attributes are
    read by [attrs_of]: [inl err] for the early [return nil, err],
    otherwise the two slices grown by [append]. *)
Fixpoint collect (attrs_of : positive → Result Attributes)
    (attr : string) (ents : list positive)
    (acc : list positive * list float64)
  : Result (error + list positive * list float64) :=
  match ents with
  | [] => Ok (inr acc)
  | n :: ents' =>
      a ← attrs_of n;
      match attr_value attr a with
      | (_, Some err) => Ok (inl err)
      | (v, None) =>
          collect attrs_of attr ents' (acc.1 ++ [n], acc.2 ++ [v])
      end
  end.

(** [func NodesByAttribute(attr string, g *Graph) ([]*Node, error)]:
    the slice (nil is the empty list) and the error. *)
Definition NodesByAttribute (attr : string) (st : State)
  : Result (list NodePtr * option error) :=
  r ← collect (node_attrs st) attr (Nodes st) ([], []);
  match r with
  | inl err => Ok ([], Some err)
  | inr (nodes, vals) =>
      Ok (nba_nodes (sort_Sort _ _ (mkNodesByAttr nodes vals)), None)
  end.

(** [func EdgesByAttribute(attr string, g *Graph) ([]*Edge, error)] *)
Definition EdgesByAttribute (attr : string) (st : State)
  : Result (list EdgePtr * option error) :=
  r ← collect (edge_attrs st) attr (Edges st) ([], []);
  match r with
  | inl err => Ok ([], Some err)
  | inr (edges, vals) =>
      Ok (eba_edges (sort_Sort _ _ (mkEdgesByAttr edges vals)), None)
  end.

(** The value an entity is ranked by. *)
Definition rank_value (attr : string) (a : Attributes) : float64 :=
  (attr_value attr a).1.

End Ranking.

(** The attributes of the edge object at [e], empty when there is none. *)
Definition edge_attrs_at (st : State) (e : EdgePtr) : Attributes :=
  default [] (Edge_Attributes <$> edgeObjs st !! e).

(** The attribute [attr] of a bag, as the ranking reads it: the value of
    the first pair with this key. *)
Definition carries (a : Attributes) (attr v : string) : Prop :=
  lookup_attr a attr = Some v.

(** The two slices of a ranking as one list of pairs, and the order [Less]
    puts on the pairs. *)
Definition nba_elems (d : nodesByAttr) : list (NodePtr * float64) :=
  zip (nba_nodes d) (nba_vals d).

Definition eba_elems (d : edgesByAttr) : list (EdgePtr * float64) :=
  zip (eba_edges d) (eba_vals d).

Definition by_value (x y : positive * float64) : bool :=
  float64_gt x.2 y.2.


(** ** Well-formed states

    What holds of every state built by the operations above: a node is
    registered under its own ID, the edge map is symmetric and free of
    self edges, and an edge is stored under the IDs of its two ends. *)

Definition registered (st : State) (n : NodePtr) : Prop :=
  ∃ id, ID st n = Ok id ∧ Node_by_ID st id = Some n.

Record wf (st : State) : Prop := {
  wf_nodes : ∀ id n,
    simple.nodes (UndirectedGraph (graph st)) !! id = Some n →
    ID st n = Ok id;
  wf_symmetric : ∀ u v e,
    simple.edges (UndirectedGraph (graph st)) !! (u, v) = Some e →
    simple.edges (UndirectedGraph (graph st)) !! (v, u) = Some e;
  wf_no_self_edge : ∀ u,
    simple.edges (UndirectedGraph (graph st)) !! (u, u) = None;
  wf_edges : ∀ u v e,
    simple.edges (UndirectedGraph (graph st)) !! (u, v) = Some e →
    is_Some (edgeObjs st !! e) ∧
    ((From_ID st e = Ok u ∧ To_ID st e = Ok v) ∨
     (From_ID st e = Ok v ∧ To_ID st e = Ok u))
}.

(** The node map after [if !g.Has(id) { g.AddNode(n) }]. *)
Definition ensure (id : Z) (n : NodePtr) (m : gmap Z NodePtr)
  : gmap Z NodePtr :=
  match m !! id with
  | Some _ => m
  | None => <[id := n]> m
  end.

(** Two nodes are joined when an edge is stored under their IDs. *)
Definition joined (st : State) (a b : NodePtr) : Prop :=
  ∃ ida idb e,
    ID st a = Ok ida ∧ ID st b = Ok idb ∧ EdgeBetween st ida idb = Some e.

(** *** Sample states *)

(** The node of [NewNode] on the empty graph, and the state once it has
    been registered with [AddNode]. *)
Definition sample_a : NodePtr := (NewNode empty_State).1.
Definition sample_st1 : State :=
  (AddNode sample_a (NewNode empty_State).2).2.

(** A second node from [NewNode], not registered. *)
Definition sample_b : NodePtr := (NewNode sample_st1).1.
Definition sample_st2 : State := (NewNode sample_st1).2.


(** The same with the second node registered. *)
Definition sample_st2r : State := (AddNode sample_b sample_st2).2.

(** The selection of an induced graph: the IDs of the nodes given to
    [Induce]. *)
Definition selection (st : State) (by_ : list NodePtr) (id : Z) : Prop :=
  ∃ n, n ∈ by_ ∧ ID st n = Ok id.

(** The induced graph of the sample: two registered nodes joined by an
    edge, and the view over the first of them. *)
Definition sample_st3 : State :=
  (NewEdge sample_a sample_b sample_st2r).2.

Definition sample_induced : nodeInducedGraph :=
  match Induce sample_st3 [sample_a] with
  | Ok i => i
  | Panic _ => mkInduced ∅
  end.

(** ** What [Clique] is expected to write *)

(** No byte of [s] is a comma. *)
Fixpoint comma_free (s : string) : Prop :=
  match s with
  | EmptyString => True
  | String c s' => c ≠ ","%char ∧ comma_free s'
  end.

(** The cliques that are kept: those with at least [k] members. *)
Definition survivors (k : Z) (mc : list (list Z)) : list (list Z) :=
  filter (λ c, k ≤ Z.of_nat (length c)) mc.

(** How many times [id] is listed in the clique [c] (once, for a clique
    that is a set). *)
Definition memberships (id : Z) (c : list Z) : nat :=
  length (filter (λ x, x = id) c).

(** The labels received through the cliques [cs], labelled [i], [i + 1],
    ... in this order, by a node listed [count c] times in clique [c]. *)
Fixpoint labels_from (count : list Z → nat) (i : Z) (cs : list (list Z))
  : list Z :=
  match cs with
  | [] => []
  | c :: cs' => replicate (count c) i ++ labels_from count (i + 1) cs'
  end.

(** The labels of the node [id]: the surviving cliques are labelled from 0
    in the order they come in. *)
Definition labels_of (k : Z) (mc : list (list Z)) (id : Z) : list Z :=
  labels_from (memberships id) 0 (survivors k mc).

(** The attributes of the object at [n], empty when there is none. *)
Definition attrs_at (st : State) (n : NodePtr) : Attributes :=
  default [] (Node_Attributes <$> nodeObjs st !! n).

(** Every member of every clique is a key of the node map. *)
Definition members_known (nodes : gmap Z NodePtr) (mc : list (list Z))
  : Prop :=
  Forall (Forall (λ id, is_Some (nodes !! id))) mc.

(** How many members of the clique [c] are the node at [q]. *)
Definition hits (nodes : gmap Z NodePtr) (q : NodePtr) (c : list Z) : nat :=
  length (filter (λ id, nodes !! id = Some q) c).

(** The member body run once for each label of [ls], in order. *)
Definition apply_labels (body : Z → Attributes → Attributes) (ls : list Z)
    (a : Attributes) : Attributes :=
  foldl (λ a l, body l a) a ls.

(** A bag in the middle of a run, after the labels [ls]: distinct keys,
    ["clique"] holding the labels joined by commas, ["clique_count"]
    reading as empty. *)
Definition started (ls : list Z) (a : Attributes) : Prop :=
  NoDup (keys a) ∧ ("clique" ∈ keys a)
  ∧ Get a "clique" = Join (Sprint <$> ls) ∧ Get a "clique_count" = "".

(** A bag between runs: distinct keys, and a ["clique"] pair only together
    with a non-empty ["clique_count"]. *)
Definition settled (a : Attributes) : Prop :=
  NoDup (keys a) ∧ ("clique" ∈ keys a → Get a "clique_count" ≠ "").

(** A bag no run has touched. *)
Definition untouched (a : Attributes) : Prop :=
  ("clique" ∉ keys a) ∧ ("clique_count" ∉ keys a).

(** What a run is expected to leave of an untouched bag [a] whose node
    received the labels [ls]. *)
Definition labelled_with (ls : list Z) (a : Attributes) : Attributes :=
  match ls with
  | [] => a
  | _ =>
      a ++ [mkAttr "clique" (Join (Sprint <$> ls));
            mkAttr "clique_count" (Sprint (Z.of_nat (length ls)))]
  end.

(** What the DOT decoder does for a node statement: [NewNode], then
    [AddNode]. *)
Definition add_node (st : State) : State :=
  (AddNode (NewNode st).1 (NewNode st).2).2.

(** Four registered nodes A, B, C, D with IDs 0 to 3, at the addresses 1 to
    4, and an enumerator returning the cliques {A,B,C} and {B,C,D}. *)
Definition sample_four : State :=
  add_node (add_node (add_node (add_node empty_State))).

Definition sample_cliques (_ : State) : list (list Z) :=
  [[0; 1; 2]; [1; 2; 3]].

(** The state a run ends in. *)
Definition after (r : Result State) : State :=
  match r with
  | Ok st => st
  | Panic _ => empty_State
  end.

(** *** Sample rankings *)

(** The [float64] of an integer (exact below 2^53). *)
Definition float64_of_Z (z : Z) : float64 := binary_normalize 53 1024 z 0 false.

(** A stand-in for [strconv.ParseFloat] on the strings the samples use:
    three numerals and the spelling of NaN that [ParseFloat] accepts in
    every Go release; any other string is reported as malformed. *)
Definition sample_ParseFloat (s : string) : float64 * option error :=
  if String.eqb s "1.0" then (float64_of_Z 1, None)
  else if String.eqb s "2.0" then (float64_of_Z 2, None)
  else if String.eqb s "3.0" then (float64_of_Z 3, None)
  else if String.eqb s "NaN" then (S754_nan, None)
  else (float64_zero, Some (NumError "ParseFloat" s "invalid syntax")).

(** [n.Attributes.Set("score", v)] for the node at [n]. *)
Definition set_score (n : NodePtr) (v : string) (st : State) : State :=
  update_attrs (λ a, Set_ a "score" v) n st.

(** Three registered nodes at the addresses 1, 2, 3 (IDs 0, 1, 2), which
    the graph enumerates as 3, 2, 1. *)
Definition sample_three : State := add_node (add_node (add_node empty_State)).

(** Scores 3.0, 1.0, 2.0 on the nodes 1, 2, 3. *)
Definition sample_scored : State :=
  set_score 3 "2.0" (set_score 2 "1.0" (set_score 1 "3.0" sample_three)).

(** Scores 1.0, NaN, 2.0 in the order of enumeration. *)
Definition sample_nan : State :=
  set_score 1 "2.0" (set_score 2 "NaN" (set_score 3 "1.0" sample_three)).

(** A score that is not a number on node 2, none on node 3. *)
Definition sample_bad : State :=
  set_score 2 "high" (set_score 1 "3.0" sample_three).
(** ** The rest of graph.go *)

(** A write to [n.Attributes] through [n : *Node]: the attributes of the
    object at [n] become [f] of them; a nil [n] panics. *)
Definition write_node_attrs (f : Attributes → Attributes) (n : NodePtr)
    (st : State) : Result State :=
  match nodeObjs st !! n with
  | Some _ => Ok (update_attrs f n st)
  | None => nil_deref
  end.

(** [n.SetAttribute(attr)] for [n : *Node] in the latest revision of
    graph.go, where [Node] has no such method of its own: the method of the
    embedded [Attributes] is promoted. This is the call the DOT decoder
    makes for every attribute of a node statement. *)
Definition Node_SetAttribute (n : NodePtr) (attr : Attribute) (st : State)
  : Result State :=
  write_node_attrs (λ a, SetAttribute a attr) n st.

(** [func (n *Node) UnmarshalDOTAttr(attr dot.Attribute) error] of the
    first revision, named [SetAttribute] in the revision after it:
    [n.Attributes = append(n.Attributes, attr); return nil]. *)
Definition UnmarshalDOTAttr (n : NodePtr) (attr : Attribute) (st : State)
  : Result State :=
  write_node_attrs (λ a, a ++ [attr]) n st.

(** [func (n *Node) DOTID() string] and
    [func (n *Node) SetDOTID(id string)] ([UnmarshalDOTID] in the first
    revision). *)
Definition DOTID (st : State) (n : NodePtr) : Result string :=
  match nodeObjs st !! n with
  | Some o => Ok (Name o)
  | None => nil_deref
  end.

Definition SetDOTID (n : NodePtr) (id : string) (st : State) : Result State :=
  match nodeObjs st !! n with
  | Some _ =>
      Ok (mkState
            (alter (λ o, mkNode (NodeID o) id (Node_Attributes o)) n
               (nodeObjs st))
            (edgeObjs st) (graph st))
  | None => nil_deref
  end.

(** *** Adjacency in gonum's [simple.UndirectedGraph]

    [From(id)] returns the nodes that can be reached directly from the
    node with the given ID: the nodes stored under the second ID of the
    edge entries whose first ID is [id]. *)
Module adjacency.

Definition From (g : simple.UndirectedGraph) (id : Z) : list NodePtr :=
  omap (λ kv : Z * Z * EdgePtr,
          if bool_decide (kv.1.1 = id) then simple.nodes g !! kv.1.2
          else None)
       (map_to_list (simple.edges g)).

End adjacency.

(** Promoted methods of the embedded graph. *)
Definition From (st : State) (id : Z) : list NodePtr :=
  adjacency.From (UndirectedGraph (graph st)) id.

Definition HasEdgeBetween (st : State) (xid yid : Z) : bool :=
  simple.HasEdgeBetween (UndirectedGraph (graph st)) xid yid.

(** [func (g nodeInducedGraph) From(id int64) graph.Nodes]: the
    neighbours of [id] in the graph, pruned as [Nodes] is. *)
Definition nodeInducedGraph_From (i : nodeInducedGraph) (st : State)
    (id : Z) : Result (list NodePtr) :=
  let n := From st id in
  prune (λ p, id ← ID st p; Ok (is_selected i id)) (length n) 0 n.

(** [func (g nodeInducedGraph) HasEdgeBetween(xid, yid int64) bool] *)
Definition nodeInducedGraph_HasEdgeBetween (i : nodeInducedGraph)
    (st : State) (xid yid : Z) : bool :=
  if negb (is_selected i xid) || negb (is_selected i yid) then false
  else HasEdgeBetween st xid yid.

(** [func (g nodeInducedGraph) Edge(uid, vid int64) graph.Edge] *)
Definition nodeInducedGraph_Edge (i : nodeInducedGraph) (st : State)
    (uid vid : Z) : option EdgePtr :=
  Induced.EdgeBetween i st uid vid.

(** ** The rest of analysis.go *)

(** [type directed struct { *Graph }]: the graph as [network.PageRank]
    sees it, with [HasEdgeFromTo(u, v)] answered by [HasEdgeBetween] and
    [To(n)] by [From]. *)
Definition directed_HasEdgeFromTo (st : State) (uid vid : Z) : bool :=
  HasEdgeBetween st uid vid.

Definition directed_To (st : State) (id : Z) : list NodePtr :=
  From st id.

(** An edge object with its attributes replaced by [f] of them, and the
    write [e.Attributes = f(e.Attributes)] through [e : *Edge]. *)
Definition set_edge_attrs (f : Attributes → Attributes) (o : Edge) : Edge :=
  mkEdge (F o) (T o) (f (Edge_Attributes o)).

Definition update_edge_attrs (f : Attributes → Attributes) (e : EdgePtr)
    (st : State) : State :=
  mkState (nodeObjs st) (alter (set_edge_attrs f) e (edgeObjs st)) (graph st).

(** The body of the loop of [EdgeBetweenness] for the entry [ids]:
    [e := g.EdgeBetween(ids[0], ids[1])], then a write to the attributes
    of [e] asserted to be a [*Edge]. The type assertion panics when there
    is no such edge. *)
Definition visit_edge (body : Attributes → Attributes) (st : State)
    (ids : Z * Z) : Result State :=
  match EdgeBetween st ids.1 ids.2 with
  | Some e =>
      match edgeObjs st !! e with
      | Some _ => Ok (update_edge_attrs body e st)
      | None => nil_deref
      end
  | None =>
      Panic "interface conversion: graph.Edge is nil, not *graphprac.Edge"
  end.

(** The loop of [Betweenness] that fills in the nodes [network.Betweenness]
    left out:
    [for _, n := range nodes { if _, ok := rank[n.ID()]; !ok {
    rank[n.ID()] = 0 } }]. *)
Definition fill_zero (st : State) (nodes : gmap Z NodePtr)
    (rank : gmap Z float64) : Result (gmap Z float64) :=
  foldM (λ (rank : gmap Z float64) n,
           id ← ID st n;
           Ok (match rank !! id with
               | Some _ => rank
               | None => <[id := float64_zero]> rank
               end))
        rank (snd <$> map_to_list nodes).

(** The loop over the communities,
    [for i, c := range r.Communities() { for _, n := range c { ... } }]. A
    community is the list of the IDs of its members. *)
Fixpoint label_communities (body : Z → Attributes → Attributes)
    (nodes : gmap Z NodePtr) (cs : list (list Z)) (i : Z) (st : State)
  : Result State :=
  match cs with
  | [] => Ok st
  | c :: cs' =>
      st' ← foldM (visit_member (body i) nodes) st c;
      label_communities body nodes cs' (i + 1) st'
  end.

Section Analyses.

(** [fmt.Sprint(w)] for a [float64]: the shortest decimal numeral that
    reads back as [w]. *)
Variable Sprint_float64 : float64 → string.

(** The analyses of gonum the package calls: [network.PageRank],
    [path.DijkstraAllPaths] with [network.Closeness] and
    [network.Farness], [network.Betweenness], [network.EdgeBetweenness],
    and [community.Modularize] with the [Communities] of its result. *)
Variable network_PageRank : State → float64 → float64 → gmap Z float64.
Variable AllShortest : Type.
Variable path_DijkstraAllPaths : State → AllShortest.
Variable network_Closeness : State → AllShortest → gmap Z float64.
Variable network_Farness : State → AllShortest → gmap Z float64.
Variable network_Betweenness : State → gmap Z float64.
Variable network_EdgeBetweenness : State → gmap (Z * Z) float64.
Variable community_Modularize : State → float64 → list (list Z).

(** The loop that stores a ranking,
    [for id, w := range rank { nodes[id].Attributes... fmt.Sprint(w) }],
    where [write v] is what is done to the attributes with the numeral
    [v]. *)
Definition write_ranks (write : string → Attributes → Attributes)
    (nodes : gmap Z NodePtr) (rank : gmap Z float64) (st : State)
  : Result State :=
  foldM (λ st (kv : Z * float64),
           visit_member (write (Sprint_float64 kv.2)) nodes st kv.1)
        st (map_to_list rank).

(** [func PageRank(g *Graph, damp, tol float64)] *)
Definition PageRank (damp tol : float64) (st : State) : Result State :=
  let rank := network_PageRank st damp tol in
  nodes ← NodeMap st;
  write_ranks (λ v a, Set_ a "rank" v) nodes rank st.

(** [func Closeness(g *Graph)] *)
Definition Closeness (st : State) : Result State :=
  let p := path_DijkstraAllPaths st in
  let rank := network_Closeness st p in
  nodes ← NodeMap st;
  write_ranks (λ v a, Set_ a "closeness" v) nodes rank st.

(** [func Farness(g *Graph)] *)
Definition Farness (st : State) : Result State :=
  let p := path_DijkstraAllPaths st in
  let rank := network_Farness st p in
  nodes ← NodeMap st;
  write_ranks (λ v a, Set_ a "farness" v) nodes rank st.

(** [func Betweenness(g *Graph)] *)
Definition Betweenness (st : State) : Result State :=
  let rank := network_Betweenness st in
  nodes ← NodeMap st;
  rank' ← fill_zero st nodes rank;
  write_ranks (λ v a, Set_ a "betweenness" v) nodes rank' st.

(** [func EdgeBetweenness(g *Graph)] *)
Definition EdgeBetweenness (st : State) : Result State :=
  let rank := network_EdgeBetweenness st in
  foldM (λ st (kv : Z * Z * float64),
           visit_edge (λ a, Set_ a "edge_betweenness" (Sprint_float64 kv.2))
             st kv.1)
        st (map_to_list rank).

(** [func Communities(g *Graph, resolution float64)] *)
Definition Communities (resolution : float64) (st : State) : Result State :=
  let r := community_Modularize st resolution in
  nodes ← NodeMap st;
  label_communities (λ i a, Set_ a "community" (Sprint i)) nodes r 0 st.

End Analyses.

(** The same analyses in the first revision of analysis.go, where a
    result is stored by replacing the attributes of the node:
    [nodes[id].Attributes = []dot.Attribute{{"rank", fmt.Sprint(w)}}]. *)
Module Rev1Analyses.

Section Analyses.

Variable Sprint_float64 : float64 → string.
Variable network_PageRank : State → float64 → float64 → gmap Z float64.
Variable network_Betweenness : State → gmap Z float64.
Variable community_Modularize : State → float64 → list (list Z).

Definition PageRank (damp tol : float64) (st : State) : Result State :=
  let rank := network_PageRank st damp tol in
  nodes ← NodeMap st;
  write_ranks Sprint_float64 (λ v _, [mkAttr "rank" v]) nodes rank st.

Definition Betweenness (st : State) : Result State :=
  let rank := network_Betweenness st in
  nodes ← NodeMap st;
  rank' ← fill_zero st nodes rank;
  write_ranks Sprint_float64 (λ v _, [mkAttr "betweenness" v]) nodes rank' st.

Definition Communities (resolution : float64) (st : State) : Result State :=
  let r := community_Modularize st resolution in
  nodes ← NodeMap st;
  label_communities (λ i _, [mkAttr "community" (Sprint i)]) nodes r 0 st.

End Analyses.

End Rev1Analyses.

(** ** What the remaining operations are expected to do *)

(** The pairs of a bag other than those with key [k]. *)
Definition without (k : string) (a : Attributes) : Attributes :=
  filter (λ x, Key x ≠ k) a.

(** The attributes of a node after the decoder has handed it the
    attributes [attrs] one by one. *)
Definition decode_with (set : NodePtr → Attribute → State → Result State)
    (n : NodePtr) (attrs : list Attribute) (st : State) : Result State :=
  foldM (λ st attr, set n attr st) st attrs.

(** The value the ranking stored for the node with ID [id]: its entry in
    [rank], zero without one. *)
Definition score (rank : gmap Z float64) (id : Z) : float64 :=
  default float64_zero (rank !! id).

(** What storing the ranking [rank] under the key [key] is expected to do
    on the way from [st] to [st']: the graph is the same, a ranked node
    reads the numeral of its value under [key], an unranked node is as it
    was, and no other key of any node reads differently. *)
Definition stored (Sprint : float64 → string) (key : string)
    (rank : gmap Z float64) (st st' : State) : Prop :=
  graph st' = graph st
  ∧ ∀ id n, Node_by_ID st id = Some n →
      (∀ w, rank !! id = Some w → Get (attrs_at st' n) key = Sprint w)
      ∧ (rank !! id = None → attrs_at st' n = attrs_at st n)
      ∧ (∀ k, k ≠ key → Get (attrs_at st' n) k = Get (attrs_at st n) k).

(** What the first revision does instead: a ranked node is left with the
    one attribute [key] and nothing else. *)
Definition replaced (Sprint : float64 → string) (key : string)
    (rank : gmap Z float64) (st st' : State) : Prop :=
  graph st' = graph st
  ∧ ∀ id n, Node_by_ID st id = Some n →
      (∀ w, rank !! id = Some w →
            attrs_at st' n = [mkAttr key (Sprint w)])
      ∧ (rank !! id = None → attrs_at st' n = attrs_at st n).

(** Every ID the ranking mentions is that of a registered node. *)
Definition ranks_nodes (st : State) (rank : gmap Z float64) : Prop :=
  ∀ id, is_Some (rank !! id) → is_Some (Node_by_ID st id).

(** [keep] as a test: true where the pruning loop keeps the entry. *)
Definition kept {A} (keep : A → Result bool) (x : A) : bool :=
  match keep x with
  | Ok true => true
  | _ => false
  end.

(** The node at [n] has a selected ID; both ends of the edge at [e] have
    selected IDs. *)
Definition selected_node (i : nodeInducedGraph) (st : State) (n : NodePtr)
  : bool :=
  match ID st n with
  | Ok id => is_selected i id
  | Panic _ => false
  end.

Definition selected_edge (i : nodeInducedGraph) (st : State) (e : EdgePtr)
  : bool :=
  match From_ID st e, To_ID st e with
  | Ok fid, Ok tid => is_selected i fid && is_selected i tid
  | _, _ => false
  end.

(** Every pair the edge ranking mentions has the smaller ID first, as
    gonum records the edges of an undirected graph, and names an edge. *)
Definition ranks_edges (st : State) (rank : gmap (Z * Z) float64) : Prop :=
  ∀ u v, is_Some (rank !! (u, v)) → u < v ∧ is_Some (EdgeBetween st u v).

(** What storing the edge ranking [rank] under [key] is expected to do:
    graph and nodes are the same, a ranked edge reads the numeral of its
    value under [key], an unranked edge is as it was, and no other key of
    any edge reads differently. *)
Definition edges_stored (Sprint : float64 → string) (key : string)
    (rank : gmap (Z * Z) float64) (st st' : State) : Prop :=
  graph st' = graph st ∧ nodeObjs st' = nodeObjs st
  ∧ ∀ u v e, u < v → EdgeBetween st u v = Some e →
      (∀ w, rank !! (u, v) = Some w →
            Get (edge_attrs_at st' e) key = Sprint w)
      ∧ (rank !! (u, v) = None → edge_attrs_at st' e = edge_attrs_at st e)
      ∧ (∀ k, k ≠ key →
              Get (edge_attrs_at st' e) k = Get (edge_attrs_at st e) k).

(** The number of the last community that lists [id], if any. *)
Fixpoint last_listing (id : Z) (i : Z) (cs : list (list Z)) : option Z :=
  match cs with
  | [] => None
  | c :: cs' =>
      match last_listing id (i + 1) cs' with
      | Some j => Some j
      | None => if bool_decide (id ∈ c) then Some i else None
      end
  end.

(** *** More samples *)

(** Stand-ins for [fmt.Sprint] of a [float64] and for
    [strconv.ParseFloat] on the values the samples use (0, 1, 2, 3 and
    NaN), with the numerals Go prints for them; no other value is printed
    or read by a sample. *)
Definition sample_Sprint_float64 (w : float64) : string :=
  if is_NaN w then "NaN"
  else if SFeqb w float64_zero then "0"
  else if SFeqb w (float64_of_Z 1) then "1"
  else if SFeqb w (float64_of_Z 2) then "2"
  else if SFeqb w (float64_of_Z 3) then "3"
  else "?".

Definition sample_ParseFloat_g (s : string) : float64 * option error :=
  if String.eqb s "0" then (float64_zero, None)
  else if String.eqb s "1" then (float64_of_Z 1, None)
  else if String.eqb s "2" then (float64_of_Z 2, None)
  else if String.eqb s "3" then (float64_of_Z 3, None)
  else (float64_zero, Some (NumError "ParseFloat" s "invalid syntax")).

(** A ranking of the nodes 0 and 2 of the three-node sample. *)
Definition sample_rank (_ : State) : gmap Z float64 :=
  {[ 0 := float64_of_Z 2; 2 := float64_of_Z 3 ]}.

Definition sample_PageRank (st : State) (_ _ : float64) : gmap Z float64 :=
  sample_rank st.

(** Two communities over the three-node sample. *)
Definition sample_communities (_ : State) (_ : float64) : list (list Z) :=
  [[0; 2]; [1]].

(** The four-node sample with a score on its second node. *)
Definition sample_four_scored : State := set_score 2 "3.0" sample_four.

(** Three registered nodes, the first joined to the other two. *)
Definition sample_star : State :=
  (NewEdge 1 3 (NewEdge 1 2 sample_three).2).2.

(** The view of the star over its first two nodes, and the empty view. *)
Definition sample_star_view : nodeInducedGraph :=
  match Induce sample_star [1%positive; 2%positive] with
  | Ok i => i
  | Panic _ => mkInduced ∅
  end.

Definition sample_edge_rank (_ : State) : gmap (Z * Z) float64 :=
  {[ (0, 1) := float64_of_Z 1; (0, 2) := float64_of_Z 2 ]}.

(** An edge ranking that mentions the pair 1, 2, which no edge of the star
    joins. *)
Definition sample_edge_rank_bad (_ : State) : gmap (Z * Z) float64 :=
  {[ (0, 1) := float64_of_Z 1; (1, 2) := float64_of_Z 2 ]}.


(** * Properties *)

(** ** Attribute bags *)

Section AttributeFacts.

Implicit Types (a : Attributes) (k v : string) (kv : Attribute).

Lemma eqb_key k k' : String.eqb k k' = bool_decide (k = k').
Proof.
  destruct (String.eqb_spec k k'); symmetry;
    [by apply bool_decide_eq_true | by apply bool_decide_eq_false].
Qed.

Lemma index_of_None a k : index_of a k = None ↔ k ∉ keys a.
Proof.
  induction a as [|kv a IH]; simpl.
  - split; [intros _; apply not_elem_of_nil | done].
  - rewrite eqb_key, not_elem_of_cons. case_bool_decide as Hk.
    + split; [done | intros [? _]; congruence].
    + rewrite fmap_None, IH. intuition congruence.
Qed.

(** The loop of [Set] stops on the first pair with the key. *)
Lemma index_of_Some a k i :
  index_of a k = Some i →
  ∃ pre kv post,
    a = pre ++ kv :: post ∧ length pre = i ∧ Key kv = k ∧ k ∉ keys pre.
Proof.
  revert i. induction a as [|x a IH]; intros i; simpl; [done|].
  rewrite eqb_key. case_bool_decide as Hk.
  - intros [= <-]. exists [], x, a. split_and!; auto. apply not_elem_of_nil.
  - intros Hi. apply fmap_Some in Hi as (i' & Hi' & ->).
    destruct (IH _ Hi') as (pre & kv & post & -> & <- & <- & Hpre).
    exists (x :: pre), kv, post. split_and!; auto.
    simpl. apply not_elem_of_cons. split; [congruence | done].
Qed.

Lemma Get_absent a k : k ∉ keys a → Get a k = "".
Proof.
  induction a as [|kv a IH]; simpl; [done|].
  rewrite not_elem_of_cons, eqb_key. intros [Hne Hk].
  rewrite bool_decide_eq_false_2 by congruence. auto.
Qed.

Lemma Get_app_absent pre a k : k ∉ keys pre → Get (pre ++ a) k = Get a k.
Proof.
  induction pre as [|kv pre IH]; simpl; [done|].
  rewrite not_elem_of_cons, eqb_key. intros [Hne Hk].
  rewrite bool_decide_eq_false_2 by congruence. auto.
Qed.

Lemma Get_app_present pre a k : k ∈ keys pre → Get (pre ++ a) k = Get pre k.
Proof.
  induction pre as [|kv pre IH]; simpl.
  - intros H. by apply elem_of_nil in H.
  - rewrite elem_of_cons, eqb_key. case_bool_decide as Hk; [done|].
    intros [?|?]; [congruence | auto].
Qed.

Lemma Get_cons kv a k :
Get (kv :: a) k = if bool_decide (Key kv = k) then Value kv else Get a k.
Proof. simpl. by rewrite eqb_key. Qed.

Lemma Get_here kv a : Get (kv :: a) (Key kv) = Value kv.
Proof. simpl. by rewrite String.eqb_refl. Qed.

Lemma lookup_attr_None a k : lookup_attr a k = None ↔ k ∉ keys a.
Proof.
  induction a as [|kv a IH]; simpl.
  - split; [intros _; apply not_elem_of_nil | done].
  - rewrite eqb_key, not_elem_of_cons. case_bool_decide as Hk.
    + split; [done | intros [? _]; congruence].
    + rewrite IH. intuition congruence.
Qed.

Lemma lookup_attr_Get a k v : lookup_attr a k = Some v → Get a k = v.
Proof.
  induction a as [|kv a IH]; simpl; [done|].
  destruct (String.eqb (Key kv) k); [congruence | auto].
Qed.

Lemma lookup_attr_present a k : k ∈ keys a → lookup_attr a k = Some (Get a k).
Proof.
  induction a as [|kv a IH]; simpl.
  - intros H. by apply elem_of_nil in H.
  - rewrite elem_of_cons, eqb_key. case_bool_decide as Hk; [done|].
    intros [?|?]; [congruence | auto].
Qed.

(** [swap_delete] removes the element at the index and keeps every other
    one, possibly in another order. *)
Lemma swap_delete_split {A} (pre : list A) x post :
  swap_delete (length pre) (pre ++ x :: post)
  = match last post with
    | Some y => pre ++ y :: removelast post
    | None => pre
    end.
Proof.
  unfold swap_delete. destruct (last post) as [y|] eqn:Hlast.
  - apply last_Some in Hlast as [post' ->].
    rewrite removelast_last.
    replace (pre ++ x :: post' ++ [y]) with ((pre ++ x :: post') ++ [y])
      by by rewrite <- app_assoc.
    rewrite last_snoc, length_app. simpl.
    replace (length (pre ++ x :: post') + 1 - 1)%nat
      with (length (pre ++ x :: post')) by lia.
    rewrite <- app_assoc. simpl.
    rewrite insert_app_r_alt by lia. rewrite Nat.sub_diag. simpl.
    rewrite length_app. simpl.
    replace (pre ++ y :: post' ++ [y]) with ((pre ++ y :: post') ++ [y])
      by by rewrite <- app_assoc.
    rewrite take_app_length'; [done|]. rewrite length_app. simpl. lia.
  - apply last_None in Hlast as ->.
    replace (pre ++ [x]) with (pre ++ [x]) by done.
    rewrite last_snoc, length_app. simpl.
    replace (length pre + 1 - 1)%nat with (length pre) by lia.
    rewrite insert_app_r_alt by lia. rewrite Nat.sub_diag. simpl.
    by rewrite take_app_length.
Qed.

Lemma swap_delete_Permutation {A} (pre : list A) x post :
  swap_delete (length pre) (pre ++ x :: post) ≡ₚ pre ++ post.
Proof.
  rewrite swap_delete_split. destruct (last post) as [y|] eqn:Hlast.
  - apply last_Some in Hlast as [post' ->].
    rewrite removelast_last. apply Permutation_app_head.
    by rewrite Permutation_cons_append.
  - apply last_None in Hlast as ->. by rewrite app_nil_r.
Qed.

Lemma swap_delete_length {A} (pre : list A) x post :
  length (swap_delete (length pre) (pre ++ x :: post))
  = length (pre ++ post).
Proof. by rewrite swap_delete_Permutation. Qed.

(** *** What [Set] does, case by case *)

Lemma SetAttribute_absent a kv :
  Key kv ∉ keys a → SetAttribute a kv = a ++ [kv].
Proof.
  intros H. apply index_of_None in H. unfold SetAttribute. by rewrite H.
Qed.

Lemma SetAttribute_overwrite pre x post kv :
  Key x = Key kv → Key kv ∉ keys pre → Value kv ≠ "" →
  SetAttribute (pre ++ x :: post) kv
  = pre ++ mkAttr (Key x) (Value kv) :: post.
Proof.
  intros Hx Hpre Hv. unfold SetAttribute.
  assert (index_of (pre ++ x :: post) (Key kv) = Some (length pre)) as ->.
  { clear Hv. induction pre as [|y pre IH]; simpl.
    - by rewrite Hx, String.eqb_refl.
    - apply not_elem_of_cons in Hpre as [Hy Hpre].
      rewrite eqb_key, bool_decide_eq_false_2 by congruence.
      by rewrite IH. }
  rewrite eqb_key, bool_decide_eq_false_2 by done. simpl.
  rewrite alter_app_r_alt by lia. by rewrite Nat.sub_diag.
Qed.

Lemma SetAttribute_delete pre x post kv :
  Key x = Key kv → Key kv ∉ keys pre → Value kv = "" →
  SetAttribute (pre ++ x :: post) kv
  = swap_delete (length pre) (pre ++ x :: post).
Proof.
  intros Hx Hpre Hv. unfold SetAttribute.
  assert (index_of (pre ++ x :: post) (Key kv) = Some (length pre)) as ->.
  { clear Hv. induction pre as [|y pre IH]; simpl.
    - by rewrite Hx, String.eqb_refl.
    - apply not_elem_of_cons in Hpre as [Hy Hpre].
      rewrite eqb_key, bool_decide_eq_false_2 by congruence.
      by rewrite IH. }
  by rewrite Hv.
Qed.

(** Splitting a bag at the first pair with key [k]. *)
Lemma present_split a k :
  k ∈ keys a →
  ∃ pre x post, a = pre ++ x :: post ∧ Key x = k ∧ k ∉ keys pre.
Proof.
  intros H. destruct (index_of a k) as [i|] eqn:Hi.
  - apply index_of_Some in Hi as (pre & x & post & ? & ? & ? & ?).
    by exists pre, x, post.
  - by apply index_of_None in Hi.
Qed.

Lemma occurrences_app a b k :
  occurrences (a ++ b) k = (occurrences a k + occurrences b k)%nat.
Proof.
  unfold occurrences, keys. by rewrite fmap_app, filter_app, length_app.
Qed.

Lemma occurrences_absent a k : occurrences a k = 0%nat ↔ k ∉ keys a.
Proof.
  unfold occurrences. induction (keys a) as [|x l IH].
  - split; [intros _; apply not_elem_of_nil | done].
  - rewrite filter_cons, not_elem_of_cons. case_decide; simpl.
    + split; [lia | intros [? _]; congruence].
    + rewrite IH. intuition congruence.
Qed.

Lemma occurrences_cons_eq x a : occurrences (x :: a) (Key x) = S (occurrences a (Key x)).
Proof. unfold occurrences. simpl. rewrite filter_cons. by rewrite decide_True. Qed.

Lemma NoDup_occurrences a k : NoDup (keys a) → (occurrences a k ≤ 1)%nat.
Proof.
  induction a as [|x a IH]; simpl; [unfold occurrences; simpl; lia|].
  intros [Hx Ha]%NoDup_cons. destruct (decide (Key x = k)) as [<-|Hne].
  - rewrite occurrences_cons_eq.
    apply occurrences_absent in Hx. lia.
  - unfold occurrences in *. simpl. rewrite filter_cons, decide_False by done.
    auto.
Qed.

(** [Set] keeps the keys of a bag distinct. *)
Lemma SetAttribute_NoDup a kv :
  NoDup (keys a) → NoDup (keys (SetAttribute a kv)).
Proof.
  intros Hnd. destruct (decide (Key kv ∈ keys a)) as [Hin|Hout].
  - destruct (present_split _ _ Hin) as (pre & x & post & -> & Hx & Hpre).
    destruct (decide (Value kv = "")) as [Hv|Hv].
    + rewrite SetAttribute_delete by done.
      unfold keys. rewrite swap_delete_Permutation.
      unfold keys in Hnd. rewrite fmap_app, fmap_cons in Hnd.
      rewrite fmap_app. apply NoDup_app in Hnd as (H1 & H2 & H3).
      apply NoDup_cons in H3 as [_ H3]. apply NoDup_app. split_and!; auto.
      intros y Hy Hy'. eapply H2; [done|]. by right.
    + rewrite SetAttribute_overwrite by done.
      unfold keys in *. by rewrite fmap_app, fmap_cons in *.
  - rewrite SetAttribute_absent by done. unfold keys in *.
    rewrite fmap_app. simpl. apply NoDup_app. split_and!; auto.
    + intros y Hy ->%list_elem_of_singleton. done.
    + apply NoDup_singleton.
Qed.

(** Reading back a non-empty value. *)
Lemma Get_SetAttribute_nonempty a kv :
  Value kv ≠ "" → Get (SetAttribute a kv) (Key kv) = Value kv.
Proof.
  intros Hv. destruct (decide (Key kv ∈ keys a)) as [Hin|Hout].
  - destruct (present_split _ _ Hin) as (pre & x & post & -> & Hx & Hpre).
    rewrite SetAttribute_overwrite by done.
    rewrite Get_app_absent by done. simpl. by rewrite Hx, String.eqb_refl.
  - rewrite SetAttribute_absent by done.
    rewrite Get_app_absent by done. simpl. by rewrite String.eqb_refl.
Qed.

(** Unsetting a key that the bag holds once removes it. *)
Lemma SetAttribute_empty_absent a k :
  k ∈ keys a → (occurrences a k ≤ 1)%nat →
  k ∉ keys (SetAttribute a (mkAttr k "")).
Proof.
  intros Hin Hocc.
  destruct (present_split _ _ Hin) as (pre & x & post & -> & Hx & Hpre).
  rewrite SetAttribute_delete by done.
  unfold keys. rewrite swap_delete_Permutation. rewrite fmap_app.
  rewrite occurrences_app in Hocc.
  change (x :: post) with ([x] ++ post) in Hocc.
  rewrite occurrences_app, <- Hx, occurrences_cons_eq in Hocc.
  assert (occurrences post (Key x) = 0%nat) as Hpost by lia.
  apply occurrences_absent in Hpost. rewrite Hx in Hpost.
  intros [?|?]%elem_of_app; done.
Qed.

Lemma Get_SetAttribute_empty a k :
  (occurrences a k ≤ 1)%nat → Get (SetAttribute a (mkAttr k "")) k = "".
Proof.
  intros Hocc. destruct (decide (k ∈ keys a)) as [Hin|Hout].
  - apply Get_absent. by apply SetAttribute_empty_absent.
  - rewrite SetAttribute_absent by done.
    rewrite Get_app_absent by done. simpl. by rewrite String.eqb_refl.
Qed.

(** Keys other than the one set keep their value, whatever the case,
    when the keys of the bag are distinct. *)
Lemma Get_SetAttribute_other a kv k :
  k ≠ Key kv → NoDup (keys a) → Get (SetAttribute a kv) k = Get a k.
Proof.
  intros Hne Hnd. destruct (decide (Key kv ∈ keys a)) as [Hin|Hout].
  - destruct (present_split _ _ Hin) as (pre & x & post & -> & Hx & Hpre).
    destruct (decide (Value kv = "")) as [Hv|Hv].
    + rewrite SetAttribute_delete by done. rewrite swap_delete_split.
      unfold keys in Hnd. rewrite fmap_app, fmap_cons in Hnd.
      apply NoDup_app in Hnd as (H1 & H2 & [H3 H4]%NoDup_cons).
      destruct (decide (k ∈ keys pre)) as [Hk|Hk].
      * rewrite Get_app_present by done.
        destruct (last post); by rewrite ?Get_app_present.
      * rewrite Get_app_absent by done. simpl.
        rewrite eqb_key, bool_decide_eq_false_2 by congruence.
        destruct (last post) as [y|] eqn:Hlast.
        -- apply last_Some in Hlast as [post' ->].
           rewrite removelast_last, Get_app_absent by done.
           rewrite fmap_app in H4. apply NoDup_app in H4 as (H5 & H6 & H7).
           simpl. rewrite eqb_key. case_bool_decide as Hy.
           ++ assert (k ∉ keys post') as Hk'.
              { intros Hk'. eapply H6; [exact Hk'|]. simpl. rewrite Hy. by left. }
              rewrite Get_app_absent by done. simpl.
              by rewrite eqb_key, bool_decide_eq_true_2.
           ++ destruct (decide (k ∈ keys post')) as [Hk'|Hk'].
              ** by rewrite Get_app_present.
              ** rewrite Get_app_absent by done. simpl.
                 rewrite eqb_key, bool_decide_eq_false_2 by done.
                 by rewrite Get_absent.
        -- apply last_None in Hlast as ->. simpl. by rewrite Get_absent.
    + rewrite SetAttribute_overwrite by done.
      destruct (decide (k ∈ keys pre)) as [Hk|Hk].
      * by rewrite !Get_app_present.
      * rewrite !Get_app_absent by done. simpl.
        by rewrite !eqb_key, !bool_decide_eq_false_2 by congruence.
  - rewrite SetAttribute_absent by done.
    destruct (decide (k ∈ keys a)) as [Hk|Hk].
    + by rewrite Get_app_present.
    + rewrite Get_app_absent by done. simpl.
      rewrite eqb_key, bool_decide_eq_false_2 by congruence.
      by rewrite Get_absent.
Qed.

End AttributeFacts.

(** Bags built by [Set] never hold a key twice. *)
Lemma bag_of_NoDup (ops : list (string * string)) : NoDup (keys (bag_of ops)).
Proof.
  unfold bag_of. generalize (NoDup_nil_2 (A := string)).
  change (@nil string) with (keys []). generalize (@nil Attribute).
  induction ops as [|[k v] ops IH]; intros a Ha; simpl; [done|].
  apply IH. unfold Set_. by apply SetAttribute_NoDup.
Qed.

(** On a slice holding a key twice, as only direct construction yields,
    unsetting the key uncovers the later pair. *)
Example Set_empty_on_repeated_key :
  Set_ [mkAttr "k" "1"; mkAttr "k" "2"] "k" "" = [mkAttr "k" "2"].
Proof. reflexivity. Qed.

(** C2. For every attribute bag (a bag built by any sequence of [Set]
    calls), key [k] and value [v]: [Get k] right after [Set k v] with [v]
    non-empty returns [v]; [Set k ""] followed by [Get k] returns the empty
    string; [Get] on an absent key returns the empty string. *)
Theorem Get_after_Set (ops : list (string * string)) (k v : string) :
  (v ≠ "" → Get (Set_ (bag_of ops) k v) k = v)
  ∧ Get (Set_ (bag_of ops) k "") k = ""
  ∧ (k ∉ keys (bag_of ops) → Get (bag_of ops) k = "").
Proof.
  split_and!.
  - intros Hv. by apply (Get_SetAttribute_nonempty _ (mkAttr k v)).
  - apply Get_SetAttribute_empty, NoDup_occurrences, bag_of_NoDup.
  - apply Get_absent.
Qed.

Lemma Get_after_Set_witness :
  Get (Set_ (bag_of [("a", "1"); ("b", "2"); ("a", "")]) "b" "3") "b" = "3"
  ∧ Get (bag_of [("a", "1"); ("b", "2"); ("a", "")]) "a" = "".
Proof.
  split.
  - apply (Get_after_Set [("a", "1"); ("b", "2"); ("a", "")] "b" "3").
    discriminate.
  - apply (Get_after_Set [("a", "1"); ("b", "2"); ("a", "")] "a" "").
    vm_compute. intros H. repeat (apply elem_of_cons in H as [H|H]; [discriminate|]).
    by apply elem_of_nil in H.
Defined.

(** C10. For every bag and every key [k] not present in it, [Set k ""]
    (in either revision) appends the pair [(k, "")]: the bag grows by one,
    its enumeration then holds a pair with key [k] and empty value, and
    [Get k] still returns the empty string. *)
Theorem Set_empty_on_absent_key (a : Attributes) (k : string) :
  k ∉ keys a →
  Set_ a k "" = a ++ [mkAttr k ""]
  ∧ SetAttribute a (mkAttr k "") = a ++ [mkAttr k ""]
  ∧ length (Set_ a k "") = S (length a)
  ∧ mkAttr k "" ∈ DOTAttributes (Set_ a k "")
  ∧ k ∈ keys (Set_ a k "")
  ∧ Get (Set_ a k "") k = "".
Proof.
  intros Hk. unfold Set_, DOTAttributes.
  rewrite (SetAttribute_absent a (mkAttr k "")) by done.
  split_and!; try done.
  - rewrite length_app. simpl. lia.
  - apply elem_of_app. right. by apply list_elem_of_singleton.
  - unfold keys. rewrite fmap_app. apply elem_of_app. right.
    by apply list_elem_of_singleton.
  - rewrite Get_app_absent by done. simpl. by rewrite String.eqb_refl.
Qed.

Lemma Set_empty_on_absent_key_witness :
  Set_ [mkAttr "a" "1"] "k" "" = [mkAttr "a" "1"; mkAttr "k" ""]
  ∧ Get (Set_ [mkAttr "a" "1"] "k" "") "k" = "".
Proof.
  assert ("k" ∉ keys [mkAttr "a" "1"]) as H.
  { intros H. apply list_elem_of_singleton in H. discriminate. }
  destruct (Set_empty_on_absent_key [mkAttr "a" "1"] "k" H)
    as (H1 & _ & _ & _ & _ & H6).
  split; [exact H1 | exact H6].
Defined.

(** ** Graph construction *)

Section GraphFacts.

Implicit Types (st : State) (n a b : NodePtr) (e : EdgePtr) (id : Z).

Lemma ID_Ok st n id :
  ID st n = Ok id ↔ ∃ o, nodeObjs st !! n = Some o ∧ NodeID o = id.
Proof.
  unfold ID, nil_deref. destruct (nodeObjs st !! n) as [o|].
  - split; [intros [= <-]; eauto | intros (? & [= <-] & <-); done].
  - split; [done | intros (? & ? & _); done].
Qed.

Lemma fresh_node_unused st : nodeObjs st !! fresh (dom (nodeObjs st)) = None.
Proof. apply not_elem_of_dom, is_fresh. Qed.

Lemma fresh_edge_unused st : edgeObjs st !! fresh (dom (edgeObjs st)) = None.
Proof. apply not_elem_of_dom, is_fresh. Qed.

Lemma wf_empty : wf empty_State.
Proof. split; simpl; intros *; rewrite ?lookup_empty; done. Qed.

(** *** Allocation leaves the graph and the older objects alone *)


Lemma alloc_Node_ID_new id st :
  ID (alloc_Node id st).2 (alloc_Node id st).1 = Ok id.
Proof. unfold ID, alloc_Node. simpl. by rewrite lookup_insert_eq. Qed.

Lemma alloc_Node_ID_old id st n idn :
  ID st n = Ok idn → ID (alloc_Node id st).2 n = Ok idn.
Proof.
  intros H. pose proof H as (o & Ho & _)%ID_Ok.
  unfold ID, alloc_Node in *. simpl. rewrite lookup_insert_ne; [done|].
  intros <-. by rewrite fresh_node_unused in Ho.
Qed.

Lemma alloc_Node_From_ID id st e u :
  From_ID st e = Ok u → From_ID (alloc_Node id st).2 e = Ok u.
Proof.
  unfold From_ID. simpl. destruct (edgeObjs st !! e); [|done].
  apply alloc_Node_ID_old.
Qed.

Lemma alloc_Node_To_ID id st e u :
  To_ID st e = Ok u → To_ID (alloc_Node id st).2 e = Ok u.
Proof.
  unfold To_ID. simpl. destruct (edgeObjs st !! e); [|done].
  apply alloc_Node_ID_old.
Qed.

Lemma alloc_Node_wf id st : wf st → wf (alloc_Node id st).2.
Proof.
  intros [H1 H2 H3 H4]. split; try done.
  - intros i n Hn. apply alloc_Node_ID_old, H1, Hn.
  - intros u v e He. destruct (H4 u v e He) as [Ha Hb]. split; [done|].
    destruct Hb as [[? ?]|[? ?]]; [left|right];
      auto using alloc_Node_From_ID, alloc_Node_To_ID.
Qed.

Lemma alloc_Edge_ID a b st n : ID (alloc_Edge a b st).2 n = ID st n.
Proof. done. Qed.

Lemma alloc_Edge_From_ID_new a b st :
  From_ID (alloc_Edge a b st).2 (alloc_Edge a b st).1 = ID st a.
Proof. unfold From_ID, alloc_Edge. simpl. by rewrite lookup_insert_eq. Qed.

Lemma alloc_Edge_To_ID_new a b st :
  To_ID (alloc_Edge a b st).2 (alloc_Edge a b st).1 = ID st b.
Proof. unfold To_ID, alloc_Edge. simpl. by rewrite lookup_insert_eq. Qed.

Lemma alloc_Edge_old a b st e :
  is_Some (edgeObjs st !! e) →
  edgeObjs (alloc_Edge a b st).2 !! e = edgeObjs st !! e.
Proof.
  intros [o Ho]. unfold alloc_Edge. simpl. rewrite lookup_insert_ne; [done|].
  intros <-. by rewrite fresh_edge_unused in Ho.
Qed.

Lemma alloc_Edge_wf a b st : wf st → wf (alloc_Edge a b st).2.
Proof.
  intros [H1 H2 H3 H4]. split; try done.
  intros u v e He. destruct (H4 u v e He) as [Ha Hb].
  pose proof (alloc_Edge_old a b st e Ha) as Hold.
  split; [by rewrite Hold|].
  unfold From_ID, To_ID in *. rewrite Hold. exact Hb.
Qed.

(** *** The next ID is unused *)

Lemma foldr_max_upper (l : list Z) x : x ∈ l → x ≤ foldr Z.max (-1) l.
Proof.
  induction l as [|y l IH]; simpl.
  - intros H. by apply elem_of_nil in H.
  - intros [->|H]%elem_of_cons; [lia | specialize (IH H); lia].
Qed.

Lemma NewNodeID_unused (u : simple.UndirectedGraph) :
  simple.nodes u !! simple.NewNodeID u = None.
Proof.
  destruct (simple.nodes u !! simple.NewNodeID u) as [n|] eqn:Hn; [|done].
  exfalso. apply elem_of_map_to_list in Hn.
  assert (simple.NewNodeID u ∈ (map_to_list (simple.nodes u)).*1) as Hin.
  { apply list_elem_of_fmap. by exists (simple.NewNodeID u, n). }
  apply foldr_max_upper in Hin. unfold simple.NewNodeID in Hin at 1. lia.
Qed.

Lemma NewNodeID_empty : simple.NewNodeID simple.NewUndirectedGraph = 0.
Proof. reflexivity. Qed.

(** *** Registration *)

Lemma Nodes_elem st n :
  n ∈ Nodes st ↔ ∃ id, Node_by_ID st id = Some n.
Proof.
  unfold Nodes, simple.Nodes, Node_by_ID, simple.Node.
  rewrite list_elem_of_fmap. split.
  - intros ([id n'] & -> & H%elem_of_map_to_list). by exists id.
  - intros (id & H). exists (id, n). split; [done|].
    by apply elem_of_map_to_list.
Qed.

Lemma AddNode_ok st n id :
  wf st → ID st n = Ok id → Node_by_ID st id = None →
  ∃ st', AddNode n st = (Ok (), st')
    ∧ wf st'
    ∧ nodeObjs st' = nodeObjs st ∧ edgeObjs st' = edgeObjs st
    ∧ simple.edges (UndirectedGraph (graph st'))
      = simple.edges (UndirectedGraph (graph st))
    ∧ simple.nodes (UndirectedGraph (graph st'))
      = <[id := n]> (simple.nodes (UndirectedGraph (graph st))).
Proof.
  intros Hwf Hid Hnone. unfold AddNode, simple.AddNode, simple.Has.
  unfold Node_by_ID, simple.Node in Hnone. rewrite Hid, Hnone.
  rewrite bool_decide_eq_false_2 by (intros [? ?]; done).
  eexists. split; [done|]. split_and!; try done.
  destruct Hwf as [H1 H2 H3 H4]. split; simpl; try done.
  intros i m. rewrite lookup_insert. case_decide as Hi.
  - intros [= <-]. by subst.
  - apply H1.
Qed.

End GraphFacts.

Section EdgeFacts.

Implicit Types (st : State) (n a b : NodePtr) (e : EdgePtr) (id : Z).

Lemma lookup_ensure id n (m : gmap Z NodePtr) j :
  ensure id n m !! j
  = match m !! j with
    | Some x => Some x
    | None => if decide (j = id) then Some n else None
    end.
Proof.
  unfold ensure. destruct (m !! id) as [x|] eqn:Hid.
  - destruct (m !! j) eqn:Hj; [done|]. case_decide; [congruence|done].
  - rewrite lookup_insert. case_decide as Hd.
    + subst j. rewrite Hid. by rewrite decide_True.
    + destruct (m !! j); [done|]. by rewrite decide_False by congruence.
Qed.

(** [SetEdge] between two different IDs never panics. *)
Lemma SetEdge_ok (u : simple.UndirectedGraph) fid a tid b e :
  fid ≠ tid →
  simple.SetEdge u fid a tid b e
  = Ok (simple.mkUndirectedGraph
          (ensure tid b (ensure fid a (simple.nodes u)))
          (<[(tid, fid) := e]> (<[(fid, tid) := e]> (simple.edges u)))).
Proof.
  intros Hne. unfold simple.SetEdge.
  rewrite (proj2 (Z.eqb_neq fid tid)) by done.
  unfold simple.AddNode, simple.Has, ensure.
  destruct (simple.nodes u !! fid) as [x|] eqn:Hf; simpl.
  - destruct (simple.nodes u !! tid) as [y|] eqn:Ht; simpl; done.
  - rewrite lookup_insert_ne by done.
    destruct (simple.nodes u !! tid) as [y|] eqn:Ht; simpl; done.
Qed.


(** One more edge is enumerated after a pair of IDs is joined. *)
Lemma Edges_length_joined (m : gmap (Z * Z) EdgePtr) ns ns' fid tid e :
  fid ≠ tid → m !! (fid, tid) = None → m !! (tid, fid) = None →
  length (simple.Edges (simple.mkUndirectedGraph ns'
            (<[(tid, fid) := e]> (<[(fid, tid) := e]> m))))
  = S (length (simple.Edges (simple.mkUndirectedGraph ns m))).
Proof.
  intros Hne H1 H2. unfold simple.Edges. simpl.
  rewrite !length_fmap, !length_map_to_list.
  destruct (decide (fid < tid)) as [Hlt|Hge].
  - rewrite map_filter_insert_not by (intros y; simpl; lia).
    rewrite map_filter_insert_True by done.
    apply map_size_insert_None, map_lookup_filter_None. by left.
  - rewrite map_filter_insert_True by (simpl; lia).
    rewrite map_filter_insert_not by (intros y; simpl; lia).
    apply map_size_insert_None, map_lookup_filter_None. by left.
Qed.

(** An edge that exists is returned as it is and nothing changes. *)
Lemma NewEdge_existing st a b ida idb e :
  ID st a = Ok ida → ID st b = Ok idb →
  EdgeBetween st ida idb = Some e →
  NewEdge a b st = (Ok e, st).
Proof.
  intros Ha Hb He. unfold NewEdge. rewrite Ha, Hb.
  unfold EdgeBetween, simple.Edge, simple.EdgeBetween in *. by rewrite He.
Qed.

(** Joining two different IDs by a freshly allocated edge keeps the state
    well formed. *)
Lemma wf_joined st a b ida idb :
  wf st → ID st a = Ok ida → ID st b = Ok idb → ida ≠ idb →
  wf (with_UndirectedGraph (alloc_Edge a b st).2
        (simple.mkUndirectedGraph
           (ensure idb b
              (ensure ida a (simple.nodes (UndirectedGraph (graph st)))))
           (<[(idb, ida) := (alloc_Edge a b st).1]>
              (<[(ida, idb) := (alloc_Edge a b st).1]>
                 (simple.edges (UndirectedGraph (graph st))))))).
Proof.
  intros Hwf Ha Hb Hne.
  pose proof (alloc_Edge_wf a b st Hwf) as [H1 H2 H3 H4].
  pose proof (alloc_Edge_From_ID_new a b st) as HF.
  pose proof (alloc_Edge_To_ID_new a b st) as HT.
  assert (is_Some (edgeObjs (alloc_Edge a b st).2 !! (alloc_Edge a b st).1))
    as Hnew.
  { unfold alloc_Edge. simpl. rewrite lookup_insert_eq. by eexists. }
  rewrite Ha in HF. rewrite Hb in HT.
  assert (graph (alloc_Edge a b st).2 = graph st) as Hg by done.
  assert (ID (alloc_Edge a b st).2 a = Ok ida) as Ha' by done.
  assert (ID (alloc_Edge a b st).2 b = Ok idb) as Hb' by done.
  destruct (alloc_Edge a b st) as [e st1]. simpl in *. rewrite Hg in *.
  split; simpl.
  - intros id n. rewrite !lookup_ensure.
    destruct (simple.nodes (UndirectedGraph (graph st)) !! id) eqn:Hid.
    + intros [= <-]. by apply H1.
    + repeat case_decide; intros [= <-]; subst; done.
  - intros u v e' He.
    apply lookup_insert_Some in He as [[[= <- <-] <-]|[Hn1 He]].
    { rewrite lookup_insert_ne by congruence. by rewrite lookup_insert_eq. }
    apply lookup_insert_Some in He as [[[= <- <-] <-]|[Hn2 He]].
    { by rewrite lookup_insert_eq. }
    rewrite !lookup_insert_ne by congruence. by apply H2.
  - intros u. rewrite !lookup_insert_ne by congruence. apply H3.
  - intros u v e' He.
    apply lookup_insert_Some in He as [[[= <- <-] <-]|[Hn1 He]].
    { split; [done|]. by right. }
    apply lookup_insert_Some in He as [[[= <- <-] <-]|[Hn2 He]].
    { split; [done|]. by left. }
    by apply H4.
Qed.

(** A new edge between two different IDs. *)
Lemma NewEdge_new st a b ida idb :
  wf st → ID st a = Ok ida → ID st b = Ok idb → ida ≠ idb →
  EdgeBetween st ida idb = None →
  ∃ e st',
    NewEdge a b st = (Ok e, st')
    ∧ wf st'
    ∧ edgeObjs st !! e = None
    ∧ edgeObjs st' !! e = Some (mkEdge a b [])
    ∧ nodeObjs st' = nodeObjs st
    ∧ EdgeBetween st' ida idb = Some e
    ∧ EdgeBetween st' idb ida = Some e
    ∧ simple.nodes (UndirectedGraph (graph st'))
      = ensure idb b (ensure ida a (simple.nodes (UndirectedGraph (graph st))))
    ∧ length (Edges st') = S (length (Edges st)).
Proof.
  intros Hwf Ha Hb Hne Hnone.
  pose proof (wf_joined st a b ida idb Hwf Ha Hb Hne) as Hwf'.
  unfold NewEdge. rewrite Ha, Hb.
  unfold EdgeBetween, simple.Edge, simple.EdgeBetween in *. rewrite Hnone.
  assert (simple.edges (UndirectedGraph (graph st)) !! (idb, ida) = None)
    as Hnone'.
  { destruct (simple.edges (UndirectedGraph (graph st)) !! (idb, ida))
      as [e'|] eqn:He'; [|done].
    apply (wf_symmetric _ Hwf) in He'. congruence. }
  unfold alloc_Edge in *. simpl in *. rewrite SetEdge_ok by done.
  eexists _, _. split; [reflexivity|].
  split_and!; simpl.
  - exact Hwf'.
  - apply fresh_edge_unused.
  - by rewrite lookup_insert_eq.
  - done.
  - rewrite lookup_insert_ne by congruence. by rewrite lookup_insert_eq.
  - by rewrite lookup_insert_eq.
  - done.
  - unfold Edges. simpl.
    destruct (UndirectedGraph (graph st)) as [ns m]. simpl in *.
    by apply Edges_length_joined.
Qed.


End EdgeFacts.

(** ** Claims about graph construction *)

Lemma registered_distinct st a b ida idb :
  registered st a → registered st b → a ≠ b →
  ID st a = Ok ida → ID st b = Ok idb → ida ≠ idb.
Proof.
  intros (i & Hi & Hri) (j & Hj & Hrj) Hne Ha Hb ->.
  rewrite Ha in Hi. rewrite Hb in Hj. simplify_eq.
Qed.

(** When the edge is already there, both calls return it and no edge is
    added. *)
Lemma NewEdge_twice_joined st a b ida idb e :
  ID st a = Ok ida → ID st b = Ok idb → EdgeBetween st ida idb = Some e →
  NewEdge a b st = (Ok e, st).
Proof. apply NewEdge_existing. Qed.

(** C3. For distinct registered nodes [a] and [b] not yet joined, two
    calls of [NewEdge a b] return the same edge, the second call changes
    nothing, and the graph has exactly one edge more than before; the edge
    is also the one returned for [b] and [a]. *)
Theorem NewEdge_twice st a b :
  wf st → registered st a → registered st b → a ≠ b → ¬ joined st a b →
  ∃ e st1,
    NewEdge a b st = (Ok e, st1)
    ∧ NewEdge a b st1 = (Ok e, st1)
    ∧ NewEdge b a st1 = (Ok e, st1)
    ∧ length (Edges st1) = S (length (Edges st))
    ∧ wf st1.
Proof.
  intros Hwf Hra Hrb Hne Hnj.
  destruct Hra as (ida & Ha & Hra). destruct Hrb as (idb & Hb & Hrb).
  assert (ida ≠ idb) as Hid.
  { apply (registered_distinct st a b); try done; by eexists. }
  assert (EdgeBetween st ida idb = None) as Hnone.
  { destruct (EdgeBetween st ida idb) as [e|] eqn:He; [|done].
    exfalso. apply Hnj. by exists ida, idb, e. }
  destruct (NewEdge_new st a b ida idb Hwf Ha Hb Hid Hnone)
    as (e & st1 & Hcall & Hwf1 & _ & _ & Hobjs & He1 & He2 & _ & Hlen).
  assert (ID st1 a = Ok ida) as Ha1 by (unfold ID in *; by rewrite Hobjs).
  assert (ID st1 b = Ok idb) as Hb1 by (unfold ID in *; by rewrite Hobjs).
  exists e, st1. split_and!; try done.
  - by apply (NewEdge_existing st1 a b ida idb).
  - by apply (NewEdge_existing st1 b a idb ida).
Qed.

Lemma sample_st2r_wf : wf sample_st2r.
Proof.
  assert (wf sample_st1) as H1.
  { destruct (AddNode_ok (NewNode empty_State).2 sample_a 0) as (st' & Heq & Hwf & _).
    - apply alloc_Node_wf, wf_empty.
    - reflexivity.
    - reflexivity.
    - unfold sample_st1. by rewrite Heq. }
  destruct (AddNode_ok sample_st2 sample_b 1) as (st' & Heq & Hwf & _).
  - by apply alloc_Node_wf.
  - reflexivity.
  - reflexivity.
  - unfold sample_st2r. by rewrite Heq.
Qed.

Lemma NewEdge_twice_witness :
  ∃ e st1,
    NewEdge sample_a sample_b sample_st2r = (Ok e, st1)
    ∧ NewEdge sample_a sample_b st1 = (Ok e, st1)
    ∧ NewEdge sample_b sample_a st1 = (Ok e, st1)
    ∧ length (Edges st1) = S (length (Edges sample_st2r))
    ∧ wf st1.
Proof.
  apply (NewEdge_twice sample_st2r sample_a sample_b).
  - exact sample_st2r_wf.
  - exists 0. split; reflexivity.
  - exists 1. split; reflexivity.
  - discriminate.
  - intros (ida & idb & e & Ha & Hb & He).
    vm_compute in Ha. vm_compute in Hb. injection Ha as <-. injection Hb as <-.
    vm_compute in He. discriminate.
Defined.




(** The earlier revision registers the node it creates. *)
Lemma Rev1_NewNode_registers st :
  wf st →
  ∃ n st',
    Rev1.NewNode st = (Ok n, st')
    ∧ wf st'
    ∧ Node_by_ID st (simple.NewNodeID (UndirectedGraph (graph st))) = None
    ∧ ID st' n = Ok (simple.NewNodeID (UndirectedGraph (graph st)))
    ∧ Node_by_ID st' (simple.NewNodeID (UndirectedGraph (graph st))) = Some n
    ∧ n ∈ Nodes st'.
Proof.
  intros Hwf. unfold Rev1.NewNode.
  set (id := simple.NewNodeID (UndirectedGraph (graph st))).
  pose proof (alloc_Node_wf id st Hwf) as Hwf1.
  pose proof (alloc_Node_ID_new id st) as Hid.
  assert (Node_by_ID (alloc_Node id st).2 id = None) as Hfree.
  { apply NewNodeID_unused. }
  destruct (alloc_Node id st) as [n st1]. simpl in *.
  destruct (AddNode_ok st1 n id Hwf1 Hid Hfree)
    as (st' & Heq & Hwf' & Hobjs & _ & _ & Hnodes).
  rewrite Heq. exists n, st'.
  assert (Node_by_ID st' id = Some n) as Hreg.
  { unfold Node_by_ID, simple.Node. rewrite Hnodes. apply lookup_insert_eq. }
  split_and!; try done.
  - apply NewNodeID_unused.
  - unfold ID in *. by rewrite Hobjs.
  - apply Nodes_elem. by exists id.
Qed.

(** C7, on the later revision: [NewNode] creates the node object with an
    ID that no registered node has and returns it, and that is all: the
    graph is unchanged, a lookup of the ID finds nothing and the node is
    not enumerated. *)
Theorem NewNode_not_registered st :
  wf st →
  graph (NewNode st).2 = graph st
  ∧ ID (NewNode st).2 (NewNode st).1
    = Ok (simple.NewNodeID (UndirectedGraph (graph st)))
  ∧ Node_by_ID st (simple.NewNodeID (UndirectedGraph (graph st))) = None
  ∧ Node_by_ID (NewNode st).2
      (simple.NewNodeID (UndirectedGraph (graph st))) = None
  ∧ (NewNode st).1 ∉ Nodes (NewNode st).2.
Proof.
  intros Hwf. unfold NewNode. split_and!.
  - done.
  - apply alloc_Node_ID_new.
  - apply NewNodeID_unused.
  - apply NewNodeID_unused.
  - intros (id & Hid)%Nodes_elem.
    apply (wf_nodes _ Hwf) in Hid. apply ID_Ok in Hid as (o & Ho & _).
    unfold alloc_Node in Ho. simpl in Ho.
    by rewrite fresh_node_unused in Ho.
Qed.

Lemma NewNode_not_registered_witness :
  ID (NewNode empty_State).2 (NewNode empty_State).1 = Ok 0
  ∧ Node_by_ID (NewNode empty_State).2 0 = None
  ∧ (NewNode empty_State).1 ∉ Nodes (NewNode empty_State).2.
Proof.
  destruct (NewNode_not_registered empty_State wf_empty)
    as (_ & H2 & _ & H4 & H5).
  split_and!; [exact H2 | exact H4 | exact H5].
Defined.

(** Two calls of the later [NewNode] without an [AddNode] in between give
    two objects with the same ID. *)
Example NewNode_twice_same_ID :
  ID (NewNode (NewNode empty_State).2).2 (NewNode empty_State).1 = Ok 0
  ∧ ID (NewNode (NewNode empty_State).2).2
       (NewNode (NewNode empty_State).2).1 = Ok 0
  ∧ (NewNode empty_State).1 ≠ (NewNode (NewNode empty_State).2).1.
Proof. vm_compute. split_and!; done. Qed.

(** ** Induced subgraphs *)

Section PruneFacts.

Context {A : Type} (keep : A → Result bool).

Lemma swap_delete_lookup_lt (n : list A) i j :
  (j < i)%nat → (i < length n)%nat → swap_delete i n !! j = n !! j.
Proof.
  intros Hj Hi. destruct (lookup_lt_is_Some_2 n i Hi) as [x Hx].
  apply list_elem_of_split_length in Hx as (pre & post & -> & ->).
  rewrite swap_delete_split.
  destruct (last post); by rewrite !lookup_app_l by lia.
Qed.

Lemma swap_delete_at (n : list A) i x :
  n !! i = Some x →
  ∃ pre post, n = pre ++ x :: post ∧ length pre = i
              ∧ swap_delete i n ≡ₚ pre ++ post.
Proof.
  intros Hx. apply list_elem_of_split_length in Hx as (pre & post & -> & ->).
  exists pre, post. split_and!; try done. apply swap_delete_Permutation.
Qed.

(** The loop keeps exactly the elements that pass the test, and it is done
    within [length n - i] turns. *)
Lemma prune_spec fuel : ∀ i (n out : list A),
  (length n - i ≤ fuel)%nat →
  (∀ j x, (j < i)%nat → n !! j = Some x → keep x = Ok true) →
  prune keep fuel i n = Ok out →
  ∀ x, x ∈ out ↔ x ∈ n ∧ keep x = Ok true.
Proof.
  induction fuel as [|fuel IH]; intros i n out Hfuel Hinv; simpl.
  - intros [= <-] x. split; [|by intros [? _]].
    intros Hx. split; [done|].
    apply list_elem_of_lookup in Hx as [j Hj].
    apply (Hinv j); [|done]. apply lookup_lt_Some in Hj. lia.
  - destruct (n !! i) as [y|] eqn:Hy.
    + destruct (keep y) as [[|]|msg] eqn:Hk; simpl; [| |done].
      * intros Hout. apply (IH (S i) n out); [lia| |done].
        intros j x Hj Hjx. destruct (decide (j = i)) as [->|Hne].
        -- congruence.
        -- apply (Hinv j); [lia|done].
      * intros Hout.
        destruct (swap_delete_at n i y Hy) as (pre & post & Hn & Hlen & Hperm).
        assert (i < length n)%nat as Hi by (by eapply lookup_lt_Some).
        assert (length (swap_delete i n) = (length n - 1)%nat) as Hlen'.
        { rewrite Hperm, Hn, !length_app. simpl. lia. }
        intros x. rewrite (IH i (swap_delete i n) out); [|lia| |done].
        -- rewrite Hperm, Hn. rewrite !elem_of_app, elem_of_cons.
           split; [tauto|]. intros [[?|[->|?]] Hkx]; [tauto| |tauto].
           congruence.
        -- intros j x' Hj Hjx. apply (Hinv j); [done|].
           by rewrite swap_delete_lookup_lt in Hjx.
    + intros [= <-] x. split; [|by intros [? _]].
      intros Hx. split; [done|].
      apply list_elem_of_lookup in Hx as [j Hj].
      apply (Hinv j); [|done]. apply lookup_lt_Some in Hj.
      apply lookup_ge_None in Hy. lia.
Qed.

(** The loop returns when the test does. *)
Lemma prune_total fuel : ∀ i (n : list A),
  (∀ x, x ∈ n → ∃ b, keep x = Ok b) →
  ∃ out, prune keep fuel i n = Ok out.
Proof.
  induction fuel as [|fuel IH]; intros i n Hok; simpl; [by eexists|].
  destruct (n !! i) as [y|] eqn:Hy; [|by eexists].
  destruct (Hok y) as [b Hb]; [by eapply list_elem_of_lookup_2|].
  rewrite Hb. simpl. destruct b.
  - by apply IH.
  - apply IH. intros x Hx. apply Hok.
    destruct (swap_delete_at n i y Hy) as (pre & post & Hn & _ & Hperm).
    rewrite Hperm in Hx. rewrite Hn.
    apply elem_of_app in Hx as [?|?]; apply elem_of_app;
      [by left | right; by right].
Qed.

End PruneFacts.

Section InduceFacts.

Implicit Types (st : State) (i : nodeInducedGraph).

Lemma is_selected_true i id :
  is_selected i id = true ↔ selected i !! id = Some true.
Proof.
  unfold is_selected. destruct (selected i !! id) as [[|]|]; simpl;
    split; congruence.
Qed.

Lemma Induce_loop st (by_ : list NodePtr) : ∀ (m0 m : gmap Z bool),
  foldM (λ (m : gmap Z bool) n, id ← ID st n; Ok (<[id := true]> m))
        m0 by_ = Ok m →
  ∀ id, m !! id = Some true ↔ m0 !! id = Some true ∨ selection st by_ id.
Proof.
  induction by_ as [|n by_ IH]; intros m0 m; simpl.
  - intros [= <-] id. split; [by left|]. intros [?|(n & Hn & _)]; [done|].
    by apply elem_of_nil in Hn.
  - destruct (ID st n) as [idn|] eqn:Hidn; simpl; [|done].
    intros Hm id. rewrite (IH _ _ Hm id). rewrite lookup_insert.
    unfold selection. split.
    + intros [Hl|(n' & Hn' & Hid)].
      * case_decide as Hd; [|by left]. subst. right. exists n.
        split; [by left|done].
      * right. exists n'. split; [by right|done].
    + intros [Hl|(n' & Hn' & Hid)].
      * left. case_decide; [done|done].
      * apply elem_of_cons in Hn' as [->|Hn'].
        -- left. rewrite Hidn in Hid. injection Hid as ->.
           by rewrite decide_True.
        -- right. by exists n'.
Qed.

(** The map built by [Induce] marks the IDs of the given nodes and no
    other. *)
Lemma Induce_selection st by_ i :
  Induce st by_ = Ok i →
  ∀ id, is_selected i id = true ↔ selection st by_ id.
Proof.
  unfold Induce. intros H id.
  destruct (foldM _ ∅ by_) as [m|] eqn:Hm; simpl in H; [|done].
  injection H as <-. rewrite is_selected_true. simpl.
  rewrite (Induce_loop st by_ ∅ m Hm id), lookup_empty.
  split; [by intros [?|?] | by right].
Qed.

Lemma Edges_elem st e :
  e ∈ Edges st →
  ∃ u v, simple.edges (UndirectedGraph (graph st)) !! (u, v) = Some e.
Proof.
  unfold Edges, simple.Edges. rewrite list_elem_of_fmap.
  intros ([[u v] e'] & -> & H%elem_of_map_to_list).
  apply map_lookup_filter_Some in H as [H _]. by exists u, v.
Qed.

End InduceFacts.

(** C4. For an induced subgraph over the selection given to [Induce]:
    node enumeration returns, and every node it returns has its ID in the
    selection; edge enumeration returns, and every edge it returns has both
    end IDs in the selection; the lookup by ID returns a node only for an
    ID in the selection, and nothing for any other ID. Nodes and edges of
    the graph that qualify are all returned. *)
Theorem Induced_selected_only (st : State) (by_ : list NodePtr)
    (i : nodeInducedGraph) :
  wf st → Induce st by_ = Ok i →
  (∃ ns, Induced.Nodes i st = Ok ns
     ∧ ∀ n, n ∈ ns ↔
            n ∈ Nodes st ∧ ∃ id, ID st n = Ok id ∧ selection st by_ id)
  ∧ (∃ es, Induced.Edges i st = Ok es
       ∧ ∀ e, e ∈ es ↔
              e ∈ Edges st
              ∧ ∃ fid tid, From_ID st e = Ok fid ∧ To_ID st e = Ok tid
                           ∧ selection st by_ fid ∧ selection st by_ tid)
  ∧ (∀ id n, Induced.Node i st id = Some n →
             selection st by_ id ∧ ID st n = Ok id ∧ Node_by_ID st id = Some n)
  ∧ (∀ id, ¬ selection st by_ id → Induced.Node i st id = None).
Proof.
  intros Hwf Hi. pose proof (Induce_selection st by_ i Hi) as Hsel.
  split_and!.
  - unfold Induced.Nodes.
    set (keep := λ p : NodePtr, id ← ID st p; Ok (is_selected i id)).
    destruct (prune_total keep (length (Nodes st)) 0 (Nodes st)) as [ns Hns].
    { intros n (id & Hid)%Nodes_elem. apply (wf_nodes _ Hwf) in Hid.
      unfold keep. rewrite Hid. by eexists. }
    exists ns. split; [done|]. intros n.
    rewrite (prune_spec keep (length (Nodes st)) 0 (Nodes st) ns);
      [|lia| |done].
    + unfold keep. split.
      * intros [Hn Hk]. split; [done|].
        destruct (ID st n) as [id|] eqn:Hid; simpl in Hk; [|done].
        injection Hk as Hk. exists id. split; [done|]. by apply Hsel.
      * intros [Hn (id & Hid & Hs)]. split; [done|].
        rewrite Hid. simpl. f_equal. by apply Hsel.
    + intros j x Hj. lia.
  - unfold Induced.Edges.
    set (keep := λ p : EdgePtr,
           fid ← From_ID st p;
           if negb (is_selected i fid) then Ok false
           else tid ← To_ID st p; Ok (is_selected i tid)).
    destruct (prune_total keep (length (Edges st)) 0 (Edges st)) as [es Hes].
    { intros e (u & v & He)%Edges_elem.
      destruct (wf_edges _ Hwf u v e He) as [_ [[HF HT]|[HF HT]]];
        unfold keep; rewrite HF; simpl;
        destruct (is_selected i _); simpl; try (by eexists);
        rewrite HT; by eexists. }
    exists es. split; [done|]. intros e.
    rewrite (prune_spec keep (length (Edges st)) 0 (Edges st) es);
      [|lia| |done].
    + unfold keep. split.
      * intros [He Hk]. split; [done|].
        destruct (From_ID st e) as [fid|] eqn:HF; simpl in Hk; [|done].
        destruct (is_selected i fid) eqn:Hsf; simpl in Hk; [|done].
        destruct (To_ID st e) as [tid|] eqn:HT; simpl in Hk; [|done].
        injection Hk as Hk. exists fid, tid.
        split_and!; try done; by apply Hsel.
      * intros [He (fid & tid & HF & HT & Hsf & Hst)]. split; [done|].
        rewrite HF. simpl. apply Hsel in Hsf. apply Hsel in Hst.
        rewrite Hsf. simpl. rewrite HT. simpl. by rewrite Hst.
    + intros j x Hj. lia.
  - intros id n. unfold Induced.Node.
    destruct (is_selected i id) eqn:Hs; simpl; [|done].
    intros Hn. split_and!; [by apply Hsel| |done].
    by apply (wf_nodes _ Hwf).
  - intros id Hns. unfold Induced.Node.
    destruct (is_selected i id) eqn:Hs; simpl; [|done].
    exfalso. by apply Hns, Hsel.
Qed.

Lemma sample_st3_wf : wf sample_st3.
Proof.
  destruct (NewEdge_new sample_st2r sample_a sample_b 0 1 sample_st2r_wf)
    as (e & st' & Heq & Hwf & _); try reflexivity; try discriminate.
  unfold sample_st3. by rewrite Heq.
Qed.

Lemma Induced_selected_only_witness :
  (∃ ns, Induced.Nodes sample_induced sample_st3 = Ok ns
     ∧ ∀ n, n ∈ ns ↔
            n ∈ Nodes sample_st3
            ∧ ∃ id, ID sample_st3 n = Ok id
                    ∧ selection sample_st3 [sample_a] id)
  ∧ Induced.Nodes sample_induced sample_st3 = Ok [sample_a]
  ∧ Induced.Edges sample_induced sample_st3 = Ok []
  ∧ Induced.Node sample_induced sample_st3 1 = None.
Proof.
  split; [|split_and!; reflexivity].
  apply (Induced_selected_only sample_st3 [sample_a] sample_induced).
  - exact sample_st3_wf.
  - reflexivity.
Defined.

(** ** Numerals, joins and splits *)

Section StringFacts.

Implicit Types (s d : string) (i : Z).

Lemma append_nil_r s : s +:+ "" = s.
Proof.
  induction s as [|c s IH]; [done|].
  change (String c (s +:+ "") = String c s). by f_equal.
Qed.

Lemma append_assoc s d e : (s +:+ d) +:+ e = s +:+ (d +:+ e).
Proof.
  induction s as [|c s IH]; [done|].
  change (String c ((s +:+ d) +:+ e) = String c (s +:+ (d +:+ e))).
  by f_equal.
Qed.

Lemma Split_nonempty s : (1 ≤ length (Split s ","))%nat.
Proof.
  induction s as [|c s IH]; simpl; [lia|].
  destruct (Ascii.eqb c ","); simpl; [lia|].
  destruct (Split s ","); simpl in *; lia.
Qed.

Lemma Split_cons_other c s :
  c ≠ ","%char → length (Split (String c s) ",") = length (Split s ",").
Proof.
  intros Hc. simpl. rewrite (proj2 (Ascii.eqb_neq c ",")) by done.
  pose proof (Split_nonempty s). destruct (Split s ","); simpl in *; lia.
Qed.

Lemma Split_comma_free_app d s :
  comma_free d → length (Split (d +:+ s) ",") = length (Split s ",").
Proof.
  induction d as [|c d IH]; simpl; [done|]. intros [Hc Hd].
  change (length (Split (String c (d +:+ s)) ",") = length (Split s ",")).
  rewrite Split_cons_other by done. auto.
Qed.

Lemma Split_comma_free d : comma_free d → length (Split d ",") = 1%nat.
Proof.
  intros Hd. rewrite <- (append_nil_r d) at 1.
  by rewrite Split_comma_free_app.
Qed.

(** The pieces of [a,b] are the pieces of [a] and the pieces of [b]. *)
Lemma Split_app_comma s d :
  length (Split (s +:+ "," +:+ d) ",")
  = (length (Split s ",") + length (Split d ","))%nat.
Proof.
  induction s as [|c s IH].
  - reflexivity.
  - change (String c s +:+ "," +:+ d) with (String c (s +:+ "," +:+ d)).
    destruct (decide (c = ","%char)) as [->|Hc].
    + simpl. simpl in IH. rewrite IH. done.
    + rewrite !Split_cons_other by done. exact IH.
Qed.

Lemma pretty_N_char_not_comma (x : N) : pretty_N_char x ≠ ","%char.
Proof. unfold pretty_N_char. by repeat case_match. Qed.

(** A decimal numeral is a non-empty run of digits put in front. *)
Lemma pretty_N_go_shape (x : N) : ∀ s,
  ∃ d, pretty_N_go x s = d +:+ s ∧ comma_free d ∧ ((0 < x)%N → d ≠ "").
Proof.
  induction (N.lt_wf_0 x) as [x _ IH]. intros s.
  destruct (decide (0 < x)%N) as [Hx|Hx].
  - rewrite pretty_N_go_step by done.
    destruct (IH (x `div` 10)%N (N.div_lt x 10 Hx eq_refl)
                (String (pretty_N_char (x `mod` 10)) s))
      as (d & -> & Hd & _).
    exists (d +:+ String (pretty_N_char (x `mod` 10)) "").
    split_and!.
    + by rewrite append_assoc.
    + clear -Hd. induction d as [|c d IHd]; simpl.
      * split; [apply pretty_N_char_not_comma | done].
      * destruct Hd. split; [done|auto].
    + intros _. by destruct d.
  - assert (x = 0%N) as -> by lia. exists "". rewrite pretty_N_go_0.
    split_and!; [done|done|lia].
Qed.

Lemma Sprint_shape i : comma_free (Sprint i) ∧ Sprint i ≠ "".
Proof.
  unfold Sprint, pretty, pretty_Z.
  assert (∀ p, comma_free (pretty (Npos p)) ∧ pretty (Npos p) ≠ "") as Hp.
  { intros p. unfold pretty, pretty_N. rewrite decide_False by done.
    destruct (pretty_N_go_shape (Npos p) "") as (d & -> & Hd & Hne).
    rewrite append_nil_r. split; [done|]. apply Hne. lia. }
  destruct i as [|p|p].
  - split; [|done]. simpl. split; [|done]. discriminate.
  - simpl. apply Hp.
  - simpl. destruct (Hp p) as [H1 H2]. split; [|done].
    split; [discriminate | done].
Qed.

Lemma Sprint_nonempty i : Sprint i ≠ "".
Proof. apply Sprint_shape. Qed.

Lemma Join_snoc (ls : list string) s :
  ls ≠ [] → Join (ls ++ [s]) = Join ls +:+ "," +:+ s.
Proof.
  induction ls as [|x ls IH]; [done|]. intros _.
  destruct ls as [|y ls].
  - reflexivity.
  - change (Join ((x :: y :: ls) ++ [s]))
      with (x +:+ "," +:+ Join ((y :: ls) ++ [s])).
    rewrite IH by done.
    change (Join (x :: y :: ls)) with (x +:+ "," +:+ Join (y :: ls)).
    by rewrite !append_assoc.
Qed.

(** Splitting a join of numerals gives back as many pieces. *)
Lemma Split_Join_Sprint (ls : list Z) :
  ls ≠ [] → length (Split (Join (Sprint <$> ls)) ",") = length ls.
Proof.
  induction ls as [|i ls IH]; [done|]. intros _.
  destruct ls as [|j ls].
  - simpl. apply Split_comma_free, Sprint_shape.
  - change (Join (Sprint <$> i :: j :: ls))
      with (Sprint i +:+ "," +:+ Join (Sprint <$> j :: ls)).
    rewrite Split_app_comma, IH by done.
    rewrite Split_comma_free by apply Sprint_shape. done.
Qed.

End StringFacts.

(** ** Clique labelling, one bag at a time *)

Section CliqueBagFacts.

Implicit Types (a pre post : Attributes) (i : Z) (ls : list Z) (k v : string).

Lemma extend_None i a : extend i a = None ↔ "clique" ∉ keys a.
Proof.
  induction a as [|x a IH]; simpl.
  - split; [intros _; apply not_elem_of_nil | done].
  - rewrite eqb_key, not_elem_of_cons. case_bool_decide as Hk.
    + split; [done | intros [? _]; congruence].
    + rewrite fmap_None, IH. intuition congruence.
Qed.

Lemma extend_split i pre x post :
  Key x = "clique" → "clique" ∉ keys pre →
  extend i (pre ++ x :: post)
  = Some (pre ++ mkAttr "clique" (Value x +:+ "," +:+ Sprint i) :: post).
Proof.
  intros Hx. induction pre as [|y pre IH]; simpl.
  - intros _. by rewrite Hx.
  - rewrite not_elem_of_cons, eqb_key. intros [Hy Hpre].
    rewrite bool_decide_eq_false_2 by congruence. by rewrite IH.
Qed.

Lemma keys_app a b : keys (a ++ b) = keys a ++ keys b.
Proof. unfold keys. apply fmap_app. Qed.

(** *** On a bag no run has touched *)

Lemma visit_untouched i a :
  untouched a →
  visit i a = a ++ [mkAttr "clique" (Sprint i); mkAttr "clique_count" ""].
Proof.
  intros [Hk Hc]. unfold visit.
  rewrite (Get_absent a "clique_count") by done. simpl.
  rewrite (proj2 (extend_None i a)) by done.
  unfold Set_. rewrite (SetAttribute_absent a) by done.
  rewrite SetAttribute_absent.
  - by rewrite <- app_assoc.
  - simpl. rewrite keys_app. intros [?|H]%elem_of_app; [done|].
    apply list_elem_of_singleton in H. discriminate.
Qed.

Lemma visit_labelled i pre v :
  untouched pre →
  visit i (pre ++ [mkAttr "clique" v; mkAttr "clique_count" ""])
  = pre ++ [mkAttr "clique" (v +:+ "," +:+ Sprint i);
            mkAttr "clique_count" ""].
Proof.
  intros [Hk Hc]. unfold visit.
  rewrite Get_app_absent by done. simpl.
  by rewrite extend_split.
Qed.

Lemma apply_labels_snoc body ls i a :
  apply_labels body (ls ++ [i]) a = body i (apply_labels body ls a).
Proof. unfold apply_labels. by rewrite foldl_app. Qed.

Lemma apply_labels_app body ls ls' a :
  apply_labels body (ls ++ ls') a
  = apply_labels body ls' (apply_labels body ls a).
Proof. unfold apply_labels. by rewrite foldl_app. Qed.

(** The member body run for the labels [ls] writes their join. *)
Lemma visits_untouched ls a :
  untouched a → ls ≠ [] →
  apply_labels visit ls a
  = a ++ [mkAttr "clique" (Join (Sprint <$> ls)); mkAttr "clique_count" ""].
Proof.
  intros Ha. induction ls as [|i ls IH] using rev_ind; [done|]. intros _.
  rewrite apply_labels_snoc. destruct ls as [|j ls].
  - simpl. by apply visit_untouched.
  - rewrite IH by done. rewrite visit_labelled by done.
    rewrite fmap_app. simpl (Sprint <$> [i]).
    by rewrite Join_snoc.
Qed.

Lemma count_labels_absent a : "clique" ∉ keys a → count_labels a = a.
Proof.
  intros H. unfold count_labels.
  by rewrite (proj2 (lookup_attr_None a "clique")).
Qed.

Lemma count_labels_labelled pre v :
  untouched pre →
  count_labels (pre ++ [mkAttr "clique" v; mkAttr "clique_count" ""])
  = pre ++ [mkAttr "clique" v;
            mkAttr "clique_count"
              (Sprint (Z.of_nat (length (Split v ","))))].
Proof.
  intros [Hk Hc]. unfold count_labels.
  assert (lookup_attr (pre ++ [mkAttr "clique" v; mkAttr "clique_count" ""])
            "clique" = Some v) as ->.
  { rewrite lookup_attr_present.
    - rewrite Get_app_absent by done. done.
    - rewrite keys_app. apply elem_of_app. right. by left. }
  unfold Set_.
  change (pre ++ [mkAttr "clique" v; mkAttr "clique_count" ""])
    with (pre ++ [mkAttr "clique" v] ++ mkAttr "clique_count" "" :: []).
  rewrite app_assoc.
  rewrite SetAttribute_overwrite; simpl.
  - by rewrite <- app_assoc.
  - done.
  - rewrite keys_app. intros [?|H]%elem_of_app; [done|].
    apply list_elem_of_singleton in H. discriminate.
  - apply Sprint_nonempty.
Qed.

(** The whole run on one untouched bag. *)
Lemma run_untouched ls a :
  untouched a →
  count_labels (apply_labels visit ls a) = labelled_with ls a.
Proof.
  intros Ha. unfold labelled_with. destruct ls as [|i ls].
  - simpl. apply count_labels_absent, Ha.
  - rewrite visits_untouched by done.
    rewrite count_labels_labelled by done.
    by rewrite Split_Join_Sprint.
Qed.

(** *** On a bag with distinct keys *)

Lemma keys_SetAttribute_other a kv k :
  k ≠ Key kv → k ∈ keys (SetAttribute a kv) ↔ k ∈ keys a.
Proof.
  intros Hne. destruct (decide (Key kv ∈ keys a)) as [Hin|Hout].
  - destruct (present_split _ _ Hin) as (pre & x & post & -> & Hx & Hpre).
    destruct (decide (Value kv = "")) as [Hv|Hv].
    + rewrite SetAttribute_delete by done. unfold keys.
      rewrite swap_delete_Permutation. rewrite !fmap_app, fmap_cons.
      rewrite !elem_of_app, elem_of_cons. intuition congruence.
    + rewrite SetAttribute_overwrite by done.
      by rewrite !keys_app.
  - rewrite SetAttribute_absent by done. rewrite keys_app, elem_of_app.
    simpl. rewrite list_elem_of_singleton. intuition congruence.
Qed.

Lemma keys_SetAttribute_nonempty a kv :
  Value kv ≠ "" → Key kv ∈ keys (SetAttribute a kv).
Proof.
  intros Hv. destruct (decide (Key kv ∈ keys a)) as [Hin|Hout].
  - destruct (present_split _ _ Hin) as (pre & x & post & -> & Hx & Hpre).
    rewrite SetAttribute_overwrite by done.
    rewrite keys_app, elem_of_app. right. simpl. rewrite Hx. by left.
  - rewrite SetAttribute_absent by done. rewrite keys_app, elem_of_app.
    right. by left.
Qed.

Lemma extend_Some i a a' :
  extend i a = Some a' →
  keys a' = keys a
  ∧ Get a' "clique" = Get a "clique" +:+ "," +:+ Sprint i
  ∧ ∀ k, k ≠ "clique" → Get a' k = Get a k.
Proof.
  intros H.
  assert ("clique" ∈ keys a) as Hin.
  { destruct (decide ("clique" ∈ keys a)) as [|Hn]; [done|].
    apply (extend_None i) in Hn. congruence. }
  destruct (present_split _ _ Hin) as (pre & x & post & -> & Hx & Hpre).
  rewrite extend_split in H by done. injection H as <-.
  split_and!.
  - rewrite !keys_app. simpl. by rewrite Hx.
  - rewrite !Get_app_absent by done. simpl. by rewrite Hx.
  - intros k Hk. destruct (decide (k ∈ keys pre)).
    + by rewrite !Get_app_present.
    + rewrite !Get_app_absent by done. rewrite !Get_cons. simpl (Key _).
      rewrite Hx. by rewrite !bool_decide_eq_false_2.
Qed.

(** The member body keeps the keys distinct. *)
Lemma visit_NoDup i a : NoDup (keys a) → NoDup (keys (visit i a)).
Proof.
  intros Hnd. unfold visit.
  destruct (String.eqb (Get a "clique_count") "");
    [destruct (extend i a) as [a'|] eqn:He|].
  - apply extend_Some in He as (-> & _). done.
  - unfold Set_. by do 2 apply SetAttribute_NoDup.
  - unfold Set_. by do 2 apply SetAttribute_NoDup.
Qed.

(** The first visit of a run on a settled bag starts the list afresh. *)
Lemma visit_settled i a : settled a → started [i] (visit i a).
Proof.
  intros [Hnd Hset].
  assert (visit i a
          = Set_ (Set_ a "clique" (Sprint i)) "clique_count" "") as ->.
  { unfold visit. destruct (String.eqb_spec (Get a "clique_count") "") as [He|He];
      [|done].
    rewrite (proj2 (extend_None i a)); [done|]. intros Hin. by apply Hset. }
  unfold Set_.
  pose proof (SetAttribute_NoDup a (mkAttr "clique" (Sprint i)) Hnd) as Hnd1.
  split_and!.
  - by apply SetAttribute_NoDup.
  - apply keys_SetAttribute_other; [done|].
    apply (keys_SetAttribute_nonempty a (mkAttr "clique" (Sprint i))).
    apply Sprint_nonempty.
  - rewrite Get_SetAttribute_other by done.
    apply (Get_SetAttribute_nonempty a (mkAttr "clique" (Sprint i))).
    apply Sprint_nonempty.
  - apply Get_SetAttribute_empty. by apply NoDup_occurrences.
Qed.

(** Later visits of the run extend the list. *)
Lemma visit_started i ls a :
  ls ≠ [] → started ls a → started (ls ++ [i]) (visit i a).
Proof.
  intros Hls (Hnd & Hin & Hk & Hc). unfold visit. rewrite Hc. simpl.
  destruct (extend i a) as [a'|] eqn:He.
  - apply extend_Some in He as (Hkeys & Hget & Hother).
    unfold started. rewrite Hkeys, Hget, Hk, (Hother "clique_count") by done.
    split_and!; try done.
    rewrite fmap_app. simpl. by rewrite Join_snoc by by destruct ls.
  - apply extend_None in He. done.
Qed.

Lemma visits_settled ls a :
  settled a → ls ≠ [] → started ls (apply_labels visit ls a).
Proof.
  intros Ha. induction ls as [|i ls IH] using rev_ind; [done|]. intros _.
  rewrite apply_labels_snoc. destruct ls as [|j ls].
  - by apply visit_settled.
  - apply visit_started; [done|]. by apply IH.
Qed.

Lemma apply_labels_visit_NoDup ls a :
  NoDup (keys a) → NoDup (keys (apply_labels visit ls a)).
Proof.
  induction ls as [|i ls IH] using rev_ind; [done|]. intros Hnd.
  rewrite apply_labels_snoc. apply visit_NoDup. auto.
Qed.

(** The closing body settles every bag with distinct keys, and leaves the
    value of ["clique"] as it is. *)
Lemma count_labels_settles a :
  NoDup (keys a) →
  settled (count_labels a)
  ∧ Get (count_labels a) "clique" = Get a "clique"
  ∧ ("clique" ∈ keys (count_labels a) ↔ "clique" ∈ keys a)
  ∧ ("clique" ∈ keys a →
     Get (count_labels a) "clique_count"
     = Sprint (Z.of_nat (length (Split (Get a "clique") ",")))).
Proof.
  intros Hnd. unfold count_labels, settled.
  destruct (lookup_attr a "clique") as [v|] eqn:Hv.
  - assert ("clique" ∈ keys a) as Hin.
    { destruct (decide ("clique" ∈ keys a)); [done|].
      apply lookup_attr_None in n. congruence. }
    apply lookup_attr_Get in Hv. unfold Set_.
    set (kv := mkAttr "clique_count" (Sprint (Z.of_nat (length (Split v ","))))).
    pose proof (Get_SetAttribute_nonempty a kv (Sprint_nonempty _)) as Hget.
    split_and!.
    + by apply SetAttribute_NoDup.
    + intros _. simpl in Hget. rewrite Hget. apply Sprint_nonempty.
    + by apply Get_SetAttribute_other.
    + by apply keys_SetAttribute_other.
    + intros _. simpl in Hget. by rewrite Hget, Hv.
  - apply lookup_attr_None in Hv. split_and!; try done.
Qed.

(** The whole run on one settled bag. *)
Lemma run_settled ls a :
  settled a → ls ≠ [] →
  Get (count_labels (apply_labels visit ls a)) "clique"
  = Join (Sprint <$> ls)
  ∧ Get (count_labels (apply_labels visit ls a)) "clique_count"
    = Sprint (Z.of_nat (length ls))
  ∧ settled (count_labels (apply_labels visit ls a)).
Proof.
  intros Ha Hls.
  destruct (visits_settled ls a Ha Hls) as (Hnd & Hin & Hk & Hc).
  destruct (count_labels_settles _ Hnd) as (Hs & Hk' & _ & Hc').
  split_and!; try done.
  - by rewrite Hk'.
  - rewrite Hc' by done. by rewrite Hk, Split_Join_Sprint.
Qed.

(** Any run leaves a bag with distinct keys settled. *)
Lemma run_settles ls a :
  NoDup (keys a) → settled (count_labels (apply_labels visit ls a)).
Proof.
  intros Hnd. apply count_labels_settles. by apply apply_labels_visit_NoDup.
Qed.

End CliqueBagFacts.

(** ** Clique labelling, on the state *)

Section CliqueStateFacts.

Implicit Types (st : State) (nodes : gmap Z NodePtr) (p q : NodePtr).

Lemma set_attrs_ext f f' (o : option Node) :
  (∀ a, f a = f' a) → set_attrs f <$> o = set_attrs f' <$> o.
Proof. intros H. destruct o as [o|]; simpl; [|done]. unfold set_attrs. by rewrite H. Qed.

Lemma set_attrs_id (o : option Node) : set_attrs (λ a, a) <$> o = o.
Proof. by destruct o as [[]|]. Qed.

Lemma set_attrs_fmap f f' (o : option Node) :
  set_attrs f' <$> (set_attrs f <$> o) = set_attrs (λ a, f' (f a)) <$> o.
Proof. by destruct o as [[]|]. Qed.

Lemma update_attrs_lookup f p st q :
  nodeObjs (update_attrs f p st) !! q
  = if decide (q = p) then set_attrs f <$> nodeObjs st !! q
    else nodeObjs st !! q.
Proof.
  unfold update_attrs. simpl. case_decide as Hq.
  - subst. apply lookup_alter_eq.
  - by apply lookup_alter_ne.
Qed.

Lemma hits_cons nodes q id c :
  hits nodes q (id :: c)
  = ((if decide (nodes !! id = Some q) then 1 else 0) + hits nodes q c)%nat.
Proof. unfold hits. rewrite filter_cons. by case_decide. Qed.

(** The inner loop: every member is visited once per listing. *)
Lemma visit_members_spec body i nodes (c : list Z) : ∀ st,
  Forall (λ id, ∃ p, nodes !! id = Some p ∧ is_Some (nodeObjs st !! p)) c →
  ∃ st',
    foldM (visit_member (body i) nodes) st c = Ok st'
    ∧ graph st' = graph st ∧ edgeObjs st' = edgeObjs st
    ∧ ∀ q, nodeObjs st' !! q
           = set_attrs (apply_labels body (replicate (hits nodes q c) i))
               <$> nodeObjs st !! q.
Proof.
  induction c as [|id c IH]; intros st Hc; simpl.
  - exists st. split_and!; try done. intros q. by rewrite set_attrs_id.
  - apply Forall_cons in Hc as [(p & Hp & [o Ho]) Hc].
    assert (visit_member (body i) nodes st id
            = Ok (update_attrs (body i) p st)) as ->.
    { unfold visit_member. by rewrite Hp, Ho. }
    simpl.
    destruct (IH (update_attrs (body i) p st)) as (st' & Hrun & Hg & He & Hq).
    { eapply Forall_impl; [exact Hc|]. intros id' (p' & Hp' & [o' Ho']).
      exists p'. split; [done|]. rewrite update_attrs_lookup.
      case_decide; rewrite Ho'; by eexists. }
    exists st'. split_and!; try done. intros q.
    rewrite Hq, update_attrs_lookup, hits_cons, Hp.
    destruct (decide (q = p)) as [->|Hne].
    + rewrite decide_True by done. rewrite set_attrs_fmap. done.
    + rewrite decide_False by congruence. done.
Qed.

Lemma survivors_cons k c mc :
  survivors k (c :: mc)
  = if decide (k ≤ Z.of_nat (length c)) then c :: survivors k mc
    else survivors k mc.
Proof. unfold survivors. by rewrite filter_cons. Qed.

(** The labelling loop: every node receives, in order, the labels of the
    surviving cliques that list it. *)
Lemma label_cliques_spec body nodes k (mc : list (list Z)) : ∀ i st,
  (∀ id p, nodes !! id = Some p → is_Some (nodeObjs st !! p)) →
  members_known nodes mc →
  ∃ st',
    label_cliques body nodes k mc i st = Ok st'
    ∧ graph st' = graph st ∧ edgeObjs st' = edgeObjs st
    ∧ ∀ q, nodeObjs st' !! q
           = set_attrs (apply_labels body
                          (labels_from (hits nodes q) i (survivors k mc)))
               <$> nodeObjs st !! q.
Proof.
  induction mc as [|c mc IH]; intros i st Halloc Hmc; simpl.
  - exists st. split_and!; try done. intros q. by rewrite set_attrs_id.
  - apply Forall_cons in Hmc as [Hc Hmc]. rewrite survivors_cons.
    destruct (Z.ltb_spec (Z.of_nat (length c)) k) as [Hlt|Hge].
    + rewrite decide_False by lia. by apply IH.
    + rewrite decide_True by lia.
      destruct (visit_members_spec body i nodes c st)
        as (st1 & Hrun1 & Hg1 & He1 & Hq1).
      { eapply Forall_impl; [exact Hc|]. intros id [p Hp].
        exists p. split; [done|]. by eapply Halloc. }
      rewrite Hrun1. simpl.
      destruct (IH (i + 1) st1) as (st' & Hrun & Hg & He & Hq); [|done|].
      { intros id p Hp. rewrite Hq1.
        destruct (Halloc id p Hp) as [o ->]. by eexists. }
      exists st'. split_and!; try congruence. intros q.
      rewrite Hq, Hq1, set_attrs_fmap. apply set_attrs_ext. intros a.
      simpl. by rewrite apply_labels_app.
Qed.

(** The closing loop touches each node of the map once. *)
Lemma count_all_spec fin (ps : list NodePtr) st :
  NoDup ps →
  graph (foldr (update_attrs fin) st ps) = graph st
  ∧ edgeObjs (foldr (update_attrs fin) st ps) = edgeObjs st
  ∧ ∀ q, nodeObjs (foldr (update_attrs fin) st ps) !! q
         = if decide (q ∈ ps) then set_attrs fin <$> nodeObjs st !! q
           else nodeObjs st !! q.
Proof.
  induction ps as [|p ps IH]; cbn [foldr].
  - intros _. split_and!; try done.
  - intros [Hp Hps]%NoDup_cons. destruct (IH Hps) as (Hg & He & Hq).
    split_and!; try done. intros q. rewrite update_attrs_lookup, Hq.
    destruct (decide (q = p)) as [->|Hne].
    + rewrite decide_False by done. rewrite decide_True by by left. done.
    + destruct (decide (q ∈ ps)) as [Hin|Hout].
      * rewrite decide_True by by right. done.
      * rewrite decide_False; [done|].
        intros [?|?]%elem_of_cons; done.
Qed.

(** [NodeMap] of a well-formed state is the node map of the graph. *)
Lemma NodeMap_loop st (l : list (Z * NodePtr)) : ∀ (m0 : gmap Z NodePtr),
  (∀ id n, (id, n) ∈ l → ID st n = Ok id) →
  foldM (λ (m : gmap Z NodePtr) n, id ← ID st n; Ok (<[id := n]> m))
        m0 (l.*2)
  = Ok (foldl (λ m kv, <[kv.1 := kv.2]> m) m0 l).
Proof.
  induction l as [|[id n] l IH]; intros m0 Hl; simpl; [done|].
  rewrite (Hl id n) by by left. simpl. apply IH.
  intros id' n' Hin. apply Hl. by right.
Qed.

Lemma foldl_insert_lookup (l : list (Z * NodePtr)) : ∀ (m0 : gmap Z NodePtr) k,
  NoDup (l.*1) →
  foldl (λ m kv, <[kv.1 := kv.2]> m) m0 l !! k
  = match (list_to_map l : gmap Z NodePtr) !! k with
    | Some v => Some v
    | None => m0 !! k
    end.
Proof.
  induction l as [|[k' v'] l IH]; intros m0 k; simpl.
  - intros _. by rewrite lookup_empty.
  - intros [Hk' Hnd]%NoDup_cons. rewrite IH by done.
    rewrite !lookup_insert. case_decide as Hd.
    + subst. apply not_elem_of_list_to_map_1 in Hk'. by rewrite Hk'.
    + done.
Qed.

Lemma NodeMap_wf st :
  wf st → NodeMap st = Ok (simple.nodes (UndirectedGraph (graph st))).
Proof.
  intros Hwf. unfold NodeMap, Nodes, simple.Nodes.
  rewrite NodeMap_loop.
  - f_equal. apply map_eq. intros k.
    rewrite foldl_insert_lookup by apply NoDup_fst_map_to_list.
    rewrite list_to_map_to_list, lookup_empty.
    by destruct (simple.nodes (UndirectedGraph (graph st)) !! k).
  - intros id n Hin%elem_of_map_to_list. by apply (wf_nodes _ Hwf).
Qed.

Lemma Nodes_NoDup st : wf st → NoDup (Nodes st).
Proof.
  intros Hwf. unfold Nodes, simple.Nodes.
  apply NoDup_fmap_2_strong; [|apply NoDup_map_to_list].
  intros [id n] [id' n'] H1%elem_of_map_to_list H2%elem_of_map_to_list.
  simpl. intros <-. f_equal.
  apply (wf_nodes _ Hwf) in H1, H2. congruence.
Qed.

Lemma labels_from_ext count count' i cs :
  (∀ c, count c = count' c) →
  labels_from count i cs = labels_from count' i cs.
Proof.
  intros H. revert i. induction cs as [|c cs IH]; intros i; simpl; [done|].
  by rewrite H, IH.
Qed.

Lemma labels_from_none count i cs :
  (∀ c, count c = 0%nat) → labels_from count i cs = [].
Proof.
  intros H. revert i. induction cs as [|c cs IH]; intros i; simpl; [done|].
  by rewrite H, IH.
Qed.

Lemma hits_registered st id n c :
  wf st → Node_by_ID st id = Some n →
  hits (simple.nodes (UndirectedGraph (graph st))) n c = memberships id c.
Proof.
  intros Hwf Hn. unfold hits, memberships. f_equal.
  apply list_filter_iff. intros x. split.
  - intros Hx. apply (wf_nodes _ Hwf) in Hx, Hn. congruence.
  - by intros ->.
Qed.

Lemma hits_unregistered st q c :
  q ∉ Nodes st →
  hits (simple.nodes (UndirectedGraph (graph st))) q c = 0%nat.
Proof.
  intros Hq. unfold hits. induction c as [|id c IH]; [done|].
  rewrite filter_cons. case_decide as Hid; [|done].
  exfalso. apply Hq, Nodes_elem. by exists id.
Qed.

End CliqueStateFacts.

Section CliqueRunFacts.

Implicit Types (st : State) (p q n : NodePtr).

(** Rewriting attributes keeps a state well formed. *)
Lemma wf_set_attrs st st' :
  graph st' = graph st → edgeObjs st' = edgeObjs st →
  (∀ q, ∃ f, nodeObjs st' !! q = set_attrs f <$> nodeObjs st !! q) →
  wf st → wf st' ∧ ∀ q, ID st' q = ID st q.
Proof.
  intros Hg He Hq Hwf.
  assert (∀ q, ID st' q = ID st q) as HID.
  { intros q. unfold ID. destruct (Hq q) as [f ->].
    by destruct (nodeObjs st !! q). }
  split; [|done]. destruct Hwf as [H1 H2 H3 H4].
  split; rewrite ?Hg; try done.
  - intros id n Hn. rewrite HID. by apply H1.
  - intros u v e Huv.
    assert (From_ID st' e = From_ID st e) as ->.
    { unfold From_ID. rewrite He. by destruct (edgeObjs st !! e). }
    assert (To_ID st' e = To_ID st e) as ->.
    { unfold To_ID. rewrite He. by destruct (edgeObjs st !! e). }
    rewrite He. by apply H4.
Qed.

(** The three steps of [Clique], for any member body and closing body:
    the run returns, and every registered node ends with the closing body
    applied to the member body run over its labels. *)
Lemma run_spec body fin k (mc : list (list Z)) st :
  wf st →
  members_known (simple.nodes (UndirectedGraph (graph st))) mc →
  ∃ st',
    (nodes ← NodeMap st;
     st1 ← label_cliques body nodes k mc 0 st;
     Ok (count_all fin nodes st1)) = Ok st'
    ∧ wf st' ∧ graph st' = graph st ∧ edgeObjs st' = edgeObjs st
    ∧ (∀ id n, Node_by_ID st id = Some n →
         attrs_at st' n
         = fin (apply_labels body (labels_of k mc id) (attrs_at st n)))
    ∧ (∀ q, q ∉ Nodes st → nodeObjs st' !! q = nodeObjs st !! q).
Proof.
  intros Hwf Hmc. rewrite NodeMap_wf by done. simpl.
  set (nodes := simple.nodes (UndirectedGraph (graph st))) in *.
  assert (∀ id p, nodes !! id = Some p → is_Some (nodeObjs st !! p)) as Halloc.
  { intros id p Hp. apply (wf_nodes _ Hwf), ID_Ok in Hp as (o & -> & _).
    by eexists. }
  destruct (label_cliques_spec body nodes k mc 0 st Halloc Hmc)
    as (st1 & Hrun & Hg & He & Hq).
  rewrite Hrun. simpl. eexists. split; [reflexivity|].
  unfold count_all.
  destruct (count_all_spec fin (snd <$> map_to_list nodes) st1)
    as (Hg2 & He2 & Hq2).
  { apply (Nodes_NoDup st Hwf). }
  assert (∀ q, nodeObjs (foldr (update_attrs fin) st1 (map_to_list nodes).*2) !! q
    = set_attrs (λ a,
        (if decide (q ∈ Nodes st) then fin else (λ a, a))
          (apply_labels body (labels_from (hits nodes q) 0 (survivors k mc)) a))
      <$> nodeObjs st !! q) as Hfinal.
  { intros q. rewrite Hq2, Hq.
    change ((map_to_list nodes).*2) with (Nodes st).
    destruct (decide (q ∈ Nodes st)); [|done]. by rewrite set_attrs_fmap. }
  destruct (wf_set_attrs st
              (foldr (update_attrs fin) st1 (map_to_list nodes).*2))
    as [Hwf' HID]; try congruence.
  { intros q. eexists. apply Hfinal. }
  split_and!; try congruence.
  - intros id n Hn. unfold attrs_at. rewrite Hfinal.
    rewrite decide_True by (apply Nodes_elem; by exists id).
    destruct (Halloc id n Hn) as [o ->]. simpl. do 2 f_equal.
    unfold labels_of. apply labels_from_ext. intros c.
    by apply (hits_registered st).
  - intros q Hq'. rewrite Hfinal. rewrite decide_False by done.
    rewrite labels_from_none by (intros c; by apply hits_unregistered).
    apply set_attrs_id.
Qed.

Lemma Clique_spec (BronKerbosch : State → list (list Z)) k st :
  wf st →
  members_known (simple.nodes (UndirectedGraph (graph st))) (BronKerbosch st) →
  ∃ st',
    Clique BronKerbosch k st = Ok st'
    ∧ wf st' ∧ graph st' = graph st ∧ edgeObjs st' = edgeObjs st
    ∧ (∀ id n, Node_by_ID st id = Some n →
         attrs_at st' n
         = count_labels
             (apply_labels visit (labels_of k (BronKerbosch st) id)
                (attrs_at st n)))
    ∧ (∀ q, q ∉ Nodes st → nodeObjs st' !! q = nodeObjs st !! q).
Proof. apply run_spec. Qed.

Lemma Rev1_Clique_spec (BronKerbosch : State → list (list Z)) k st :
  wf st →
  members_known (simple.nodes (UndirectedGraph (graph st))) (BronKerbosch st) →
  ∃ st',
    Rev1.Clique BronKerbosch k st = Ok st'
    ∧ wf st' ∧ graph st' = graph st ∧ edgeObjs st' = edgeObjs st
    ∧ (∀ id n, Node_by_ID st id = Some n →
         attrs_at st' n
         = Rev1.count_labels
             (apply_labels Rev1.visit (labels_of k (BronKerbosch st) id)
                (attrs_at st n)))
    ∧ (∀ q, q ∉ Nodes st → nodeObjs st' !! q = nodeObjs st !! q).
Proof. apply run_spec. Qed.

End CliqueRunFacts.

(** ** Claims about clique labelling *)

Lemma add_node_wf st : wf st → wf (add_node st).
Proof.
  intros Hwf. unfold add_node, NewNode.
  set (id := simple.NewNodeID (UndirectedGraph (graph st))).
  destruct (AddNode_ok (alloc_Node id st).2 (alloc_Node id st).1 id)
    as (st' & Heq & Hwf' & _).
  - by apply alloc_Node_wf.
  - apply alloc_Node_ID_new.
  - apply NewNodeID_unused.
  - by rewrite Heq.
Qed.

Lemma sample_four_wf : wf sample_four.
Proof. unfold sample_four. do 4 apply add_node_wf. apply wf_empty. Qed.

(** The run of the example, computed. *)
Example Clique_example :
  ∃ st', Clique sample_cliques 3 sample_four = Ok st'
    ∧ attrs_at st' 1%positive
      = [mkAttr "clique" "0"; mkAttr "clique_count" "1"]
    ∧ attrs_at st' 2%positive
      = [mkAttr "clique" "0,1"; mkAttr "clique_count" "2"]
    ∧ attrs_at st' 3%positive
      = [mkAttr "clique" "0,1"; mkAttr "clique_count" "2"]
    ∧ attrs_at st' 4%positive
      = [mkAttr "clique" "1"; mkAttr "clique_count" "1"].
Proof. eexists. split; [vm_compute; reflexivity|]. vm_compute. done. Qed.

(** C5. On a graph whose nodes carry neither ["clique"] nor
    ["clique_count"], [Clique] with minimum size [k] returns, and every
    node listed in a surviving clique (one with at least [k] members) ends
    with its attributes followed by ["clique"], the labels of its
    surviving cliques joined by commas, and ["clique_count"], their number;
    the surviving cliques are labelled 0, 1, 2, ... in the order produced
    and smaller cliques give no label. Other nodes are unchanged. *)
Theorem Clique_labels (BronKerbosch : State → list (list Z)) (k : Z)
    (st : State) :
  wf st →
  members_known (simple.nodes (UndirectedGraph (graph st))) (BronKerbosch st) →
  (∀ n, n ∈ Nodes st → untouched (attrs_at st n)) →
  ∃ st',
    Clique BronKerbosch k st = Ok st'
    ∧ graph st' = graph st
    ∧ ∀ id n, Node_by_ID st id = Some n →
        attrs_at st' n
        = labelled_with (labels_of k (BronKerbosch st) id) (attrs_at st n).
Proof.
  intros Hwf Hmc Hfresh.
  destruct (Clique_spec BronKerbosch k st Hwf Hmc)
    as (st' & Hrun & _ & Hg & _ & Hattrs & _).
  exists st'. split_and!; try done. intros id n Hn.
  rewrite (Hattrs id n Hn). apply run_untouched, Hfresh.
  apply Nodes_elem. by exists id.
Qed.

Lemma Clique_labels_witness :
  ∃ st',
    Clique sample_cliques 3 sample_four = Ok st'
    ∧ Get (attrs_at st' 2%positive) "clique" = "0,1"
    ∧ Get (attrs_at st' 2%positive) "clique_count" = "2"
    ∧ Get (attrs_at st' 1%positive) "clique" = "0".
Proof.
  destruct (Clique_labels sample_cliques 3 sample_four sample_four_wf)
    as (st' & Hrun & _ & Hattrs).
  - repeat constructor; by eexists.
  - intros n Hn. vm_compute in Hn.
    repeat (apply elem_of_cons in Hn as [->|Hn]);
      try (split; apply not_elem_of_nil).
    by apply elem_of_nil in Hn.
  - exists st'. split; [exact Hrun|].
    rewrite (Hattrs 1 2%positive eq_refl), (Hattrs 0 1%positive eq_refl).
    vm_compute. done.
Defined.

(** The claim of C8 fails on the example: a second run over the same
    cliques leaves node B with the labels ["0,1"] of that run alone, not
    with the four labels an accumulation would give. *)
Lemma Clique_rerun_same_labels :
  Get (attrs_at (after (Clique sample_cliques 3 sample_four)) 2%positive)
      "clique" = "0,1"
  ∧ (∃ st2, Clique sample_cliques 3
              (after (Clique sample_cliques 3 sample_four)) = Ok st2
       ∧ Get (attrs_at st2 2%positive) "clique" = "0,1"
       ∧ Get (attrs_at st2 2%positive) "clique_count" = "2"
       ∧ Get (attrs_at st2 2%positive) "clique" ≠ "0,1,0,1").
Proof.
  split; [vm_compute; reflexivity|].
  eexists. split; [vm_compute; reflexivity|]. vm_compute. done.
Qed.

(** The earlier revision does accumulate, and appends a second
    ["clique_count"] pair on the way. *)
Example Rev1_Clique_rerun_accumulates :
  ∃ st2, Rev1.Clique sample_cliques 3
           (after (Rev1.Clique sample_cliques 3 sample_four)) = Ok st2
    ∧ attrs_at st2 2%positive
      = [mkAttr "clique" "0,1,0,1"; mkAttr "clique_count" "2";
         mkAttr "clique_count" "4"].
Proof. eexists. split; [vm_compute; reflexivity|]. vm_compute. done. Qed.

(** C8 (as amended). A run of [Clique] on a graph that an earlier run has
    labelled replaces the labels: a node listed in a surviving clique of
    the new run ends with ["clique"] holding the labels of the new run only
    and ["clique_count"] their number; a node listed in none keeps the
    ["clique"] value it had. *)
Theorem Clique_rerun_replaces (BronKerbosch BronKerbosch' : State → list (list Z))
    (k k' : Z) (st st1 : State) :
  wf st →
  (∀ n, n ∈ Nodes st → NoDup (keys (attrs_at st n))) →
  members_known (simple.nodes (UndirectedGraph (graph st))) (BronKerbosch st) →
  Clique BronKerbosch k st = Ok st1 →
  members_known (simple.nodes (UndirectedGraph (graph st))) (BronKerbosch' st1) →
  ∃ st2,
    Clique BronKerbosch' k' st1 = Ok st2
    ∧ ∀ id n, Node_by_ID st id = Some n →
        (labels_of k' (BronKerbosch' st1) id ≠ [] →
           Get (attrs_at st2 n) "clique"
           = Join (Sprint <$> labels_of k' (BronKerbosch' st1) id)
           ∧ Get (attrs_at st2 n) "clique_count"
             = Sprint (Z.of_nat (length (labels_of k' (BronKerbosch' st1) id))))
        ∧ (labels_of k' (BronKerbosch' st1) id = [] →
           Get (attrs_at st2 n) "clique" = Get (attrs_at st1 n) "clique").
Proof.
  intros Hwf Hnd Hmc Hrun1 Hmc'.
  destruct (Clique_spec BronKerbosch k st Hwf Hmc)
    as (st1' & Hrun1' & Hwf1 & Hg1 & _ & Hattrs1 & _).
  rewrite Hrun1 in Hrun1'. injection Hrun1' as <-.
  rewrite <- Hg1 in Hmc'.
  destruct (Clique_spec BronKerbosch' k' st1 Hwf1 Hmc')
    as (st2 & Hrun2 & _ & _ & _ & Hattrs2 & _).
  exists st2. split; [done|]. intros id n Hn.
  assert (Node_by_ID st1 id = Some n) as Hn1.
  { unfold Node_by_ID. by rewrite Hg1. }
  assert (settled (attrs_at st1 n)) as Hset.
  { rewrite (Hattrs1 id n Hn). apply run_settles, Hnd.
    apply Nodes_elem. by exists id. }
  rewrite (Hattrs2 id n Hn1). split.
  - intros Hls. destruct (run_settled _ _ Hset Hls) as (H1 & H2 & _). done.
  - intros ->. simpl. destruct Hset as [Hnd1 _].
    by destruct (count_labels_settles _ Hnd1) as (_ & -> & _).
Qed.

Lemma Clique_rerun_replaces_witness :
  ∃ st2,
    Clique sample_cliques 3 (after (Clique sample_cliques 3 sample_four))
    = Ok st2
    ∧ Get (attrs_at st2 2%positive) "clique" = "0,1"
    ∧ Get (attrs_at st2 2%positive) "clique_count" = "2".
Proof.
  destruct (Clique_rerun_replaces sample_cliques sample_cliques 3 3
              sample_four (after (Clique sample_cliques 3 sample_four))
              sample_four_wf)
    as (st2 & Hrun & Hattrs).
  - intros n Hn. vm_compute in Hn.
    repeat (apply elem_of_cons in Hn as [->|Hn]); try apply NoDup_nil_2.
    by apply elem_of_nil in Hn.
  - repeat constructor; by eexists.
  - vm_compute. reflexivity.
  - repeat constructor; by eexists.
  - exists st2. split; [exact Hrun|].
    destruct (Hattrs 1 2%positive eq_refl) as [H _].
    destruct H as [H1 H2]; [discriminate|]. split; [exact H1 | exact H2].
Defined.

(** ** Ranking *)

Section FloatFacts.

Implicit Types (x y z : float64).

Lemma SFltb_key x y :
  is_NaN x = false → is_NaN y = false →
  SFltb x y = true ↔ lex_lt (float_key x) (float_key y).
Proof.
  intros Hx Hy. unfold SFltb, lex_lt.
  destruct x as [sx|sx| |sx mx ex], y as [sy|sy| |sy my ey]; try done; simpl;
    repeat match goal with s : bool |- _ => destruct s end; simpl;
    try (split; [done | lia]); try (split; [lia | done]);
    try (split; [intros _; lia | done]).
  - destruct (Z.compare_spec ex ey); simpl;
      try (split; [done|lia]); try (split; [intros _; lia | done]).
    change (PosDef.Pos.compare_cont Eq mx my) with (Pos.compare mx my).
    destruct (Pos.compare_spec mx my); simpl;
      try (split; [done|lia]); try (split; [intros _; lia | done]).
  - destruct (Z.compare_spec ex ey); simpl;
      try (split; [done|lia]); try (split; [intros _; lia | done]).
    change (PosDef.Pos.compare_cont Eq mx my) with (Pos.compare mx my).
    destruct (Pos.compare_spec mx my); simpl;
      try (split; [done|lia]); try (split; [intros _; lia | done]).
Qed.

Lemma SFleb_key x y :
  is_NaN x = false → is_NaN y = false →
  SFleb x y = true ↔ ¬ lex_lt (float_key y) (float_key x).
Proof.
  intros Hx Hy. unfold SFleb, lex_lt.
  destruct x as [sx|sx| |sx mx ex], y as [sy|sy| |sy my ey]; try done; simpl;
    repeat match goal with s : bool |- _ => destruct s end; simpl;
    try (split; [done | lia]); try (split; [lia | done]);
    try (split; [intros _; lia | done]).
  - destruct (Z.compare_spec ex ey); simpl;
      try (split; [done|lia]); try (split; [intros _; lia | done]).
    change (PosDef.Pos.compare_cont Eq mx my) with (Pos.compare mx my).
    destruct (Pos.compare_spec mx my); simpl;
      try (split; [done|lia]); try (split; [intros _; lia | done]).
  - destruct (Z.compare_spec ex ey); simpl;
      try (split; [done|lia]); try (split; [intros _; lia | done]).
    change (PosDef.Pos.compare_cont Eq mx my) with (Pos.compare mx my).
    destruct (Pos.compare_spec mx my); simpl;
      try (split; [done|lia]); try (split; [intros _; lia | done]).
Qed.

Lemma float64_gt_false_iff x y :
  is_NaN x = false → is_NaN y = false →
  float64_gt x y = false ↔ ¬ lex_lt (float_key y) (float_key x).
Proof.
  intros Hx Hy. unfold float64_gt.
  rewrite <- (SFltb_key y x) by done. by destruct (SFltb y x).
Qed.

(** Away from NaN, not greater means less or equal. *)
Lemma float64_not_gt_ge x y :
  is_NaN x = false → is_NaN y = false →
  float64_gt y x = false → float64_ge x y = true.
Proof.
  intros Hx Hy H. unfold float64_ge. apply SFleb_key; [done|done|].
  by apply (float64_gt_false_iff y x).
Qed.

(** [>] compares with NaN as false, both ways. *)
Lemma float64_gt_NaN x : float64_gt S754_nan x = false ∧ float64_gt x S754_nan = false.
Proof. unfold float64_gt, SFltb. by destruct x. Qed.

(** Away from NaN, [>] on the ranked values is a strict weak ordering. *)
Lemma by_value_StrictWeak :
  StrictWeakOn (λ p : positive * float64, is_NaN p.2 = false) by_value.
Proof.
  unfold by_value, float64_gt. split.
  - intros [n x] Hx. simpl in *.
    destruct (SFltb x x) eqn:H; [|done].
    apply SFltb_key in H; [|done|done]. unfold lex_lt in H. lia.
  - intros [n x] [m y] [o z] Hx Hy Hz. simpl in *.
    rewrite !SFltb_key by done. unfold lex_lt. lia.
  - intros [n x] [m y] [o z] Hx Hy Hz. simpl in *.
    intros H1 H2.
    destruct (SFltb z x) eqn:H3; [|done].
    apply SFltb_key in H3; [|done|done].
    assert (¬ lex_lt (float_key y) (float_key x)) as H1'.
    { intros H. apply SFltb_key in H; [congruence|done|done]. }
    assert (¬ lex_lt (float_key z) (float_key y)) as H2'.
    { intros H. apply SFltb_key in H; [congruence|done|done]. }
    unfold lex_lt in *. lia.
Qed.

End FloatFacts.

Section SwapFacts.

Context {A : Type}.
Implicit Types (l : list A) (i j k : nat).

Lemma swap_length i j l : length (swap i j l) = length l.
Proof.
  unfold swap. destruct (l !! i), (l !! j); by rewrite ?length_insert.
Qed.

Lemma swap_lookup i j l k :
  (i < length l)%nat → (j < length l)%nat →
  swap i j l !! k
  = if decide (k = j) then l !! i
    else if decide (k = i) then l !! j else l !! k.
Proof.
  intros Hi Hj. unfold swap.
  destruct (lookup_lt_is_Some_2 l i Hi) as [x Hx].
  destruct (lookup_lt_is_Some_2 l j Hj) as [y Hy]. rewrite Hx, Hy.
  case_decide as Hkj.
  - subst. apply list_lookup_insert_eq. by rewrite length_insert.
  - rewrite list_lookup_insert_ne by done. case_decide as Hki.
    + subst. by apply list_lookup_insert_eq.
    + by rewrite list_lookup_insert_ne.
Qed.

Lemma exchange_Permutation a b l u w :
  (a < b)%nat → l !! a = Some u → l !! b = Some w →
  <[b := u]> (<[a := w]> l) ≡ₚ l.
Proof.
  intros Hab Ha Hb.
  apply list_elem_of_split_length in Ha as (l1 & l2 & -> & ->).
  rewrite lookup_app_r in Hb by lia.
  replace (b - length l1)%nat with (S (b - S (length l1))) in Hb by lia.
  simpl in Hb.
  apply list_elem_of_split_length in Hb as (l3 & l4 & -> & Hl3).
  rewrite insert_app_r_alt by lia. rewrite Nat.sub_diag. simpl.
  rewrite insert_app_r_alt by lia.
  replace (b - length l1)%nat with (S (length l3)) by lia. simpl.
  rewrite insert_app_r_alt by lia. rewrite Nat.sub_diag. simpl.
  apply Permutation_app_head.
  rewrite <- !Permutation_middle. apply perm_swap.
Qed.

Lemma swap_Permutation i j l : swap i j l ≡ₚ l.
Proof.
  unfold swap. destruct (l !! i) as [x|] eqn:Hx; [|done].
  destruct (l !! j) as [y|] eqn:Hy; [|done].
  destruct (Nat.lt_total i j) as [Hlt|[->|Hgt]].
  - by apply exchange_Permutation.
  - assert (x = y) as -> by congruence.
    by rewrite !(list_insert_id l j y Hy).
  - rewrite list_insert_insert_ne by lia. by apply exchange_Permutation.
Qed.

Lemma swap_Forall (Q : A → Prop) i j l : Forall Q l → Forall Q (swap i j l).
Proof. intros H. by rewrite swap_Permutation. Qed.

End SwapFacts.

Lemma swap_zip {A B} (l1 : list A) (l2 : list B) i j :
  length l1 = length l2 → (i < length l1)%nat → (j < length l1)%nat →
  zip (swap i j l1) (swap i j l2) = swap i j (zip l1 l2).
Proof.
  intros Hlen Hi Hj. apply list_eq. intros k.
  rewrite lookup_zip_with.
  rewrite !swap_lookup by (rewrite ?length_zip_with; lia).
  rewrite !lookup_zip_with.
  repeat case_decide; done.
Qed.

(** ** What the contract of [sort.Sort] gives *)

Section ViewFacts.

Context {D : Type} `{Interface D} {E : Type}.
Context (P : D → Prop) (elems : D → list E) (lt : E → E → bool).
Context (HV : View P elems lt).

Lemma view_Len_Swap d i j :
  P d → (i < Len d)%nat → (j < Len d)%nat → Len (Swap d i j) = Len d.
Proof.
  intros Hd Hi Hj.
  rewrite <- (view_Len _ _ _ HV (Swap d i j)) by by apply (view_closed _ _ _ HV).
  rewrite (view_Swap _ _ _ HV) by done.
  rewrite swap_length. by apply (view_Len _ _ _ HV).
Qed.

(** Data reached by swaps presents the same elements. *)
Lemma swaps_to_view n d d' :
  swaps_to n d d' → P d → n = Len d →
  P d' ∧ elems d' ≡ₚ elems d ∧ Len d' = Len d.
Proof.
  induction 1 as [d|d i j d' Hi Hj Hsw IH]; intros Hd Hn; [done|].
  subst n. destruct IH as (HP & Hperm & Hlen).
  - by apply (view_closed _ _ _ HV).
  - by rewrite view_Len_Swap.
  - split_and!; [done| |].
    + rewrite Hperm, (view_Swap _ _ _ HV) by done. apply swap_Permutation.
    + rewrite Hlen. by apply view_Len_Swap.
Qed.

(** The inner loop of the insertion sort, seen through the view. *)
Lemma sift_view j : ∀ d,
  P d → (j < Len d)%nat →
  elems (sift 0 j d) = sift_list lt j (elems d)
  ∧ P (sift 0 j d) ∧ Len (sift 0 j d) = Len d.
Proof.
  induction j as [|j IH]; intros d Hd Hj; simpl; [done|].
  pose proof (view_Len _ _ _ HV d Hd) as Hlen.
  destruct (lookup_lt_is_Some_2 (elems d) (S j)) as [x Hx]; [lia|].
  destruct (lookup_lt_is_Some_2 (elems d) j) as [y Hy]; [lia|].
  rewrite Hx, Hy. rewrite (view_Less _ _ _ HV d (S j) j x y) by done.
  destruct (lt x y); [|done].
  destruct (IH (Swap d (S j) j)) as (H1 & H2 & H3).
  - apply (view_closed _ _ _ HV); [done|lia|lia].
  - rewrite view_Len_Swap by (done || lia). lia.
  - rewrite H1, (view_Swap _ _ _ HV) by (done || lia).
    split_and!; [done|done|]. rewrite H3. apply view_Len_Swap; (done || lia).
Qed.

End ViewFacts.

(** ** The insertion sort meets the contract *)

Section InsertionList.

Context {E : Type} (lt : E → E → bool) (Q : E → Prop).
Context (HS : StrictWeakOn Q lt).

Lemma sift_list_Permutation j : ∀ l : list E, sift_list lt j l ≡ₚ l.
Proof.
  induction j as [|j IH]; intros l; simpl; [done|].
  destruct (l !! S j), (l !! j); try done.
  destruct (lt _ _); [|done]. by rewrite IH, swap_Permutation.
Qed.

Lemma sift_all_Permutation (js : list nat) : ∀ l : list E,
  foldl (λ l i, sift_list lt i l) l js ≡ₚ l.
Proof.
  induction js as [|j js IH]; intros l; simpl; [done|].
  by rewrite IH, sift_list_Permutation.
Qed.

Lemma lt_asym x y : Q x → Q y → lt x y = true → lt y x = false.
Proof.
  intros Hx Hy Hxy. destruct (lt y x) eqn:Hyx; [|done].
  pose proof (swo_trans _ _ HS x y x Hx Hy Hx Hxy Hyx) as Hxx.
  rewrite (swo_irrefl _ _ HS x Hx) in Hxx. done.
Qed.

(** Moving the element at [j] down until it meets one that is not ordered
    after it leaves the range up to [J] ordered. *)
Lemma sift_list_ordered J j : ∀ l : list E,
  Forall Q l → (J < length l)%nat → (j ≤ J)%nat →
  ordered_but J j lt l → ordered_upto J lt (sift_list lt j l).
Proof.
  induction j as [|j IH]; intros l HQ HJ Hj [H1 H2]; simpl.
  - intros i1 i2 x y Hlt Hle Hx Hy. destruct (decide (i1 = 0%nat)) as [->|Hne].
    + by apply (H2 i2 x y).
    + apply (H1 i1 i2 x y); try done; lia.
  - destruct (lookup_lt_is_Some_2 l (S j)) as [x Hx]; [lia|].
    destruct (lookup_lt_is_Some_2 l j) as [y Hy]; [lia|].
    rewrite Hx, Hy.
    assert (∀ i z, l !! i = Some z → Q z) as HQl.
    { intros i z Hz. by eapply Forall_lookup_1. }
    destruct (lt x y) eqn:Hxy.
    + apply IH; [by apply swap_Forall | by rewrite swap_length | lia |].
      split.
      * intros i1 i2 u w Hlt Hle Hn1 Hn2. rewrite !swap_lookup by lia.
        rewrite (decide_False (P := i1 = j)) by done.
        rewrite (decide_False (P := i2 = j)) by done.
        destruct (decide (i1 = S j)) as [->|Hi1];
          destruct (decide (i2 = S j)) as [->|Hi2]; intros Hu Hw.
        -- lia.
        -- apply (H1 j i2 u w); try done; lia.
        -- apply (H1 i1 j u w); try done; lia.
        -- by apply (H1 i1 i2 u w).
      * intros i2 u w Hlt Hle. rewrite !swap_lookup by lia.
        rewrite (decide_True (P := j = j)) by done.
        rewrite (decide_False (P := i2 = j)) by lia.
        destruct (decide (i2 = S j)) as [->|Hi2]; intros Hu Hw.
        -- assert (u = x) as -> by congruence.
           assert (w = y) as -> by congruence.
           apply lt_asym; eauto.
        -- apply (H2 i2 u w); try done; lia.
    + intros i1 i2 u w Hlt Hle Hu Hw.
      destruct (decide (i2 = S j)) as [->|Hn2].
      * assert (w = x) as -> by congruence.
        destruct (decide (i1 = j)) as [->|Hn1].
        -- assert (u = y) as -> by congruence. done.
        -- apply (swo_incomp _ _ HS x y u); eauto.
           apply (H1 i1 j u y); try done; lia.
      * destruct (decide (i1 = S j)) as [->|Hn1].
        -- apply (H2 i2 u w); try done; lia.
        -- by apply (H1 i1 i2 u w).
Qed.

(** After the turns for [i = 1, ..., m] the range up to [m] is ordered. *)
Lemma insertion_list_ordered m : ∀ l : list E,
  Forall Q l → (m < length l)%nat →
  ordered_upto m lt (foldl (λ l i, sift_list lt i l) l (seq 1 m)).
Proof.
  induction m as [|m IH]; intros l HQ Hm.
  - simpl. intros i1 i2 x y Hlt Hle. lia.
  - rewrite seq_S, foldl_app. cbn [foldl]. change (1 + m)%nat with (S m).
    apply sift_list_ordered.
    + by rewrite sift_all_Permutation.
    + by rewrite sift_all_Permutation.
    + done.
    + split.
      * intros i1 i2 x y Hlt Hle Hn1 Hn2.
        apply (IH l); [done | lia | done | lia].
      * intros i2 x y Hlt Hle. lia.
Qed.

End InsertionList.

Section InsertionData.

Context {D : Type} `{Interface D}.

Lemma swaps_to_trans n (d1 d2 d3 : D) :
  swaps_to n d1 d2 → swaps_to n d2 d3 → swaps_to n d1 d3.
Proof.
  induction 1 as [|d i j d' Hi Hj Hsw IH]; [done|]. intros H3.
  apply (swaps_step n d i j); [done|done|]. by apply IH.
Qed.

Lemma sift_swaps n j : ∀ d : D, (j < n)%nat → swaps_to n d (sift 0 j d).
Proof.
  induction j as [|j IH]; intros d Hj; simpl; [constructor|].
  destruct (Less d (S j) j); [|constructor].
  apply (swaps_step n d (S j) j); [done | lia |]. apply IH. lia.
Qed.

Lemma sift_all_swaps n (js : list nat) : ∀ d : D,
  Forall (λ j, (j < n)%nat) js →
  swaps_to n d (foldl (λ d i, sift 0 i d) d js).
Proof.
  induction js as [|j js IH]; intros d Hjs; simpl; [constructor|].
  apply Forall_cons in Hjs as [Hj Hjs].
  eapply swaps_to_trans; [by apply sift_swaps|]. by apply IH.
Qed.

Context {E : Type} (P : D → Prop) (elems : D → list E) (lt : E → E → bool).
Context (HV : View P elems lt).

Lemma sift_all_view (js : list nat) : ∀ d : D,
  P d → Forall (λ j, (j < Len d)%nat) js →
  elems (foldl (λ d i, sift 0 i d) d js)
  = foldl (λ l i, sift_list lt i l) (elems d) js.
Proof.
  induction js as [|j js IH]; intros d Hd Hjs; simpl; [done|].
  apply Forall_cons in Hjs as [Hj Hjs].
  destruct (sift_view P elems lt HV j d Hd Hj) as (H1 & H2 & H3).
  rewrite IH; [by rewrite H1 | done | by rewrite H3].
Qed.

End InsertionData.

Lemma insertion_Sort_contract : SortContract insertion_Sort.
Proof.
  split.
  - intros D I d. unfold insertion_Sort, insertionSort.
    apply sift_all_swaps. apply Forall_forall. intros j Hj.
    apply elem_of_seq in Hj. lia.
  - intros D I E P elems lt Q HV HS d Hd HQ.
    unfold insertion_Sort, insertionSort.
    rewrite (sift_all_view P elems lt HV); [|done|].
    2:{ apply Forall_forall. intros j Hj. apply elem_of_seq in Hj. lia. }
    pose proof (view_Len _ _ _ HV d Hd) as Hlen.
    intros i1 i2 x y Hlt Hx Hy.
    assert (i2 < Len d)%nat as Hi2.
    { apply lookup_lt_Some in Hy.
      by rewrite sift_all_Permutation, Hlen in Hy. }
    replace (Len d - 1)%nat with (Len d - 1)%nat in * by done.
    eapply (insertion_list_ordered lt Q HS (Len d - 1) (elems d));
      [done | lia | exact Hlt | lia | exact Hx | exact Hy].
Qed.

(** ** Ranking by attribute *)

Lemma nodesByAttr_View :
  View (λ d, length (nba_nodes d) = length (nba_vals d)) nba_elems by_value.
Proof.
  split.
  - intros d Hd. unfold nba_elems. rewrite length_zip_with. simpl. lia.
  - intros d i j x y Hd Hx Hy. unfold nba_elems in *. simpl. unfold vals_Less.
    apply lookup_zip_with_Some in Hx as (a & b & -> & _ & ->).
    apply lookup_zip_with_Some in Hy as (a' & b' & -> & _ & ->). done.
  - intros d i j Hd Hi Hj. unfold nba_elems. simpl in *. by rewrite swap_zip.
  - intros d i j Hd Hi Hj. simpl. by rewrite !swap_length.
Qed.

Lemma edgesByAttr_View :
  View (λ d, length (eba_edges d) = length (eba_vals d)) eba_elems by_value.
Proof.
  split.
  - intros d Hd. unfold eba_elems. rewrite length_zip_with. simpl. lia.
  - intros d i j x y Hd Hx Hy. unfold eba_elems in *. simpl. unfold vals_Less.
    apply lookup_zip_with_Some in Hx as (a & b & -> & _ & ->).
    apply lookup_zip_with_Some in Hy as (a' & b' & -> & _ & ->). done.
  - intros d i j Hd Hi Hj. unfold eba_elems. simpl in *. by rewrite swap_zip.
  - intros d i j Hd Hi Hj. simpl. by rewrite !swap_length.
Qed.

Section PairFacts.

Context (f : positive → float64).

Lemma elem_of_zip_fmap (ns : list positive) n v :
  (n, v) ∈ zip ns (f <$> ns) → n ∈ ns ∧ v = f n.
Proof.
  induction ns as [|m ns IH]; simpl.
  - intros H. by apply elem_of_nil in H.
  - intros [[= -> ->]|H]%elem_of_cons.
    + split; [by left|done].
    + destruct (IH H). split; [by right|done].
Qed.

(** From the sorted pairs back to the entities and their values. *)
Lemma ranked_conclusion (ns out : list positive) (outv : list float64) :
  length out = length outv →
  zip out outv ≡ₚ zip ns (f <$> ns) →
  ((∀ n, n ∈ ns → is_NaN (f n) = false) → ordered by_value (zip out outv)) →
  out ≡ₚ ns
  ∧ ((∀ n, n ∈ ns → is_NaN (f n) = false) →
     ∀ i j n m, (i < j)%nat → out !! i = Some n → out !! j = Some m →
                float64_ge (f n) (f m) = true).
Proof.
  intros Hlen Hperm Hord.
  assert (out ≡ₚ ns) as Hout.
  { rewrite <- (fst_zip out outv) by lia. rewrite Hperm.
    rewrite fst_zip; [done|]. rewrite length_fmap. lia. }
  split; [done|]. intros Hnan i j n m Hij Hn Hm.
  destruct (lookup_lt_is_Some_2 outv i) as [v Hv].
  { apply lookup_lt_Some in Hn. lia. }
  destruct (lookup_lt_is_Some_2 outv j) as [w Hw].
  { apply lookup_lt_Some in Hm. lia. }
  assert (zip out outv !! i = Some (n, v)) as Hi.
  { rewrite lookup_zip_with, Hn, Hv. done. }
  assert (zip out outv !! j = Some (m, w)) as Hj.
  { rewrite lookup_zip_with, Hm, Hw. done. }
  assert (n ∈ ns ∧ v = f n) as [Hnin ->].
  { apply elem_of_zip_fmap. rewrite <- Hperm. by eapply list_elem_of_lookup_2. }
  assert (m ∈ ns ∧ w = f m) as [Hmin ->].
  { apply elem_of_zip_fmap. rewrite <- Hperm. by eapply list_elem_of_lookup_2. }
  apply float64_not_gt_ge; [by apply Hnan | by apply Hnan |].
  apply (Hord Hnan i j (n, f n) (m, f m) Hij Hi Hj).
Qed.

End PairFacts.

Section RankingFacts.

(** [strconv.ParseFloat] and [sort.Sort], the latter with its contract
    where the order of the result matters. *)
Variable ParseFloat : string → float64 * option error.
Variable sort_Sort : ∀ D, Interface D → D → D.

Lemma attr_value_lookup attr (a : Attributes) :
  attr_value ParseFloat attr a
  = match lookup_attr a attr with
    | Some v => ParseFloat v
    | None => (float64_zero, None)
    end.
Proof.
  induction a as [|kv a IH]; simpl; [done|].
  by destruct (String.eqb (Key kv) attr).
Qed.

(** An entity without the attribute is ranked by zero. *)
Lemma rank_value_missing attr (a : Attributes) :
  attr ∉ keys a → rank_value ParseFloat attr a = float64_zero.
Proof.
  intros H. unfold rank_value. rewrite attr_value_lookup.
  by rewrite (proj2 (lookup_attr_None a attr)).
Qed.

(** The collecting loop: either the error of an entity whose value does
    not parse, or every entity with the value it is ranked by. *)
Lemma collect_spec (attrs_of : positive → Result Attributes)
    (at_ : positive → Attributes) attr :
  (∀ n a, attrs_of n = Ok a → a = at_ n) →
  ∀ ents acc r,
    collect ParseFloat attrs_of attr ents acc = Ok r →
    match r with
    | inl err =>
        ∃ n v, n ∈ ents ∧ lookup_attr (at_ n) attr = Some v
               ∧ (ParseFloat v).2 = Some err
    | inr (ns, vs) =>
        ns = acc.1 ++ ents
        ∧ vs = acc.2 ++ ((λ n, rank_value ParseFloat attr (at_ n)) <$> ents)
        ∧ ∀ n v, n ∈ ents → lookup_attr (at_ n) attr = Some v →
                 (ParseFloat v).2 = None
    end.
Proof.
  intros Hat. induction ents as [|n ents IH]; intros acc r; simpl.
  - intros [= <-]. destruct acc as [ns vs]. simpl. rewrite !app_nil_r.
    split_and!; try done. intros n v H. by apply elem_of_nil in H.
  - destruct (attrs_of n) as [a|] eqn:Ha; simpl; [|done].
    apply Hat in Ha as ->.
    destruct (attr_value ParseFloat attr (at_ n)) as [x [err|]] eqn:Hv.
    + intros [= <-]. rewrite attr_value_lookup in Hv.
      destruct (lookup_attr (at_ n) attr) as [v|] eqn:Hl; [|done].
      exists n, v. split_and!; [by left | done | by rewrite Hv].
    + intros Hr. specialize (IH _ _ Hr). destruct r as [err|[ns vs]].
      * destruct IH as (n' & v & Hn' & Hl & He). exists n', v.
        split_and!; [by right | done | done].
      * simpl in IH. destruct IH as (-> & -> & Hall).
        rewrite <- !app_assoc. simpl. unfold rank_value at 2. rewrite Hv.
        split_and!; try done.
        intros n' v [->|Hn']%elem_of_cons Hl; [|by eapply Hall].
        rewrite attr_value_lookup, Hl in Hv. by rewrite Hv.
Qed.

Lemma collect_total (attrs_of : positive → Result Attributes) attr :
  ∀ ents acc,
    (∀ n, n ∈ ents → ∃ a, attrs_of n = Ok a) →
    ∃ r, collect ParseFloat attrs_of attr ents acc = Ok r.
Proof.
  induction ents as [|n ents IH]; intros acc Hok; simpl; [by eexists|].
  destruct (Hok n) as [a ->]; [by left|]. simpl.
  destruct (attr_value ParseFloat attr a) as [x [err|]]; [by eexists|].
  apply IH. intros n' Hn'. apply Hok. by right.
Qed.

Lemma node_attrs_at st n a : node_attrs st n = Ok a → a = attrs_at st n.
Proof.
  unfold node_attrs, attrs_at, nil_deref.
  destruct (nodeObjs st !! n); [|done]. by intros [= <-].
Qed.

Lemma edge_attrs_at_Ok st e a :
  edge_attrs st e = Ok a → a = edge_attrs_at st e.
Proof.
  unfold edge_attrs, edge_attrs_at, nil_deref.
  destruct (edgeObjs st !! e); [|done]. by intros [= <-].
Qed.

(** What the contract gives for data seen through a view. *)
Lemma Sort_view {D} `{Interface D} {E} (P : D → Prop)
    (elems : D → list E) (lt : E → E → bool) (Q : E → Prop) (d : D) :
  SortContract sort_Sort → View P elems lt → StrictWeakOn Q lt → P d →
  P (sort_Sort D _ d)
  ∧ elems (sort_Sort D _ d) ≡ₚ elems d
  ∧ (Forall Q (elems d) → ordered lt (elems (sort_Sort D _ d))).
Proof.
  intros HC HV HS Hd.
  destruct (swaps_to_view P elems lt HV (Len d) d (sort_Sort D _ d))
    as (HP & Hperm & _); [apply (Sort_swaps _ HC) | done | done |].
  split_and!; [done|done|].
  intros HQ. by apply (Sort_ordered _ HC D _ E P elems lt Q).
Qed.

End RankingFacts.

Section RankingClaims.

Variable ParseFloat : string → float64 * option error.
Variable sort_Sort : ∀ D, Interface D → D → D.

Lemma NodesByAttribute_unfold attr st r :
  collect ParseFloat (node_attrs st) attr (Nodes st) ([], []) = Ok r →
  NodesByAttribute ParseFloat sort_Sort attr st
  = Ok match r with
       | inl err => ([], Some err)
       | inr (ns, vs) =>
           (nba_nodes (sort_Sort _ _ (mkNodesByAttr ns vs)), None)
       end.
Proof.
  intros H. unfold NodesByAttribute. rewrite H. simpl.
  by destruct r as [err|[ns vs]].
Qed.

Lemma EdgesByAttribute_unfold attr st r :
  collect ParseFloat (edge_attrs st) attr (Edges st) ([], []) = Ok r →
  EdgesByAttribute ParseFloat sort_Sort attr st
  = Ok match r with
       | inl err => ([], Some err)
       | inr (es, vs) =>
           (eba_edges (sort_Sort _ _ (mkEdgesByAttr es vs)), None)
       end.
Proof.
  intros H. unfold EdgesByAttribute. rewrite H. simpl.
  by destruct r as [err|[es vs]].
Qed.

Lemma collect_nodes_total attr st :
  wf st →
  ∃ r, collect ParseFloat (node_attrs st) attr (Nodes st) ([], []) = Ok r.
Proof.
  intros Hwf. apply collect_total. intros n (id & Hid)%Nodes_elem.
  apply (wf_nodes _ Hwf), ID_Ok in Hid as (o & Ho & _).
  unfold node_attrs. rewrite Ho. by eexists.
Qed.

Lemma collect_edges_total attr st :
  wf st →
  ∃ r, collect ParseFloat (edge_attrs st) attr (Edges st) ([], []) = Ok r.
Proof.
  intros Hwf. apply collect_total. intros e (u & v & He)%Edges_elem.
  destruct (wf_edges _ Hwf u v e He) as [[o Ho] _].
  unfold edge_attrs. rewrite Ho. by eexists.
Qed.

(** The ranking returns a list when every value carried for the attribute
    is accepted by [ParseFloat]. *)
Lemma NodesByAttribute_succeeds attr st :
  wf st →
  (∀ n v, n ∈ Nodes st → carries (attrs_at st n) attr v →
          (ParseFloat v).2 = None) →
  ∃ out, NodesByAttribute ParseFloat sort_Sort attr st = Ok (out, None).
Proof.
  intros Hwf Hall. unfold carries in Hall.
  destruct (collect_nodes_total attr st Hwf) as [rn Hrn].
  pose proof (collect_spec ParseFloat (node_attrs st) (attrs_at st) attr
                (node_attrs_at st) _ _ _ Hrn) as Hn.
  rewrite (NodesByAttribute_unfold attr st rn Hrn).
  destruct rn as [err|[ns vs]]; [|by eexists].
  destruct Hn as (n & v & Hin & Hl & Herr).
  rewrite (Hall n v Hin Hl) in Herr. done.
Qed.

Lemma EdgesByAttribute_succeeds attr st :
  wf st →
  (∀ e v, e ∈ Edges st → carries (edge_attrs_at st e) attr v →
          (ParseFloat v).2 = None) →
  ∃ out, EdgesByAttribute ParseFloat sort_Sort attr st = Ok (out, None).
Proof.
  intros Hwf Hall. unfold carries in Hall.
  destruct (collect_edges_total attr st Hwf) as [re Hre].
  pose proof (collect_spec ParseFloat (edge_attrs st) (edge_attrs_at st) attr
                (edge_attrs_at_Ok st) _ _ _ Hre) as He.
  rewrite (EdgesByAttribute_unfold attr st re Hre).
  destruct re as [err|[es vs]]; [|by eexists].
  destruct He as (e & v & Hin & Hl & Herr).
  rewrite (Hall e v Hin Hl) in Herr. done.
Qed.

(** C9. If an entity of the graph carries the attribute with a value that
    [ParseFloat] rejects, [NodesByAttribute] (and likewise
    [EdgesByAttribute]) returns no list and the error [ParseFloat] gave for
    such a value; if [ParseFloat] accepts every value carried for the
    attribute, it returns a list and no error. *)
Theorem ByAttribute_parse_errors (attr : string) (st : State) :
  wf st →
  ((∀ n v, n ∈ Nodes st → carries (attrs_at st n) attr v →
           (ParseFloat v).2 = None) →
   ∃ out, NodesByAttribute ParseFloat sort_Sort attr st = Ok (out, None))
  ∧ (∀ n v err, n ∈ Nodes st → carries (attrs_at st n) attr v →
       (ParseFloat v).2 = Some err →
       ∃ n' v' err',
         n' ∈ Nodes st ∧ carries (attrs_at st n') attr v'
         ∧ (ParseFloat v').2 = Some err'
         ∧ NodesByAttribute ParseFloat sort_Sort attr st
           = Ok ([], Some err'))
  ∧ ((∀ e v, e ∈ Edges st → carries (edge_attrs_at st e) attr v →
             (ParseFloat v).2 = None) →
     ∃ out, EdgesByAttribute ParseFloat sort_Sort attr st = Ok (out, None))
  ∧ (∀ e v err, e ∈ Edges st → carries (edge_attrs_at st e) attr v →
       (ParseFloat v).2 = Some err →
       ∃ e' v' err',
         e' ∈ Edges st ∧ carries (edge_attrs_at st e') attr v'
         ∧ (ParseFloat v').2 = Some err'
         ∧ EdgesByAttribute ParseFloat sort_Sort attr st
           = Ok ([], Some err')).
Proof.
  intros Hwf. unfold carries.
  destruct (collect_nodes_total attr st Hwf) as [rn Hrn].
  destruct (collect_edges_total attr st Hwf) as [re Hre].
  pose proof (collect_spec ParseFloat (node_attrs st) (attrs_at st) attr
                (node_attrs_at st) _ _ _ Hrn) as Hn.
  pose proof (collect_spec ParseFloat (edge_attrs st) (edge_attrs_at st) attr
                (edge_attrs_at_Ok st) _ _ _ Hre) as He.
  rewrite (NodesByAttribute_unfold attr st rn Hrn).
  rewrite (EdgesByAttribute_unfold attr st re Hre).
  split_and!.
  - intros Hall. destruct rn as [err|[ns vs]]; [|by eexists].
    destruct Hn as (n & v & Hin & Hl & Herr).
    rewrite (Hall n v Hin Hl) in Herr. done.
  - intros n v err Hin Hl Herr. destruct rn as [err'|[ns vs]].
    + destruct Hn as (n' & v' & Hin' & Hl' & Herr').
      by exists n', v', err'.
    + destruct Hn as (_ & _ & Hall). rewrite (Hall n v Hin Hl) in Herr. done.
  - intros Hall. destruct re as [err|[es vs]]; [|by eexists].
    destruct He as (e & v & Hin & Hl & Herr).
    rewrite (Hall e v Hin Hl) in Herr. done.
  - intros e v err Hin Hl Herr. destruct re as [err'|[es vs]].
    + destruct He as (e' & v' & Hin' & Hl' & Herr').
      by exists e', v', err'.
    + destruct He as (_ & _ & Hall). rewrite (Hall e v Hin Hl) in Herr. done.
Qed.

Hypothesis sort_contract : SortContract sort_Sort.

(** The ranking of the nodes, when it returns one. *)
Lemma NodesByAttribute_ranked attr st out :
  NodesByAttribute ParseFloat sort_Sort attr st = Ok (out, None) →
  out ≡ₚ Nodes st
  ∧ ((∀ n, n ∈ Nodes st →
           is_NaN (rank_value ParseFloat attr (attrs_at st n)) = false) →
     ∀ i j n m, (i < j)%nat → out !! i = Some n → out !! j = Some m →
       float64_ge (rank_value ParseFloat attr (attrs_at st n))
                  (rank_value ParseFloat attr (attrs_at st m)) = true).
Proof.
  intros Hrun.
  destruct (collect ParseFloat (node_attrs st) attr (Nodes st) ([], []))
    as [r|msg] eqn:Hr.
  2:{ unfold NodesByAttribute in Hrun. by rewrite Hr in Hrun. }
  rewrite (NodesByAttribute_unfold attr st r Hr) in Hrun.
  pose proof (collect_spec ParseFloat (node_attrs st) (attrs_at st) attr
                (node_attrs_at st) _ _ _ Hr) as Hspec.
  destruct r as [err|[ns vs]]; [done|]. injection Hrun as <-.
  simpl in Hspec. destruct Hspec as (-> & -> & _).
  set (f := λ n, rank_value ParseFloat attr (attrs_at st n)).
  set (d := mkNodesByAttr (Nodes st) (f <$> Nodes st)).
  destruct (Sort_view sort_Sort _ nba_elems by_value
              (λ p : positive * float64, is_NaN p.2 = false) d
              sort_contract nodesByAttr_View by_value_StrictWeak)
    as (HP & Hperm & Hord).
  { simpl. by rewrite length_fmap. }
  apply (ranked_conclusion f (Nodes st) _ (nba_vals (sort_Sort _ _ d)));
    [done | exact Hperm |].
  intros Hnan. apply Hord. apply Forall_forall. intros [n v] Hin.
  apply elem_of_zip_fmap in Hin as [Hin ->]. by apply Hnan.
Qed.

(** The ranking of the edges, when it returns one. *)
Lemma EdgesByAttribute_ranked attr st out :
  EdgesByAttribute ParseFloat sort_Sort attr st = Ok (out, None) →
  out ≡ₚ Edges st
  ∧ ((∀ e, e ∈ Edges st →
           is_NaN (rank_value ParseFloat attr (edge_attrs_at st e)) = false) →
     ∀ i j e e', (i < j)%nat → out !! i = Some e → out !! j = Some e' →
       float64_ge (rank_value ParseFloat attr (edge_attrs_at st e))
                  (rank_value ParseFloat attr (edge_attrs_at st e')) = true).
Proof.
  intros Hrun.
  destruct (collect ParseFloat (edge_attrs st) attr (Edges st) ([], []))
    as [r|msg] eqn:Hr.
  2:{ unfold EdgesByAttribute in Hrun. by rewrite Hr in Hrun. }
  rewrite (EdgesByAttribute_unfold attr st r Hr) in Hrun.
  pose proof (collect_spec ParseFloat (edge_attrs st) (edge_attrs_at st) attr
                (edge_attrs_at_Ok st) _ _ _ Hr) as Hspec.
  destruct r as [err|[es vs]]; [done|]. injection Hrun as <-.
  simpl in Hspec. destruct Hspec as (-> & -> & _).
  set (f := λ e, rank_value ParseFloat attr (edge_attrs_at st e)).
  set (d := mkEdgesByAttr (Edges st) (f <$> Edges st)).
  destruct (Sort_view sort_Sort _ eba_elems by_value
              (λ p : positive * float64, is_NaN p.2 = false) d
              sort_contract edgesByAttr_View by_value_StrictWeak)
    as (HP & Hperm & Hord).
  { simpl. by rewrite length_fmap. }
  apply (ranked_conclusion f (Edges st) _ (eba_vals (sort_Sort _ _ d)));
    [done | exact Hperm |].
  intros Hnan. apply Hord. apply Forall_forall. intros [n v] Hin.
  apply elem_of_zip_fmap in Hin as [Hin ->]. by apply Hnan.
Qed.

(** X26. When [ParseFloat] accepts every value carried for
    the attribute, [NodesByAttribute] (and likewise [EdgesByAttribute])
    returns a list; whenever it returns a list, the list holds every entity
    of the graph once, none dropped; an entity without the attribute is
    ranked by 0.0; and provided no entity is ranked by NaN, the list is
    sorted descending by the values the entities are ranked by. *)
Theorem ByAttribute_ranked (attr : string) (st : State) :
  (wf st →
   (∀ n v, n ∈ Nodes st → carries (attrs_at st n) attr v →
           (ParseFloat v).2 = None) →
   ∃ out, NodesByAttribute ParseFloat sort_Sort attr st = Ok (out, None))
  ∧ (∀ out, NodesByAttribute ParseFloat sort_Sort attr st = Ok (out, None) →
     out ≡ₚ Nodes st
     ∧ ((∀ n, n ∈ Nodes st →
              is_NaN (rank_value ParseFloat attr (attrs_at st n)) = false) →
        ∀ i j n m, (i < j)%nat → out !! i = Some n → out !! j = Some m →
          float64_ge (rank_value ParseFloat attr (attrs_at st n))
                     (rank_value ParseFloat attr (attrs_at st m)) = true))
  ∧ (wf st →
     (∀ e v, e ∈ Edges st → carries (edge_attrs_at st e) attr v →
             (ParseFloat v).2 = None) →
     ∃ out, EdgesByAttribute ParseFloat sort_Sort attr st = Ok (out, None))
  ∧ (∀ out, EdgesByAttribute ParseFloat sort_Sort attr st = Ok (out, None) →
     out ≡ₚ Edges st
     ∧ ((∀ e, e ∈ Edges st →
              is_NaN (rank_value ParseFloat attr (edge_attrs_at st e))
              = false) →
        ∀ i j e e', (i < j)%nat → out !! i = Some e → out !! j = Some e' →
          float64_ge (rank_value ParseFloat attr (edge_attrs_at st e))
                     (rank_value ParseFloat attr (edge_attrs_at st e'))
          = true))
  ∧ (∀ a, attr ∉ keys a → rank_value ParseFloat attr a = float64_zero).
Proof.
  split_and!.
  - apply NodesByAttribute_succeeds.
  - intros out. apply NodesByAttribute_ranked.
  - apply EdgesByAttribute_succeeds.
  - intros out. apply EdgesByAttribute_ranked.
  - intros a. apply rank_value_missing.
Qed.

End RankingClaims.

(** *** The samples *)

Lemma update_attrs_wf f p st : wf st → wf (update_attrs f p st).
Proof.
  intros Hwf. apply (wf_set_attrs st); try done.
  intros q. rewrite update_attrs_lookup. case_decide.
  - by eexists.
  - exists (λ a, a). by rewrite set_attrs_id.
Qed.

Lemma sample_three_wf : wf sample_three.
Proof. unfold sample_three. do 3 apply add_node_wf. apply wf_empty. Qed.

Lemma sample_scored_wf : wf sample_scored.
Proof.
  unfold sample_scored, set_score. do 3 apply update_attrs_wf.
  apply sample_three_wf.
Qed.

Lemma sample_bad_wf : wf sample_bad.
Proof.
  unfold sample_bad, set_score. do 2 apply update_attrs_wf.
  apply sample_three_wf.
Qed.

Lemma sample_nan_wf : wf sample_nan.
Proof.
  unfold sample_nan, set_score. do 3 apply update_attrs_wf.
  apply sample_three_wf.
Qed.

(** The claim of C1 fails on [sample_nan], whose nodes are enumerated with
    the scores 1.0, NaN, 2.0: [sort.Sort] on three elements is the
    insertion sort, every comparison with NaN is false, nothing moves, and
    the list returned has the node ranked 1.0 before the node ranked
    2.0. *)
Lemma NodesByAttribute_NaN_unsorted :
  NodesByAttribute sample_ParseFloat insertion_Sort "score" sample_nan
  = Ok ([3%positive; 2%positive; 1%positive], None)
  ∧ rank_value sample_ParseFloat "score" (attrs_at sample_nan 3)
    = float64_of_Z 1
  ∧ rank_value sample_ParseFloat "score" (attrs_at sample_nan 2) = S754_nan
  ∧ rank_value sample_ParseFloat "score" (attrs_at sample_nan 1)
    = float64_of_Z 2
  ∧ float64_ge (float64_of_Z 1) (float64_of_Z 2) = false
  ∧ float64_gt (float64_of_Z 2) (float64_of_Z 1) = true.
Proof. vm_compute. done. Qed.

(** A value strictly greater than another is not ranked below it. *)
Lemma float64_gt_not_ge (x y : float64) :
  float64_gt y x = true → float64_ge x y = false.
Proof.
  intros Hgt.
  destruct (is_NaN x) eqn:Hx.
  { destruct x; try done. }
  destruct (is_NaN y) eqn:Hy.
  { destruct y; try done. }
  unfold float64_gt in Hgt. apply SFltb_key in Hgt; [|done|done].
  unfold float64_ge. destruct (SFleb y x) eqn:Hle; [|done].
  apply SFleb_key in Hle; [|done|done]. done.
Qed.

(** C1 (the defect). On a well-formed graph whose three nodes are
    enumerated as [n1], [n2], [n3], all with values [ParseFloat] accepts,
    the second ranked by NaN and the third by a value strictly greater
    than that of the first: [NodesByAttribute], with [sort.Sort] running
    the insertion sort it runs on short slices, returns the nodes in the
    order of enumeration. The list is not sorted descending: [n1] comes
    before [n3], whose value is greater. *)
Theorem NodesByAttribute_NaN_not_descending
    (ParseFloat : string → float64 * option error) (attr : string)
    (st : State) (n1 n2 n3 : NodePtr) :
  wf st → Nodes st = [n1; n2; n3] →
  (∀ n v, n ∈ Nodes st → carries (attrs_at st n) attr v →
          (ParseFloat v).2 = None) →
  is_NaN (rank_value ParseFloat attr (attrs_at st n2)) = true →
  float64_gt (rank_value ParseFloat attr (attrs_at st n3))
             (rank_value ParseFloat attr (attrs_at st n1)) = true →
  NodesByAttribute ParseFloat insertion_Sort attr st
  = Ok ([n1; n2; n3], None)
  ∧ float64_ge (rank_value ParseFloat attr (attrs_at st n1))
               (rank_value ParseFloat attr (attrs_at st n3)) = false.
Proof.
  intros Hwf HN Hall Hnan Hgt. split; [|by apply float64_gt_not_ge].
  destruct (collect_nodes_total ParseFloat attr st Hwf) as [r Hr].
  pose proof (collect_spec ParseFloat (node_attrs st) (attrs_at st) attr
                (node_attrs_at st) _ _ _ Hr) as Hs.
  rewrite (NodesByAttribute_unfold ParseFloat insertion_Sort attr st r Hr).
  destruct r as [err|[ns vs]].
  - destruct Hs as (n & v & Hin & Hl & Herr).
    rewrite (Hall n v Hin Hl) in Herr. done.
  - destruct Hs as (-> & -> & _). rewrite HN. simpl.
    destruct (rank_value ParseFloat attr (attrs_at st n2)); try done.
    unfold insertion_Sort, insertionSort. simpl.
    unfold vals_Less. simpl.
    rewrite (proj1 (float64_gt_NaN _)). done.
Qed.

Lemma NodesByAttribute_NaN_not_descending_witness :
  NodesByAttribute sample_ParseFloat insertion_Sort "score" sample_nan
  = Ok ([3%positive; 2%positive; 1%positive], None)
  ∧ float64_ge (rank_value sample_ParseFloat "score" (attrs_at sample_nan 3))
               (rank_value sample_ParseFloat "score" (attrs_at sample_nan 1))
    = false.
Proof.
  apply (NodesByAttribute_NaN_not_descending sample_ParseFloat "score"
           sample_nan 3 2 1 sample_nan_wf).
  - reflexivity.
  - intros n v Hn Hv. vm_compute in Hn.
    repeat (apply elem_of_cons in Hn as [->|Hn]);
      try (vm_compute in Hv; injection Hv as <-; vm_compute; reflexivity).
    by apply elem_of_nil in Hn.
  - reflexivity.
  - reflexivity.
Defined.

(** The ranking example: scores 3.0, 1.0, 2.0 come out as 3.0, 2.0,
    1.0. *)
Lemma ByAttribute_ranked_witness :
  NodesByAttribute sample_ParseFloat insertion_Sort "score" sample_scored
  = Ok ([1%positive; 3%positive; 2%positive], None)
  ∧ (∃ out, NodesByAttribute sample_ParseFloat insertion_Sort "score"
              sample_scored = Ok (out, None))
  ∧ [1%positive; 3%positive; 2%positive] ≡ₚ Nodes sample_scored
  ∧ (∀ i j n m, (i < j)%nat →
       [1%positive; 3%positive; 2%positive] !! i = Some n →
       [1%positive; 3%positive; 2%positive] !! j = Some m →
       float64_ge (rank_value sample_ParseFloat "score" (attrs_at sample_scored n))
                  (rank_value sample_ParseFloat "score" (attrs_at sample_scored m))
       = true).
Proof.
  assert (NodesByAttribute sample_ParseFloat insertion_Sort "score" sample_scored
          = Ok ([1%positive; 3%positive; 2%positive], None)) as Hrun.
  { vm_compute. reflexivity. }
  split; [exact Hrun|].
  destruct (ByAttribute_ranked sample_ParseFloat insertion_Sort
              insertion_Sort_contract "score" sample_scored)
    as (H0 & H1 & _).
  split.
  { apply H0; [exact sample_scored_wf|].
    intros n v Hn Hv. vm_compute in Hn.
    repeat (apply elem_of_cons in Hn as [->|Hn]);
      try (vm_compute in Hv; injection Hv as <-; vm_compute; reflexivity).
    by apply elem_of_nil in Hn. }
  destruct (H1 _ Hrun) as [Hperm Hord].
  split; [exact Hperm|]. apply Hord.
  intros n Hn. vm_compute in Hn.
  repeat (apply elem_of_cons in Hn as [->|Hn]); try (vm_compute; reflexivity).
  by apply elem_of_nil in Hn.
Defined.

Lemma ByAttribute_parse_errors_witness :
  (∃ out, NodesByAttribute sample_ParseFloat insertion_Sort "score"
            sample_scored = Ok (out, None))
  ∧ (∃ n' v' err',
       n' ∈ Nodes sample_bad ∧ carries (attrs_at sample_bad n') "score" v'
       ∧ (sample_ParseFloat v').2 = Some err'
       ∧ NodesByAttribute sample_ParseFloat insertion_Sort "score" sample_bad
         = Ok ([], Some err')).
Proof.
  split.
  - destruct (ByAttribute_parse_errors sample_ParseFloat insertion_Sort
                "score" sample_scored sample_scored_wf) as (H1 & _).
    apply H1. intros n v Hn Hv. vm_compute in Hn.
    repeat (apply elem_of_cons in Hn as [->|Hn]);
      try (vm_compute in Hv; injection Hv as <-; vm_compute; reflexivity).
    by apply elem_of_nil in Hn.
  - destruct (ByAttribute_parse_errors sample_ParseFloat insertion_Sort
                "score" sample_bad sample_bad_wf) as (_ & H2 & _).
    apply (H2 2%positive "high" (NumError "ParseFloat" "high" "invalid syntax")).
    + vm_compute. right. left.
    + reflexivity.
    + reflexivity.
Defined.

(** * Further properties *)

(** A decidable proposition about closed terms, settled by evaluation. *)
Ltac by_compute := apply (bool_decide_unpack _); vm_compute; exact I.

(** ** Attribute bags: how [Set] calls compose *)

Section SetFacts.

Implicit Types (a : Attributes) (k v : string) (kv : Attribute).

Lemma Get_app a b k :
  Get (a ++ b) k = if decide (k ∈ keys a) then Get a k else Get b k.
Proof.
  case_decide; [by apply Get_app_present | by apply Get_app_absent].
Qed.

Lemma keys_cons kv a : keys (kv :: a) = Key kv :: keys a.
Proof. reflexivity. Qed.

Lemma Set_present_nonempty pre x post v :
  Key x ∉ keys pre → v ≠ "" →
  Set_ (pre ++ x :: post) (Key x) v = pre ++ mkAttr (Key x) v :: post.
Proof.
  intros Hpre Hv. unfold Set_.
  by rewrite (SetAttribute_overwrite pre x post (mkAttr (Key x) v)).
Qed.

Lemma Set_absent a k v : k ∉ keys a → Set_ a k v = a ++ [mkAttr k v].
Proof. intros Hk. unfold Set_. by rewrite SetAttribute_absent. Qed.

Lemma Set_nonempty_keys a k v :
  v ≠ "" →
  keys (Set_ a k v) = if decide (k ∈ keys a) then keys a else keys a ++ [k].
Proof.
  intros Hv. case_decide as Hk.
  - destruct (present_split a k Hk) as (pre & x & post & -> & <- & Hpre).
    rewrite Set_present_nonempty by done.
    by rewrite !keys_app, !keys_cons.
  - rewrite Set_absent by done. by rewrite keys_app.
Qed.

Lemma Set_nonempty_other a k v k' :
  v ≠ "" → k' ≠ k → Get (Set_ a k v) k' = Get a k'.
Proof.
  intros Hv Hne. destruct (decide (k ∈ keys a)) as [Hk|Hk].
  - destruct (present_split a k Hk) as (pre & x & post & -> & <- & Hpre).
    rewrite Set_present_nonempty by done. rewrite !Get_app.
    case_decide; [done|]. rewrite !Get_cons. simpl.
    by rewrite !bool_decide_eq_false_2 by done.
  - rewrite Set_absent by done. rewrite Get_app. case_decide; [done|].
    rewrite Get_cons. simpl. rewrite bool_decide_eq_false_2 by done.
    simpl. symmetry. by apply Get_absent.
Qed.

Lemma Set_nonempty_here a k v : v ≠ "" → Get (Set_ a k v) k = v.
Proof. intros Hv. by apply (Get_SetAttribute_nonempty a (mkAttr k v)). Qed.

Lemma without_absent k a : k ∉ keys a → without k a = a.
Proof.
  unfold without. induction a as [|x a IH]; [done|]. rewrite keys_cons.
  intros [Hx Ha]%not_elem_of_cons. rewrite filter_cons_True by done.
  by rewrite IH.
Qed.

Lemma without_app k a b : without k (a ++ b) = without k a ++ without k b.
Proof. unfold without. apply filter_app. Qed.

End SetFacts.

(** X1. Setting a key to a non-empty value, on any slice of attributes:
    [Get] of the key then returns the value, [Get] of every other key
    returns what it did, and the keys stay in their order, the new key
    last when it was not there. *)
Theorem Set_nonempty_frame (a : Attributes) (k v : string) :
  v ≠ "" →
  Get (Set_ a k v) k = v
  ∧ (∀ k', k' ≠ k → Get (Set_ a k v) k' = Get a k')
  ∧ keys (Set_ a k v) = (if decide (k ∈ keys a) then keys a else keys a ++ [k]).
Proof.
  intros Hv. split_and!.
  - by apply Set_nonempty_here.
  - intros k' Hk'. by apply Set_nonempty_other.
  - by apply Set_nonempty_keys.
Qed.

Lemma Set_nonempty_frame_witness :
  Get (Set_ [mkAttr "a" "1"; mkAttr "b" "2"] "a" "3") "a" = "3"
  ∧ Get (Set_ [mkAttr "a" "1"; mkAttr "b" "2"] "a" "3") "b" = "2"
  ∧ keys (Set_ [mkAttr "a" "1"; mkAttr "b" "2"] "a" "3") = ["a"; "b"].
Proof.
  destruct (Set_nonempty_frame [mkAttr "a" "1"; mkAttr "b" "2"] "a" "3")
    as (H1 & H2 & H3); [discriminate|].
  split_and!; [exact H1 | by apply H2 | reflexivity].
Defined.

(** X2. Unsetting a key that a bag with distinct keys holds removes its
    pair and nothing else: what is left are the other pairs (the last one
    moved into the slot of the removed one), one pair fewer, and [Get] of
    every other key returns what it did. *)
Theorem Set_empty_removes (a : Attributes) (k : string) :
  NoDup (keys a) → k ∈ keys a →
  Set_ a k "" ≡ₚ without k a
  ∧ (k ∉ keys (Set_ a k ""))
  ∧ S (length (Set_ a k "")) = length a
  ∧ (∀ k', k' ≠ k → Get (Set_ a k "") k' = Get a k').
Proof.
  intros Hnd Hk.
  destruct (present_split a k Hk) as (pre & x & post & -> & <- & Hpre).
  assert (Key x ∉ keys post) as Hpost.
  { rewrite keys_app, keys_cons in Hnd.
    apply NoDup_app in Hnd as (_ & _ & Hnd). by apply NoDup_cons in Hnd as [? _]. }
  unfold Set_.
  rewrite (SetAttribute_delete pre x post (mkAttr (Key x) "")) by done.
  split_and!.
  - rewrite swap_delete_Permutation, without_app.
    unfold without at 2. rewrite filter_cons_False by (by intros []).
    fold (without (Key x) post). by rewrite !without_absent.
  - intros Hin. unfold keys in Hin.
    rewrite swap_delete_Permutation, fmap_app in Hin.
    apply elem_of_app in Hin as [?|?]; done.
  - rewrite swap_delete_length, !length_app. simpl. lia.
  - intros k' Hk'.
    rewrite <- (SetAttribute_delete pre x post (mkAttr (Key x) "")) by done.
    by apply Get_SetAttribute_other.
Qed.

Lemma Set_empty_removes_witness :
  Set_ [mkAttr "a" "1"; mkAttr "b" "2"; mkAttr "c" "3"] "a" ""
  = [mkAttr "c" "3"; mkAttr "b" "2"]
  ∧ Set_ [mkAttr "a" "1"; mkAttr "b" "2"; mkAttr "c" "3"] "a" ""
    ≡ₚ without "a" [mkAttr "a" "1"; mkAttr "b" "2"; mkAttr "c" "3"].
Proof.
  split; [reflexivity|].
  apply (Set_empty_removes [mkAttr "a" "1"; mkAttr "b" "2"; mkAttr "c" "3"] "a").
  - by_compute.
  - by_compute.
Defined.

(** X3. Of two [Set] calls with non-empty values for the same key the
    second wins: the result is that of the second call alone, on any
    slice. *)
Theorem Set_last_write_wins (a : Attributes) (k v v' : string) :
  v ≠ "" → v' ≠ "" → Set_ (Set_ a k v) k v' = Set_ a k v'.
Proof.
  intros Hv Hv'. destruct (decide (k ∈ keys a)) as [Hk|Hk].
  - destruct (present_split a k Hk) as (pre & x & post & -> & <- & Hpre).
    rewrite (Set_present_nonempty pre x post v) by done.
    rewrite (Set_present_nonempty pre x post v') by done.
    exact (Set_present_nonempty pre (mkAttr (Key x) v) post v' Hpre Hv').
  - rewrite (Set_absent a k v), (Set_absent a k v') by done.
    exact (Set_present_nonempty a (mkAttr k v) [] v' Hk Hv').
Qed.

Lemma Set_last_write_wins_witness :
  Set_ (Set_ [mkAttr "a" "1"] "b" "2") "b" "3" = Set_ [mkAttr "a" "1"] "b" "3".
Proof.
  apply (Set_last_write_wins [mkAttr "a" "1"] "b" "2" "3"); discriminate.
Defined.

(** X4. Setting a key the slice does not hold, to any value, and then
    unsetting it gives back the slice as it was. With the empty value for
    both calls: the first call appends an empty pair, the second removes
    it. *)
Theorem Set_then_unset (a : Attributes) (k v : string) :
  k ∉ keys a → Set_ (Set_ a k v) k "" = a.
Proof.
  intros Hk. rewrite (Set_absent a k v) by done. unfold Set_.
  rewrite (SetAttribute_delete a (mkAttr k v) [] (mkAttr k "")) by done.
  by rewrite swap_delete_split.
Qed.

Lemma Set_then_unset_witness :
  Set_ (Set_ [mkAttr "a" "1"] "k" "") "k" "" = [mkAttr "a" "1"].
Proof.
  apply (Set_then_unset [mkAttr "a" "1"] "k" "").
  by_compute.
Defined.

(** X5. Two [Set] calls with non-empty values for different keys can be
    made in either order: [Get] returns the same for every key, and the
    same keys are held. *)
Theorem Set_commute (a : Attributes) (k1 v1 k2 v2 : string) :
  k1 ≠ k2 → v1 ≠ "" → v2 ≠ "" →
  (∀ k, Get (Set_ (Set_ a k1 v1) k2 v2) k = Get (Set_ (Set_ a k2 v2) k1 v1) k)
  ∧ keys (Set_ (Set_ a k1 v1) k2 v2) ≡ₚ keys (Set_ (Set_ a k2 v2) k1 v1).
Proof.
  intros Hne Hv1 Hv2. split.
  - intros k. destruct (decide (k = k2)) as [->|Hk2].
    + rewrite Set_nonempty_here by done.
      rewrite Set_nonempty_other by done. by rewrite Set_nonempty_here.
    + rewrite (Set_nonempty_other (Set_ a k1 v1) k2 v2 k) by done.
      destruct (decide (k = k1)) as [->|Hk1].
      * by rewrite !Set_nonempty_here.
      * by rewrite !Set_nonempty_other.
  - rewrite !Set_nonempty_keys by done.
    assert (k2 ∈ keys a ++ [k1] ↔ k2 ∈ keys a) as H21.
    { rewrite elem_of_app, list_elem_of_singleton. intuition congruence. }
    assert (k1 ∈ keys a ++ [k2] ↔ k1 ∈ keys a) as H12.
    { rewrite elem_of_app, list_elem_of_singleton. intuition congruence. }
    repeat case_decide; try done; try tauto.
    rewrite <- !(assoc_L (++)). apply Permutation_app_head, perm_swap.
Qed.

Lemma Set_commute_witness :
  Get (Set_ (Set_ [] "a" "1") "b" "2") "a"
  = Get (Set_ (Set_ [] "b" "2") "a" "1") "a".
Proof.
  destruct (Set_commute [] "a" "1" "b" "2") as [H _]; try discriminate.
  apply H.
Defined.

(** ** Node attributes as the decoder sets them *)

Section NodeAttrFacts.

Implicit Types (st : State) (n : NodePtr).

Lemma attrs_at_update f n st m :
  is_Some (nodeObjs st !! n) →
  attrs_at (update_attrs f n st) m
  = if decide (m = n) then f (attrs_at st n) else attrs_at st m.
Proof.
  intros [o Ho]. unfold attrs_at. rewrite update_attrs_lookup.
  case_decide as Hm; [|done]. subst m. by rewrite Ho.
Qed.

Lemma update_attrs_allocated f n st m :
  is_Some (nodeObjs (update_attrs f n st) !! m) ↔ is_Some (nodeObjs st !! m).
Proof.
  rewrite update_attrs_lookup. case_decide; [|done].
  by rewrite fmap_is_Some.
Qed.

Lemma decode_with_spec (g : Attribute → Attributes → Attributes) n attrs :
  ∀ st, is_Some (nodeObjs st !! n) →
  ∃ st',
    decode_with (λ n attr, write_node_attrs (g attr) n) n attrs st = Ok st'
    ∧ graph st' = graph st ∧ edgeObjs st' = edgeObjs st
    ∧ (∀ m, is_Some (nodeObjs st' !! m) ↔ is_Some (nodeObjs st !! m))
    ∧ attrs_at st' n = foldl (λ a attr, g attr a) (attrs_at st n) attrs
    ∧ ∀ m, m ≠ n → attrs_at st' m = attrs_at st m.
Proof.
  unfold decode_with.
  induction attrs as [|attr attrs IH]; intros st Hn; simpl.
  - exists st. by split_and!.
  - destruct Hn as [o Ho].
    assert (write_node_attrs (g attr) n st = Ok (update_attrs (g attr) n st))
      as -> by (unfold write_node_attrs; by rewrite Ho).
    simpl.
    destruct (IH (update_attrs (g attr) n st)) as (st' & Hrun & Hg & He & Hal & Hat & Hoth).
    { apply update_attrs_allocated. by eexists. }
    exists st'. split_and!; try done.
    + intros m. rewrite Hal. apply update_attrs_allocated.
    + rewrite Hat. rewrite attrs_at_update by (by eexists).
      by rewrite decide_True.
    + intros m Hm. rewrite Hoth by done.
      rewrite attrs_at_update by (by eexists). by rewrite decide_False.
Qed.

Lemma foldl_snoc_attrs a (attrs : list Attribute) :
  foldl (λ a attr, a ++ [attr]) a attrs = a ++ attrs.
Proof.
  revert a. induction attrs as [|x attrs IH]; intros a; simpl.
  - by rewrite app_nil_r.
  - rewrite IH. by rewrite <- (assoc_L (++)).
Qed.

Lemma foldl_SetAttribute_NoDup a (attrs : list Attribute) :
  NoDup (keys a) → NoDup (keys (foldl SetAttribute a attrs)).
Proof.
  revert a. induction attrs as [|x attrs IH]; intros a Ha; simpl; [done|].
  by apply IH, SetAttribute_NoDup.
Qed.

Lemma foldl_SetAttribute_other a (attrs : list Attribute) k :
  NoDup (keys a) → k ∉ keys attrs →
  Get (foldl SetAttribute a attrs) k = Get a k.
Proof.
  revert a. induction attrs as [|x attrs IH]; intros a Ha Hk; simpl; [done|].
  rewrite keys_cons in Hk. apply not_elem_of_cons in Hk as [Hx Hk].
  rewrite IH by (by try apply SetAttribute_NoDup).
  by apply Get_SetAttribute_other.
Qed.

End NodeAttrFacts.

(** X6. In the first two revisions the decoder's attribute setter of a
    node appends: after a sequence of calls the node holds its old
    attributes followed by the new ones, repeated keys included, and [Get]
    of a key the node held before still returns the old value, whatever
    was decoded for it. *)
Theorem UnmarshalDOTAttr_appends (st : State) (n : NodePtr)
    (attrs : list Attribute) :
  is_Some (nodeObjs st !! n) →
  ∃ st',
    decode_with UnmarshalDOTAttr n attrs st = Ok st'
    ∧ graph st' = graph st
    ∧ attrs_at st' n = attrs_at st n ++ attrs
    ∧ (∀ k, k ∈ keys (attrs_at st n) →
            Get (attrs_at st' n) k = Get (attrs_at st n) k)
    ∧ (∀ m, m ≠ n → attrs_at st' m = attrs_at st m).
Proof.
  intros Hn.
  destruct (decode_with_spec (λ attr a, a ++ [attr]) n attrs st Hn)
    as (st' & Hrun & Hg & _ & _ & Hat & Hoth).
  exists st'. rewrite foldl_snoc_attrs in Hat. split_and!; try done.
  intros k Hk. rewrite Hat. by apply Get_app_present.
Qed.

Lemma UnmarshalDOTAttr_appends_witness :
  ∃ st',
    decode_with UnmarshalDOTAttr 1 [mkAttr "score" "9.0"] sample_scored
    = Ok st'
    ∧ attrs_at st' 1 = [mkAttr "score" "3.0"; mkAttr "score" "9.0"]
    ∧ Get (attrs_at st' 1) "score" = "3.0".
Proof.
  destruct (UnmarshalDOTAttr_appends sample_scored 1 [mkAttr "score" "9.0"])
    as (st' & Hrun & _ & Hat & Hget & _).
  - vm_compute. by eexists.
  - exists st'. split_and!; [exact Hrun | exact Hat |].
    apply Hget. by_compute.
Defined.

(** X7. In the latest revision the attribute setter of a node is that of
    its bag: after a sequence of calls on a node with distinct keys the
    keys are still distinct, a key whose last decoded value is non-empty
    reads as that value, and a key that was not decoded reads as
    before. *)
Theorem Node_SetAttribute_overrides (st : State) (n : NodePtr)
    (attrs : list Attribute) :
  is_Some (nodeObjs st !! n) → NoDup (keys (attrs_at st n)) →
  ∃ st',
    decode_with Node_SetAttribute n attrs st = Ok st'
    ∧ graph st' = graph st
    ∧ NoDup (keys (attrs_at st' n))
    ∧ (∀ attrs1 kv attrs2,
         attrs = attrs1 ++ kv :: attrs2 → Key kv ∉ keys attrs2 →
         Value kv ≠ "" → Get (attrs_at st' n) (Key kv) = Value kv)
    ∧ (∀ k, k ∉ keys attrs →
            Get (attrs_at st' n) k = Get (attrs_at st n) k)
    ∧ (∀ m, m ≠ n → attrs_at st' m = attrs_at st m).
Proof.
  intros Hn Hnd.
  destruct (decode_with_spec (λ attr a, SetAttribute a attr) n attrs st Hn)
    as (st' & Hrun & Hg & _ & _ & Hat & Hoth).
  exists st'. split_and!; try done.
  - rewrite Hat. by apply foldl_SetAttribute_NoDup.
  - intros attrs1 kv attrs2 -> Hk Hv. rewrite Hat.
    rewrite foldl_app. simpl.
    rewrite foldl_SetAttribute_other; [by apply Get_SetAttribute_nonempty| |done].
    by apply SetAttribute_NoDup, foldl_SetAttribute_NoDup.
  - intros k Hk. rewrite Hat. by apply foldl_SetAttribute_other.
Qed.

Lemma Node_SetAttribute_overrides_witness :
  ∃ st',
    decode_with Node_SetAttribute 1 [mkAttr "score" "9.0"] sample_scored
    = Ok st'
    ∧ Get (attrs_at st' 1) "score" = "9.0".
Proof.
  destruct (Node_SetAttribute_overrides sample_scored 1 [mkAttr "score" "9.0"])
    as (st' & Hrun & _ & _ & Hget & _).
  - vm_compute. by eexists.
  - by_compute.
  - exists st'. split; [exact Hrun|].
    apply (Hget [] (mkAttr "score" "9.0") []); [reflexivity| |discriminate].
    apply not_elem_of_nil.
Defined.

(** ** Nodes and edges of the graph *)

Section GraphMoreFacts.

Implicit Types (st : State) (n : NodePtr).




Lemma Edges_elem_iff st e :
  wf st →
  e ∈ Edges st ↔
  ∃ u v, simple.edges (UndirectedGraph (graph st)) !! (u, v) = Some e.
Proof.
  intros Hwf. split; [apply Edges_elem|].
  intros (u & v & He). unfold Edges, simple.Edges.
  apply list_elem_of_fmap.
  destruct (decide (u < v)) as [Hlt|Hge].
  - exists ((u, v), e). split; [done|].
    apply elem_of_map_to_list, map_lookup_filter_Some. by split.
  - exists ((v, u), e). split; [done|].
    apply elem_of_map_to_list, map_lookup_filter_Some.
    split; [by apply (wf_symmetric _ Hwf)|]. simpl.
    assert (u ≠ v); [|lia].
    intros ->. by rewrite (wf_no_self_edge _ Hwf) in He.
Qed.



End GraphMoreFacts.

(** X8. On a well-formed graph [NodeMap] returns the registered nodes
    under their IDs: a lookup in the map is the lookup [g.Node(id)], every
    node of the map has the ID it is stored under, and the nodes of the map
    are the enumerated ones. *)
Theorem NodeMap_lookup (st : State) :
  wf st →
  ∃ m, NodeMap st = Ok m
    ∧ (∀ id, m !! id = Node_by_ID st id)
    ∧ (∀ id n, m !! id = Some n → ID st n = Ok id)
    ∧ (∀ n, n ∈ Nodes st ↔ ∃ id, m !! id = Some n).
Proof.
  intros Hwf. exists (simple.nodes (UndirectedGraph (graph st))).
  split_and!.
  - by apply NodeMap_wf.
  - done.
  - apply (wf_nodes _ Hwf).
  - apply Nodes_elem.
Qed.

Lemma NodeMap_lookup_witness :
  ∃ m, NodeMap sample_three = Ok m
    ∧ m !! 1 = Some 2%positive
    ∧ ID sample_three 2 = Ok 1.
Proof.
  destruct (NodeMap_lookup sample_three sample_three_wf)
    as (m & Hm & Hl & Hid & _).
  exists m. split; [exact Hm|].
  assert (m !! 1 = Some 2%positive) as H by (rewrite Hl; reflexivity).
  split; [exact H | exact (Hid _ _ H)].
Defined.







(** ** The induced view *)

Section PruneMoreFacts.

Context {A : Type} (keep : A → Result bool).

Lemma swap_delete_shape (pre : list A) x post :
  ∃ post', swap_delete (length pre) (pre ++ x :: post) = pre ++ post'
           ∧ post' ≡ₚ post.
Proof.
  rewrite swap_delete_split. destruct (last post) as [y|] eqn:Hl.
  - apply last_Some in Hl as [l' ->]. exists (y :: removelast (l' ++ [y])).
    split; [done|]. rewrite removelast_last.
    by rewrite Permutation_app_comm.
  - apply last_None in Hl as ->. exists []. by rewrite app_nil_r.
Qed.

(** The pruning loop returns, in some order, the entries it was given up
    to [i] and the kept ones of the rest. *)
Lemma prune_Permutation fuel : ∀ i (n out : list A),
  (length n - i ≤ fuel)%nat →
  prune keep fuel i n = Ok out →
  out ≡ₚ take i n ++ filter (λ x, kept keep x = true) (drop i n).
Proof.
  induction fuel as [|fuel IH]; intros i n out Hlen; simpl.
  - intros [= <-]. rewrite take_ge, drop_ge by lia. by rewrite app_nil_r.
  - destruct (n !! i) as [x|] eqn:Hx.
    2:{ intros [= <-]. apply lookup_ge_None in Hx.
        rewrite take_ge, drop_ge by lia. by rewrite app_nil_r. }
    destruct (keep x) as [[|]|] eqn:Hk; simpl; [| |done].
    + intros Hrun. apply IH in Hrun; [|lia]. rewrite Hrun.
      rewrite (take_S_r _ _ _ Hx), (drop_S _ _ _ Hx).
      rewrite filter_cons_True by (unfold kept; by rewrite Hk).
      by rewrite <- (assoc_L (++)).
    + intros Hrun.
      apply list_elem_of_split_length in Hx as (pre & post & -> & ->).
      destruct (swap_delete_shape pre x post) as (post' & Heq & Hperm).
      rewrite Heq in Hrun.
      assert (length post' = length post) as Hl by by rewrite Hperm.
      rewrite length_app in Hlen. simpl in Hlen.
      apply IH in Hrun; [|rewrite length_app; lia]. rewrite Hrun.
      rewrite !take_app_length, !drop_app_length.
      rewrite filter_cons_False by (unfold kept; by rewrite Hk).
      by rewrite Hperm.
Qed.

End PruneMoreFacts.

Section InducedMoreFacts.

Implicit Types (st : State) (i : nodeInducedGraph).

Lemma kept_node i st n :
  kept (λ p, id ← ID st p; Ok (is_selected i id)) n = selected_node i st n.
Proof.
  unfold kept, selected_node. destruct (ID st n); simpl; [|done].
  by destruct (is_selected i a).
Qed.

Lemma kept_edge i st e :
  kept (λ p, fid ← From_ID st p;
             if negb (is_selected i fid) then Ok false
             else tid ← To_ID st p; Ok (is_selected i tid)) e
  = selected_edge i st e.
Proof.
  unfold kept, selected_edge. destruct (From_ID st e) as [fid|]; simpl; [|done].
  destruct (is_selected i fid); simpl; [|by destruct (To_ID st e)].
  destruct (To_ID st e) as [tid|]; simpl; [|done].
  by destruct (is_selected i tid).
Qed.

Lemma filter_ext_bool {A} (f g : A → bool) (l : list A) :
  (∀ x, f x = g x) →
  filter (λ x, f x = true) l = filter (λ x, g x = true) l.
Proof.
  intros H. apply list_filter_iff. intros x. by rewrite H.
Qed.

(** The nodes of the view: the selected ones among a list of nodes that
    all have an ID. *)
Lemma prune_nodes i st (l : list NodePtr) :
  (∀ n, n ∈ l → ∃ id, ID st n = Ok id) →
  ∃ ns,
    prune (λ p, id ← ID st p; Ok (is_selected i id)) (length l) 0 l = Ok ns
    ∧ ns ≡ₚ filter (λ n, selected_node i st n = true) l.
Proof.
  intros Hid.
  set (keep := λ p : NodePtr, id ← ID st p; Ok (is_selected i id)).
  destruct (prune_total keep (length l) 0 l) as [ns Hns].
  { intros n [id Hn]%Hid. unfold keep. rewrite Hn. by eexists. }
  exists ns. split; [done|].
  apply prune_Permutation in Hns; [|lia]. rewrite Hns.
  rewrite take_0, drop_0. simpl.
  by rewrite (filter_ext_bool _ _ _ (kept_node i st)).
Qed.

Lemma Nodes_have_ID st n : wf st → n ∈ Nodes st → ∃ id, ID st n = Ok id.
Proof.
  intros Hwf (id & Hid)%Nodes_elem. exists id. by apply (wf_nodes _ Hwf).
Qed.

Lemma From_elem st id n :
  n ∈ From st id ↔
  ∃ v e, EdgeBetween st id v = Some e ∧ Node_by_ID st v = Some n.
Proof.
  unfold From, adjacency.From, EdgeBetween, simple.EdgeBetween,
    Node_by_ID, simple.Node.
  rewrite list_elem_of_omap. split.
  - intros ([[u v] e] & Hin%elem_of_map_to_list & Hn). simpl in Hn.
    case_bool_decide; [|done]. subst u. by exists v, e.
  - intros (v & e & He & Hn). exists ((id, v), e).
    split; [by apply elem_of_map_to_list|]. simpl.
    by rewrite bool_decide_eq_true_2.
Qed.

Lemma From_have_ID st id n :
  wf st → n ∈ From st id → ∃ idn, ID st n = Ok idn.
Proof.
  intros Hwf (v & e & _ & Hn)%From_elem. exists v.
  by apply (wf_nodes _ Hwf).
Qed.

Lemma Edges_have_ends st e :
  wf st → e ∈ Edges st →
  ∃ u v, simple.edges (UndirectedGraph (graph st)) !! (u, v) = Some e
         ∧ From_ID st e = Ok u ∧ To_ID st e = Ok v.
Proof.
  intros Hwf (u & v & He)%Edges_elem.
  destruct (wf_edges _ Hwf u v e He) as [_ [[HF HT]|[HF HT]]].
  - by exists u, v.
  - exists v, u. split; [by apply (wf_symmetric _ Hwf)|done].
Qed.

Lemma prune_edges i st :
  wf st →
  ∃ es, Induced.Edges i st = Ok es
        ∧ es ≡ₚ filter (λ e, selected_edge i st e = true) (Edges st).
Proof.
  intros Hwf. unfold Induced.Edges.
  set (keep := λ p : EdgePtr,
         fid ← From_ID st p;
         if negb (is_selected i fid) then Ok false
         else tid ← To_ID st p; Ok (is_selected i tid)).
  destruct (prune_total keep (length (Edges st)) 0 (Edges st)) as [es Hes].
  { intros e (u & v & _ & HF & HT)%Edges_have_ends; [|done].
    unfold keep. rewrite HF. simpl.
    destruct (is_selected i u); simpl; [|by eexists].
    rewrite HT. by eexists. }
  exists es. split; [done|].
  apply prune_Permutation in Hes; [|lia]. rewrite Hes.
  rewrite take_0, drop_0. simpl.
  by rewrite (filter_ext_bool _ _ _ (kept_edge i st)).
Qed.

Lemma EdgeBetween_sym st x y :
  wf st → EdgeBetween st x y = EdgeBetween st y x.
Proof.
  intros Hwf. unfold EdgeBetween, simple.EdgeBetween.
  destruct (simple.edges (UndirectedGraph (graph st)) !! (x, y)) as [e|] eqn:H1.
  - symmetry. by apply (wf_symmetric _ Hwf).
  - destruct (simple.edges (UndirectedGraph (graph st)) !! (y, x))
      as [e|] eqn:H2; [|done].
    apply (wf_symmetric _ Hwf) in H2. congruence.
Qed.

Lemma selected_edge_true i st e u v :
  wf st → simple.edges (UndirectedGraph (graph st)) !! (u, v) = Some e →
  selected_edge i st e = is_selected i u && is_selected i v.
Proof.
  intros Hwf He. unfold selected_edge.
  destruct (wf_edges _ Hwf u v e He) as [_ [[-> ->]|[-> ->]]]; [done|].
  apply andb_comm.
Qed.

End InducedMoreFacts.

(** X12. The node enumeration of an induced view over a well-formed graph
    returns every selected node of the graph exactly once, in some order
    (the pruning loop moves the last entry into the slot of a dropped
    one): it is a permutation of the selected nodes of the graph and has
    no duplicates. *)
Theorem Induced_Nodes_once (i : nodeInducedGraph) (st : State) :
  wf st →
  ∃ ns, Induced.Nodes i st = Ok ns
    ∧ ns ≡ₚ filter (λ n, selected_node i st n = true) (Nodes st)
    ∧ NoDup ns
    ∧ (length ns ≤ length (Nodes st))%nat.
Proof.
  intros Hwf.
  destruct (prune_nodes i st (Nodes st)) as (ns & Hrun & Hperm).
  { intros n. by apply Nodes_have_ID. }
  exists ns. split_and!; [done|done| |].
  - rewrite Hperm. by apply NoDup_filter, Nodes_NoDup.
  - rewrite Hperm. apply length_filter.
Qed.

Lemma sample_star_wf : wf sample_star.
Proof.
  destruct (NewEdge_new sample_three 1 2 0 1 sample_three_wf)
    as (e1 & st1 & Heq1 & Hwf1 & _); try reflexivity; try discriminate.
  assert ((NewEdge 1 2 sample_three).2 = st1) as E1 by by rewrite Heq1.
  destruct (NewEdge_new st1 1 3 0 2 Hwf1)
    as (e2 & st2 & Heq2 & Hwf2 & _);
    try (rewrite <- E1; reflexivity); try discriminate.
  unfold sample_star. by rewrite E1, Heq2.
Qed.

Lemma Induced_Nodes_once_witness :
  ∃ ns, Induced.Nodes sample_star_view sample_star = Ok ns
    ∧ ns ≡ₚ filter (λ n, selected_node sample_star_view sample_star n = true)
              (Nodes sample_star)
    ∧ NoDup ns.
Proof.
  destruct (Induced_Nodes_once sample_star_view sample_star sample_star_wf)
    as (ns & H1 & H2 & H3 & _).
  exists ns. split_and!; [exact H1 | exact H2 | exact H3].
Defined.

(** X13. The successors of a node in an induced view are the selected
    nodes that the graph joins to it, each once for each entry, and this
    whether or not the node asked about is itself selected: [From] prunes
    the neighbours and never looks at its argument. *)
Theorem Induced_From_selected (i : nodeInducedGraph) (st : State) (id : Z) :
  wf st →
  ∃ ns, nodeInducedGraph_From i st id = Ok ns
    ∧ ns ≡ₚ filter (λ n, selected_node i st n = true) (From st id)
    ∧ ∀ n, n ∈ ns ↔
           ∃ v e, EdgeBetween st id v = Some e ∧ Node_by_ID st v = Some n
                  ∧ is_selected i v = true.
Proof.
  intros Hwf. unfold nodeInducedGraph_From.
  destruct (prune_nodes i st (From st id)) as (ns & Hrun & Hperm).
  { intros n. by apply From_have_ID. }
  exists ns. split_and!; [done|done|].
  intros n. rewrite Hperm, list_elem_of_filter, From_elem. split.
  - intros (Hsel & v & e & He & Hn). exists v, e. split_and!; try done.
    unfold selected_node in Hsel. by rewrite (wf_nodes _ Hwf _ _ Hn) in Hsel.
  - intros (v & e & He & Hn & Hsel). split; [|by exists v, e].
    unfold selected_node. by rewrite (wf_nodes _ Hwf _ _ Hn).
Qed.

Lemma Induced_From_selected_witness :
  nodeInducedGraph_From sample_star_view sample_star 2 = Ok [1%positive]
  ∧ Induced.Node sample_star_view sample_star 2 = None
  ∧ ∃ ns, nodeInducedGraph_From sample_star_view sample_star 2 = Ok ns
      ∧ ∀ n, n ∈ ns ↔
             ∃ v e, EdgeBetween sample_star 2 v = Some e
                    ∧ Node_by_ID sample_star v = Some n
                    ∧ is_selected sample_star_view v = true.
Proof.
  split; [reflexivity|]. split; [reflexivity|].
  destruct (Induced_From_selected sample_star_view sample_star 2 sample_star_wf)
    as (ns & H1 & _ & H3).
  exists ns. split; [exact H1 | exact H3].
Defined.

(** X14. The edge queries of an induced view agree with each other on a
    well-formed graph: [HasEdgeBetween] holds exactly when [EdgeBetween]
    returns an edge, [Edge] returns what [EdgeBetween] does, both are
    symmetric in their two IDs and find nothing from an ID to itself, and
    an edge is returned only between two selected IDs and is then the
    edge of the graph. *)
Theorem Induced_edge_queries (i : nodeInducedGraph) (st : State) (x y : Z) :
  wf st →
  (nodeInducedGraph_HasEdgeBetween i st x y = true
   ↔ is_Some (Induced.EdgeBetween i st x y))
  ∧ nodeInducedGraph_Edge i st x y = Induced.EdgeBetween i st x y
  ∧ Induced.EdgeBetween i st x y = Induced.EdgeBetween i st y x
  ∧ nodeInducedGraph_HasEdgeBetween i st x y
    = nodeInducedGraph_HasEdgeBetween i st y x
  ∧ Induced.EdgeBetween i st x x = None
  ∧ (∀ e, Induced.EdgeBetween i st x y = Some e ↔
          is_selected i x = true ∧ is_selected i y = true
          ∧ EdgeBetween st x y = Some e).
Proof.
  intros Hwf.
  unfold nodeInducedGraph_HasEdgeBetween, nodeInducedGraph_Edge,
    Induced.EdgeBetween, HasEdgeBetween, simple.HasEdgeBetween.
  rewrite (EdgeBetween_sym st y x Hwf).
  assert (EdgeBetween st x x = None) as Hself
    by apply (wf_no_self_edge _ Hwf).
  unfold EdgeBetween, simple.EdgeBetween in *.
  rewrite (orb_comm (negb (is_selected i y))).
  destruct (is_selected i x), (is_selected i y); simpl; split_and!;
    try done; try (by intros e; split; [|intros (? & ? & ?)]).
  - apply bool_decide_eq_true.
  - apply bool_decide_ext. split; intros [e He]; exists e;
      by apply (wf_symmetric _ Hwf).
Qed.

Lemma Induced_edge_queries_witness :
  nodeInducedGraph_HasEdgeBetween sample_star_view sample_star 0 1 = true
  ∧ nodeInducedGraph_HasEdgeBetween sample_star_view sample_star 0 2 = false
  ∧ (nodeInducedGraph_HasEdgeBetween sample_star_view sample_star 0 1 = true
     ↔ is_Some (Induced.EdgeBetween sample_star_view sample_star 0 1)).
Proof.
  split; [reflexivity|]. split; [reflexivity|].
  apply (Induced_edge_queries sample_star_view sample_star 0 1 sample_star_wf).
Defined.

(** X15. Edge enumeration and edge lookup of an induced view agree on a
    well-formed graph: the enumeration returns, it is a permutation of the
    edges of the graph with both ends selected, and an edge is enumerated
    exactly when [EdgeBetween] returns it for some pair of IDs. *)
Theorem Induced_Edges_lookup (i : nodeInducedGraph) (st : State) :
  wf st →
  ∃ es, Induced.Edges i st = Ok es
    ∧ es ≡ₚ filter (λ e, selected_edge i st e = true) (Edges st)
    ∧ ∀ e, e ∈ es ↔ ∃ x y, Induced.EdgeBetween i st x y = Some e.
Proof.
  intros Hwf. destruct (prune_edges i st Hwf) as (es & Hrun & Hperm).
  exists es. split_and!; [done|done|].
  intros e. rewrite Hperm, list_elem_of_filter. split.
  - intros [Hsel (u & v & He & _)%Edges_have_ends]; [|done].
    rewrite (selected_edge_true i st e u v Hwf He) in Hsel.
    apply andb_true_iff in Hsel as [Hu Hv].
    exists u, v. unfold Induced.EdgeBetween. by rewrite Hu, Hv.
  - intros (x & y & He). unfold Induced.EdgeBetween in He.
    destruct (is_selected i x) eqn:Hx, (is_selected i y) eqn:Hy;
      simpl in He; try done.
    split.
    + rewrite (selected_edge_true i st e x y Hwf He). by rewrite Hx, Hy.
    + apply Edges_elem_iff; [done|]. by exists x, y.
Qed.

Lemma Induced_Edges_lookup_witness :
  Induced.Edges sample_star_view sample_star = Ok [1%positive]
  ∧ Induced.EdgeBetween sample_star_view sample_star 0 1 = Some 1%positive
  ∧ ∃ es, Induced.Edges sample_star_view sample_star = Ok es
      ∧ ∀ e, e ∈ es ↔
             ∃ x y, Induced.EdgeBetween sample_star_view sample_star x y
                    = Some e.
Proof.
  split; [reflexivity|]. split; [reflexivity|].
  destruct (Induced_Edges_lookup sample_star_view sample_star sample_star_wf)
    as (es & H1 & _ & H3).
  exists es. split; [exact H1 | exact H3].
Defined.

(** X16. [Induce] on no nodes gives an empty view of a well-formed graph:
    whatever the graph holds, the view enumerates no node and no edge,
    finds no node under any ID and no edge between any two IDs, and lists
    no successor of any node. *)
Theorem Induce_nothing (st : State) :
  wf st →
  ∃ i, Induce st [] = Ok i
    ∧ Induced.Nodes i st = Ok []
    ∧ Induced.Edges i st = Ok []
    ∧ (∀ id, Induced.Node i st id = None)
    ∧ (∀ x y, Induced.EdgeBetween i st x y = None)
    ∧ (∀ x y, nodeInducedGraph_HasEdgeBetween i st x y = false)
    ∧ (∀ id, nodeInducedGraph_From i st id = Ok []).
Proof.
  intros Hwf. exists (mkInduced ∅). split; [done|].
  assert (∀ id, is_selected (mkInduced ∅) id = false) as Hsel.
  { intros id. unfold is_selected. simpl. by rewrite lookup_empty. }
  assert (∀ (l : list NodePtr),
            filter (λ n, selected_node (mkInduced ∅) st n = true) l = [])
    as Hnone.
  { intros l. induction l as [|n l IH]; [done|].
    rewrite filter_cons_False; [done|]. unfold selected_node.
    destruct (ID st n); [by rewrite Hsel|done]. }
  split_and!.
  - destruct (prune_nodes (mkInduced ∅) st (Nodes st)) as (ns & Hrun & Hperm).
    { intros n. by apply Nodes_have_ID. }
    rewrite Hnone in Hperm. apply Permutation_nil_r in Hperm as ->.
    exact Hrun.
  - assert (∀ (l : list EdgePtr),
              filter (λ e, selected_edge (mkInduced ∅) st e = true) l = [])
      as Hf.
    { intros l. induction l as [|e l IH]; [done|].
      rewrite filter_cons_False; [done|]. unfold selected_edge.
      destruct (From_ID st e), (To_ID st e); try done. }
    destruct (prune_edges (mkInduced ∅) st Hwf) as (es & Hrun & Hperm).
    rewrite Hf in Hperm. apply Permutation_nil_r in Hperm as ->. exact Hrun.
  - intros id. unfold Induced.Node. by rewrite Hsel.
  - intros x y. unfold Induced.EdgeBetween. by rewrite Hsel.
  - intros x y. unfold nodeInducedGraph_HasEdgeBetween. by rewrite Hsel.
  - intros id. unfold nodeInducedGraph_From.
    destruct (prune_nodes (mkInduced ∅) st (From st id))
      as (ns & Hrun & Hperm).
    { intros n. by apply From_have_ID. }
    rewrite Hnone in Hperm. apply Permutation_nil_r in Hperm as ->.
    exact Hrun.
Qed.

Lemma Induce_nothing_witness :
  ∃ i, Induce sample_star [] = Ok i
    ∧ Induced.Nodes i sample_star = Ok []
    ∧ Induced.Edges i sample_star = Ok [].
Proof.
  destruct (Induce_nothing sample_star sample_star_wf)
    as (i & H1 & H2 & H3 & _).
  exists i. split_and!; [exact H1 | exact H2 | exact H3].
Defined.

(** ** The analyses *)

Section WriteFacts.

Implicit Types (st : State) (nodes : gmap Z NodePtr).

(** A loop over entries, each writing to the node stored under its ID. *)
Lemma write_list_spec {V} (body : Z * V → Attributes → Attributes) nodes
    (l : list (Z * V)) : ∀ st,
  Forall (λ kv, ∃ p, nodes !! kv.1 = Some p ∧ is_Some (nodeObjs st !! p)) l →
  ∃ st',
    foldM (λ st kv, visit_member (body kv) nodes st kv.1) st l = Ok st'
    ∧ graph st' = graph st ∧ edgeObjs st' = edgeObjs st
    ∧ ∀ q, nodeObjs st' !! q
           = set_attrs (λ a, foldl (λ a kv, body kv a) a
                               (filter (λ kv, nodes !! kv.1 = Some q) l))
               <$> nodeObjs st !! q.
Proof.
  induction l as [|kv l IH]; intros st Hl; simpl.
  - exists st. split_and!; try done. intros q. by rewrite set_attrs_id.
  - apply Forall_cons in Hl as [(p & Hp & [o Ho]) Hl].
    assert (visit_member (body kv) nodes st kv.1
            = Ok (update_attrs (body kv) p st)) as ->.
    { unfold visit_member. by rewrite Hp, Ho. }
    simpl.
    destruct (IH (update_attrs (body kv) p st)) as (st' & Hrun & Hg & He & Hq).
    { eapply Forall_impl; [exact Hl|]. intros kv' (p' & Hp' & [o' Ho']).
      exists p'. split; [done|]. rewrite update_attrs_lookup.
      case_decide; rewrite Ho'; by eexists. }
    exists st'. split_and!; try done. intros q.
    rewrite Hq, update_attrs_lookup.
    destruct (decide (q = p)) as [->|Hne].
    + rewrite filter_cons_True by done. rewrite set_attrs_fmap. done.
    + rewrite filter_cons_False by congruence. done.
Qed.

Lemma filter_key_absent `{EqDecision K} {V} (l : list (K * V)) id :
  id ∉ l.*1 → filter (λ kv, kv.1 = id) l = [].
Proof.
  induction l as [|kv l IH]; [done|]. rewrite fmap_cons.
  intros [Hx Hl]%not_elem_of_cons.
  rewrite filter_cons_False by congruence. by apply IH.
Qed.

Lemma filter_key_present `{EqDecision K} {V} (l : list (K * V)) id w :
  NoDup (l.*1) → (id, w) ∈ l → filter (λ kv, kv.1 = id) l = [(id, w)].
Proof.
  induction l as [|kv l IH]; intros Hnd Hin; [by apply elem_of_nil in Hin|].
  rewrite fmap_cons in Hnd. apply NoDup_cons in Hnd as [Hx Hnd].
  apply elem_of_cons in Hin as [<-|Hin].
  - rewrite filter_cons_True by done. f_equal. by apply filter_key_absent.
  - rewrite filter_cons_False; [by apply IH|].
    intros Heq. apply Hx. rewrite Heq.
    apply list_elem_of_fmap. by exists (id, w).
Qed.

Lemma filter_key_map `{Countable K} {V} (m : gmap K V) id :
  filter (λ kv, kv.1 = id) (map_to_list m)
  = match m !! id with Some w => [(id, w)] | None => [] end.
Proof.
  destruct (m !! id) as [w|] eqn:Hm.
  - apply filter_key_present; [apply NoDup_fst_map_to_list|].
    by apply elem_of_map_to_list.
  - apply filter_key_absent. intros ([id' w] & -> & Hin)%list_elem_of_fmap.
    apply elem_of_map_to_list in Hin. simpl in Hm. congruence.
Qed.

(** The entries written to the node registered under [id] are those with
    the key [id]. *)
Lemma filter_hits_registered {V} st id n (l : list (Z * V)) :
  wf st → Node_by_ID st id = Some n →
  filter (λ kv, simple.nodes (UndirectedGraph (graph st)) !! kv.1 = Some n) l
  = filter (λ kv, kv.1 = id) l.
Proof.
  intros Hwf Hn. apply list_filter_iff. intros [id' w]. simpl. split.
  - intros Hn'. apply (wf_nodes _ Hwf) in Hn, Hn'. congruence.
  - by intros ->.
Qed.

Lemma filter_hits_unregistered {V} st q (l : list (Z * V)) :
  q ∉ Nodes st →
  filter (λ kv, simple.nodes (UndirectedGraph (graph st)) !! kv.1 = Some q) l
  = [].
Proof.
  intros Hq. induction l as [|kv l IH]; [done|].
  rewrite filter_cons_False; [done|]. intros Hn. apply Hq, Nodes_elem.
  by exists kv.1.
Qed.

Lemma registered_allocated st id p :
  wf st → Node_by_ID st id = Some p → is_Some (nodeObjs st !! p).
Proof.
  intros Hwf Hp. apply (wf_nodes _ Hwf), ID_Ok in Hp as (o & -> & _).
  by eexists.
Qed.

(** The loop that stores a ranking, on a well-formed graph, for a ranking
    of registered nodes. *)
Lemma write_ranks_spec (Sprint : float64 → string)
    (write : string → Attributes → Attributes) (rank : gmap Z float64) st :
  wf st → ranks_nodes st rank →
  ∃ st',
    write_ranks Sprint write (simple.nodes (UndirectedGraph (graph st)))
      rank st = Ok st'
    ∧ wf st' ∧ graph st' = graph st ∧ edgeObjs st' = edgeObjs st
    ∧ (∀ id n, Node_by_ID st id = Some n →
         attrs_at st' n
         = match rank !! id with
           | Some w => write (Sprint w) (attrs_at st n)
           | None => attrs_at st n
           end)
    ∧ (∀ q, q ∉ Nodes st → nodeObjs st' !! q = nodeObjs st !! q).
Proof.
  intros Hwf Hrank. unfold write_ranks.
  set (nodes := simple.nodes (UndirectedGraph (graph st))).
  destruct (write_list_spec (λ kv : Z * float64, write (Sprint kv.2)) nodes
              (map_to_list rank) st) as (st' & Hrun & Hg & He & Hq).
  { apply Forall_forall. intros [id w] Hin%elem_of_map_to_list.
    destruct (Hrank id) as [p Hp]; [by eexists|]. exists p.
    split; [done|]. by apply (registered_allocated st id). }
  exists st'. split; [done|].
  destruct (wf_set_attrs st st' Hg He) as [Hwf' _]; [|done|].
  { intros q. eexists. apply Hq. }
  split_and!; try done.
  - intros id n Hn. unfold attrs_at. rewrite Hq.
    destruct (registered_allocated st id n Hwf Hn) as [o ->]. simpl.
    unfold nodes. rewrite (filter_hits_registered st id n _ Hwf Hn).
    rewrite filter_key_map. by destruct (rank !! id).
  - intros q Hq'. rewrite Hq. unfold nodes.
    rewrite filter_hits_unregistered by done. apply set_attrs_id.
Qed.

Lemma write_ranks_stored Sprint key (rank : gmap Z float64) st :
  (∀ w, Sprint w ≠ "") → wf st → ranks_nodes st rank →
  ∃ st',
    write_ranks Sprint (λ v a, Set_ a key v)
      (simple.nodes (UndirectedGraph (graph st))) rank st = Ok st'
    ∧ wf st' ∧ stored Sprint key rank st st'.
Proof.
  intros Hne Hwf Hrank.
  destruct (write_ranks_spec Sprint (λ v a, Set_ a key v) rank st Hwf Hrank)
    as (st' & Hrun & Hwf' & Hg & _ & Hat & _).
  exists st'. split_and!; try done. split; [done|].
  intros id n Hn. rewrite (Hat id n Hn). split_and!.
  - intros w ->. by apply Set_nonempty_here.
  - by intros ->.
  - intros k Hk. destruct (rank !! id); [|done].
    by apply Set_nonempty_other.
Qed.

Lemma write_ranks_replaced Sprint key (rank : gmap Z float64) st :
  wf st → ranks_nodes st rank →
  ∃ st',
    write_ranks Sprint (λ v _, [mkAttr key v])
      (simple.nodes (UndirectedGraph (graph st))) rank st = Ok st'
    ∧ wf st' ∧ replaced Sprint key rank st st'.
Proof.
  intros Hwf Hrank.
  destruct (write_ranks_spec Sprint (λ v _, [mkAttr key v]) rank st Hwf Hrank)
    as (st' & Hrun & Hwf' & Hg & _ & Hat & _).
  exists st'. split_and!; try done. split; [done|].
  intros id n Hn. rewrite (Hat id n Hn). split.
  - by intros w ->.
  - by intros ->.
Qed.

(** The loop of [Betweenness] that fills in zeros. *)
Lemma fill_zero_loop st (l : list (Z * NodePtr)) : ∀ (rank : gmap Z float64),
  (∀ id n, (id, n) ∈ l → ID st n = Ok id) →
  ∃ rank',
    foldM (λ (rank : gmap Z float64) n,
             id ← ID st n;
             Ok (match rank !! id with
                 | Some _ => rank
                 | None => <[id := float64_zero]> rank
                 end))
          rank (l.*2) = Ok rank'
    ∧ ∀ id, rank' !! id
            = match rank !! id with
              | Some w => Some w
              | None => if decide (id ∈ l.*1) then Some float64_zero else None
              end.
Proof.
  induction l as [|[id n] l IH]; intros rank Hl; simpl.
  - exists rank. split; [done|]. intros id. by destruct (rank !! id).
  - rewrite (Hl id n) by by left. simpl.
    destruct (IH (match rank !! id with
                  | Some _ => rank
                  | None => <[id := float64_zero]> rank
                  end)) as (rank' & Hrun & Hlook).
    { intros id' n' Hin. apply Hl. by right. }
    exists rank'. split; [done|]. intros id'. rewrite Hlook.
    destruct (decide (id' = id)) as [->|Hne].
    + destruct (rank !! id) eqn:Hr; [by rewrite Hr|].
      rewrite lookup_insert_eq. rewrite decide_True; [done|by left].
    + assert ((match rank !! id with
               | Some _ => rank
               | None => <[id := float64_zero]> rank
               end) !! id' = rank !! id') as ->.
      { destruct (rank !! id); [done|]. by rewrite lookup_insert_ne. }
      destruct (rank !! id'); [done|].
      apply decide_ext. rewrite elem_of_cons. intuition congruence.
Qed.

Lemma fill_zero_spec st (rank : gmap Z float64) :
  wf st →
  ∃ rank',
    fill_zero st (simple.nodes (UndirectedGraph (graph st))) rank = Ok rank'
    ∧ ∀ id, rank' !! id
            = match rank !! id with
              | Some w => Some w
              | None => if decide (is_Some (Node_by_ID st id))
                        then Some float64_zero else None
              end.
Proof.
  intros Hwf. unfold fill_zero.
  set (nodes := simple.nodes (UndirectedGraph (graph st))).
  destruct (fill_zero_loop st (map_to_list nodes) rank) as (rank' & Hrun & Hl).
  { intros id n Hin%elem_of_map_to_list. by apply (wf_nodes _ Hwf). }
  exists rank'. split; [done|]. intros id. rewrite Hl.
  destruct (rank !! id); [done|].
  apply decide_ext. rewrite list_elem_of_fmap. split.
  - intros ([id' n] & -> & Hin%elem_of_map_to_list). by exists n.
  - intros [n Hn]. exists (id, n). split; [done|].
    by apply elem_of_map_to_list.
Qed.

End WriteFacts.

Section AnalysisFacts.

Implicit Types (st : State).

Lemma Betweenness_spec (Sprint : float64 → string)
    (write : string → Attributes → Attributes)
    (network_Betweenness : State → gmap Z float64) st :
  wf st → ranks_nodes st (network_Betweenness st) →
  ∃ st',
    (nodes ← NodeMap st;
     rank' ← fill_zero st nodes (network_Betweenness st);
     write_ranks Sprint write nodes rank' st) = Ok st'
    ∧ wf st' ∧ graph st' = graph st
    ∧ ∀ id n, Node_by_ID st id = Some n →
        attrs_at st' n
        = write (Sprint (score (network_Betweenness st) id)) (attrs_at st n).
Proof.
  intros Hwf Hrank. rewrite NodeMap_wf by done. simpl.
  destruct (fill_zero_spec st (network_Betweenness st) Hwf)
    as (rank' & -> & Hlook).
  simpl.
  destruct (write_ranks_spec Sprint write rank' st Hwf)
    as (st' & Hrun & Hwf' & Hg & _ & Hat & _).
  { intros id. rewrite Hlook.
    destruct (network_Betweenness st !! id) eqn:Hr.
    - intros _. apply Hrank. by rewrite Hr.
    - case_decide; [done|]. by intros [? ?]. }
  exists st'. split_and!; try done.
  intros id n Hn. rewrite (Hat id n Hn), Hlook. unfold score.
  destruct (network_Betweenness st !! id); [done|].
  rewrite decide_True by by eexists. done.
Qed.

Lemma Nodes_same_graph st st' : graph st' = graph st → Nodes st' = Nodes st.
Proof. intros H. unfold Nodes. by rewrite H. Qed.

Lemma rank_value_stored ParseFloat attr (a : Attributes) v w :
  Get a attr = v → v ≠ "" → ParseFloat v = (w, None) →
  rank_value ParseFloat attr a = w
  ∧ ∀ v', carries a attr v' → (ParseFloat v').2 = None.
Proof.
  intros Hget Hv Hparse.
  assert (attr ∈ keys a) as Hk.
  { destruct (decide (attr ∈ keys a)) as [|Hn]; [done|].
    apply Get_absent in Hn. congruence. }
  pose proof (lookup_attr_present a attr Hk) as Hl. rewrite Hget in Hl.
  split.
  - unfold rank_value. rewrite attr_value_lookup, Hl. by rewrite Hparse.
  - intros v' Hc. unfold carries in Hc. rewrite Hl in Hc.
    injection Hc as <-. by rewrite Hparse.
Qed.

Lemma label_communities_cliques body nodes (cs : list (list Z)) : ∀ i st,
  label_communities body nodes cs i st = label_cliques body nodes 0 cs i st.
Proof.
  induction cs as [|c cs IH]; intros i st; simpl; [done|].
  destruct (Z.ltb_spec (Z.of_nat (length c)) 0) as [Hlt|_]; [lia|].
  destruct (foldM (visit_member (body i) nodes) st c); simpl; [|done].
  apply IH.
Qed.

Lemma survivors_all (cs : list (list Z)) : survivors 0 cs = cs.
Proof.
  unfold survivors. induction cs as [|c cs IH]; [done|].
  rewrite filter_cons_True by lia. by rewrite IH.
Qed.

Lemma memberships_pos id (c : list Z) :
  memberships id c ≠ 0%nat ↔ id ∈ c.
Proof.
  unfold memberships. induction c as [|x c IH]; simpl.
  - split; [done|]. by intros ?%elem_of_nil.
  - rewrite elem_of_cons. destruct (decide (x = id)) as [->|Hne].
    + rewrite filter_cons_True by done. simpl. split; [by left|done].
    + rewrite filter_cons_False by done. rewrite IH.
      split; [by right|]. by intros [?|?]; [congruence|].
Qed.

Lemma last_labels_from id (cs : list (list Z)) : ∀ i,
  last (labels_from (memberships id) i cs) = last_listing id i cs.
Proof.
  induction cs as [|c cs IH]; intros i; simpl; [done|].
  rewrite last_app, IH. destruct (last_listing id (i + 1) cs); [done|].
  case_bool_decide as Hin.
  - apply memberships_pos in Hin.
    destruct (memberships id c) as [|m]; [done|].
    by rewrite replicate_S_end, last_snoc.
  - destruct (memberships id c) as [|m] eqn:Hm; [done|].
    exfalso. apply Hin, memberships_pos. by rewrite Hm.
Qed.

Lemma apply_labels_Set key (ls : list Z) (a : Attributes) :
  (∀ k, k ≠ key →
        Get (apply_labels (λ i a, Set_ a key (Sprint i)) ls a) k = Get a k)
  ∧ match last ls with
    | Some j =>
        Get (apply_labels (λ i a, Set_ a key (Sprint i)) ls a) key = Sprint j
    | None => apply_labels (λ i a, Set_ a key (Sprint i)) ls a = a
    end.
Proof.
  induction ls as [|j ls IH] using rev_ind; [done|].
  rewrite apply_labels_snoc, last_snoc. destruct IH as [IH _]. split.
  - intros k Hk. rewrite Set_nonempty_other; [by apply IH| |done].
    apply Sprint_nonempty.
  - apply Set_nonempty_here, Sprint_nonempty.
Qed.

Lemma apply_labels_replace key (ls : list Z) (a : Attributes) :
  match last ls with
  | Some j =>
      apply_labels (λ i _, [mkAttr key (Sprint i)]) ls a
      = [mkAttr key (Sprint j)]
  | None => apply_labels (λ i _, [mkAttr key (Sprint i)]) ls a = a
  end.
Proof.
  destruct ls as [|j ls] using rev_ind; [done|].
  by rewrite apply_labels_snoc, last_snoc.
Qed.

Lemma label_communities_spec body (cs : list (list Z)) st :
  wf st →
  members_known (simple.nodes (UndirectedGraph (graph st))) cs →
  ∃ st',
    (nodes ← NodeMap st; label_communities body nodes cs 0 st) = Ok st'
    ∧ wf st' ∧ graph st' = graph st
    ∧ ∀ id n, Node_by_ID st id = Some n →
        attrs_at st' n
        = apply_labels body (labels_from (memberships id) 0 cs) (attrs_at st n).
Proof.
  intros Hwf Hcs. rewrite NodeMap_wf by done. simpl.
  rewrite label_communities_cliques.
  set (nodes := simple.nodes (UndirectedGraph (graph st))) in *.
  assert (∀ id p, nodes !! id = Some p → is_Some (nodeObjs st !! p)) as Halloc.
  { intros id p Hp. by apply (registered_allocated st id). }
  destruct (label_cliques_spec body nodes 0 cs 0 st Halloc Hcs)
    as (st' & Hrun & Hg & He & Hq).
  exists st'. split; [done|].
  destruct (wf_set_attrs st st' Hg He) as [Hwf' _]; [|done|].
  { intros q. eexists. apply Hq. }
  split_and!; try done.
  intros id n Hn. unfold attrs_at. rewrite Hq.
  destruct (Halloc id n Hn) as [o ->]. simpl. rewrite survivors_all.
  f_equal. apply labels_from_ext. intros c. by apply (hits_registered st).
Qed.

End AnalysisFacts.

Lemma sample_Sprint_nonempty w : sample_Sprint_float64 w ≠ "".
Proof. unfold sample_Sprint_float64. repeat case_match; discriminate. Qed.

Lemma sample_rank_nodes : ranks_nodes sample_three (sample_rank sample_three).
Proof.
  intros id [w Hw]. unfold sample_rank in Hw.
  apply lookup_insert_Some in Hw as [[<- _]|[_ Hw]]; [by eexists|].
  apply lookup_singleton_Some in Hw as [<- _]. by eexists.
Qed.

(** X17. [PageRank], [Closeness] and [Farness] of the later revision, on
    a well-formed graph and for a ranking of registered nodes, return and
    store the ranking without disturbing anything else: each ranked node
    reads the numeral of its value under the key of the analysis, an
    unranked node is left as it was, and every other attribute of every
    node reads as before. *)
Theorem rankings_stored (Sprint : float64 → string)
    (network_PageRank : State → float64 → float64 → gmap Z float64)
    (AllShortest : Type) (path_DijkstraAllPaths : State → AllShortest)
    (network_Closeness network_Farness : State → AllShortest → gmap Z float64)
    (damp tol : float64) (st : State) :
  (∀ w, Sprint w ≠ "") → wf st →
  (ranks_nodes st (network_PageRank st damp tol) →
   ∃ st', PageRank Sprint network_PageRank damp tol st = Ok st'
     ∧ wf st' ∧ stored Sprint "rank" (network_PageRank st damp tol) st st')
  ∧ (ranks_nodes st (network_Closeness st (path_DijkstraAllPaths st)) →
     ∃ st',
       Closeness Sprint AllShortest path_DijkstraAllPaths network_Closeness st
       = Ok st'
       ∧ wf st'
       ∧ stored Sprint "closeness"
           (network_Closeness st (path_DijkstraAllPaths st)) st st')
  ∧ (ranks_nodes st (network_Farness st (path_DijkstraAllPaths st)) →
     ∃ st',
       Farness Sprint AllShortest path_DijkstraAllPaths network_Farness st
       = Ok st'
       ∧ wf st'
       ∧ stored Sprint "farness"
           (network_Farness st (path_DijkstraAllPaths st)) st st').
Proof.
  intros Hne Hwf. unfold PageRank, Closeness, Farness.
  rewrite NodeMap_wf by done. simpl.
  split_and!; intros Hrank; by apply write_ranks_stored.
Qed.

Lemma rankings_stored_witness :
  ∃ st',
    PageRank sample_Sprint_float64 sample_PageRank float64_zero float64_zero
      sample_scored = Ok st'
    ∧ Get (attrs_at st' 1) "rank" = "2"
    ∧ Get (attrs_at st' 1) "score" = "3.0"
    ∧ attrs_at st' 2 = attrs_at sample_scored 2.
Proof.
  destruct (rankings_stored sample_Sprint_float64 sample_PageRank unit
              (λ _, ()) (λ st _, sample_rank st) (λ st _, sample_rank st)
              float64_zero float64_zero sample_scored
              sample_Sprint_nonempty sample_scored_wf) as (H & _ & _).
  destruct H as (st' & Hrun & _ & _ & Hst).
  { intros id [w Hw]. unfold sample_PageRank, sample_rank in Hw.
    apply lookup_insert_Some in Hw as [[<- _]|[_ Hw]]; [by eexists|].
    apply lookup_singleton_Some in Hw as [<- _]. by eexists. }
  exists st'. split; [exact Hrun|].
  destruct (Hst 0 1%positive eq_refl) as (H1 & _ & H3).
  destruct (Hst 1 2%positive eq_refl) as (_ & H2 & _).
  split_and!.
  - apply (H1 (float64_of_Z 2)). reflexivity.
  - rewrite H3 by discriminate. reflexivity.
  - apply H2. reflexivity.
Defined.

(** X18. [Betweenness] of the later revision, on a well-formed graph and
    for a ranking of registered nodes, leaves every node of the graph with
    a ["betweenness"] attribute: the numeral of its value in the ranking,
    and the numeral of zero for a node the ranking leaves out. No other
    attribute of any node reads differently. *)
Theorem Betweenness_every_node (Sprint : float64 → string)
    (network_Betweenness : State → gmap Z float64) (st : State) :
  (∀ w, Sprint w ≠ "") → wf st →
  ranks_nodes st (network_Betweenness st) →
  ∃ st',
    Betweenness Sprint network_Betweenness st = Ok st'
    ∧ wf st' ∧ graph st' = graph st
    ∧ ∀ id n, Node_by_ID st id = Some n →
        Get (attrs_at st' n) "betweenness"
        = Sprint (score (network_Betweenness st) id)
        ∧ ∀ k, k ≠ "betweenness" →
               Get (attrs_at st' n) k = Get (attrs_at st n) k.
Proof.
  intros Hne Hwf Hrank. unfold Betweenness.
  destruct (Betweenness_spec Sprint (λ v a, Set_ a "betweenness" v)
              network_Betweenness st Hwf Hrank)
    as (st' & Hrun & Hwf' & Hg & Hat).
  exists st'. split_and!; try done.
  intros id n Hn. rewrite (Hat id n Hn). split.
  - by apply Set_nonempty_here.
  - intros k Hk. by apply Set_nonempty_other.
Qed.

Lemma Betweenness_every_node_witness :
  ∃ st',
    Betweenness sample_Sprint_float64 sample_rank sample_three = Ok st'
    ∧ Get (attrs_at st' 1) "betweenness" = "2"
    ∧ Get (attrs_at st' 2) "betweenness" = "0"
    ∧ Get (attrs_at st' 3) "betweenness" = "3".
Proof.
  destruct (Betweenness_every_node sample_Sprint_float64 sample_rank
              sample_three sample_Sprint_nonempty sample_three_wf
              sample_rank_nodes) as (st' & Hrun & _ & _ & Hat).
  exists st'. split; [exact Hrun|].
  destruct (Hat 0 1%positive eq_refl) as [H1 _].
  destruct (Hat 1 2%positive eq_refl) as [H2 _].
  destruct (Hat 2 3%positive eq_refl) as [H3 _].
  split_and!; [exact H1 | exact H2 | exact H3].
Defined.

(** X19. In the first revision an analysis stores its result by replacing
    the attributes of the node: after [PageRank] a ranked node holds the
    one attribute ["rank"], and after [Betweenness] every node of the
    graph holds the one attribute ["betweenness"]; whatever the node
    held before, the result of an earlier analysis included, is gone. *)
Theorem Rev1_analyses_replace (Sprint : float64 → string)
    (network_PageRank : State → float64 → float64 → gmap Z float64)
    (network_Betweenness : State → gmap Z float64)
    (damp tol : float64) (st : State) :
  wf st →
  (ranks_nodes st (network_PageRank st damp tol) →
   ∃ st', Rev1Analyses.PageRank Sprint network_PageRank damp tol st = Ok st'
     ∧ wf st'
     ∧ replaced Sprint "rank" (network_PageRank st damp tol) st st')
  ∧ (ranks_nodes st (network_Betweenness st) →
     ∃ st', Rev1Analyses.Betweenness Sprint network_Betweenness st = Ok st'
       ∧ wf st' ∧ graph st' = graph st
       ∧ ∀ id n, Node_by_ID st id = Some n →
           attrs_at st' n
           = [mkAttr "betweenness"
                (Sprint (score (network_Betweenness st) id))]).
Proof.
  intros Hwf. split; intros Hrank.
  - unfold Rev1Analyses.PageRank. rewrite NodeMap_wf by done. simpl.
    by apply write_ranks_replaced.
  - unfold Rev1Analyses.Betweenness.
    apply (Betweenness_spec Sprint (λ v _, [mkAttr "betweenness" v])
             network_Betweenness st Hwf Hrank).
Qed.

Lemma Rev1_analyses_replace_witness :
  ∃ st',
    Rev1Analyses.PageRank sample_Sprint_float64 sample_PageRank
      float64_zero float64_zero sample_scored = Ok st'
    ∧ attrs_at st' 1 = [mkAttr "rank" "2"]
    ∧ Get (attrs_at st' 1) "score" = "".
Proof.
  destruct (Rev1_analyses_replace sample_Sprint_float64 sample_PageRank
              sample_rank float64_zero float64_zero sample_scored
              sample_scored_wf) as (H & _).
  destruct H as (st' & Hrun & _ & _ & Hst).
  { intros id [w Hw]. unfold sample_PageRank, sample_rank in Hw.
    apply lookup_insert_Some in Hw as [[<- _]|[_ Hw]]; [by eexists|].
    apply lookup_singleton_Some in Hw as [<- _]. by eexists. }
  exists st'. split; [exact Hrun|].
  destruct (Hst 0 1%positive eq_refl) as (H1 & _).
  assert (attrs_at st' 1 = [mkAttr "rank" "2"]) as E
    by (apply (H1 (float64_of_Z 2)); reflexivity).
  split; [exact E|]. rewrite E. reflexivity.
Defined.

(** X20. [Betweenness] followed by [NodesByAttribute] for
    ["betweenness"], as the practical runs them: when the numerals
    written read back as the values, the ranking returns all nodes of the
    graph, and if no value is NaN they come sorted descending by their
    betweenness, a node the analysis left out counting as zero. *)
Theorem Betweenness_then_ranked (Sprint : float64 → string)
    (ParseFloat : string → float64 * option error)
    (sort_Sort : ∀ D, Interface D → D → D)
    (network_Betweenness : State → gmap Z float64) (st : State) :
  SortContract sort_Sort → (∀ w, Sprint w ≠ "") →
  wf st → ranks_nodes st (network_Betweenness st) →
  (∀ id, is_Some (Node_by_ID st id) →
         ParseFloat (Sprint (score (network_Betweenness st) id))
         = (score (network_Betweenness st) id, None)) →
  ∃ st' out,
    Betweenness Sprint network_Betweenness st = Ok st'
    ∧ NodesByAttribute ParseFloat sort_Sort "betweenness" st'
      = Ok (out, None)
    ∧ out ≡ₚ Nodes st
    ∧ ((∀ id, is_Some (Node_by_ID st id) →
              is_NaN (score (network_Betweenness st) id) = false) →
       ∀ i j n m idn idm, (i < j)%nat →
         out !! i = Some n → out !! j = Some m →
         ID st n = Ok idn → ID st m = Ok idm →
         float64_ge (score (network_Betweenness st) idn)
                    (score (network_Betweenness st) idm) = true).
Proof.
  intros Hsort Hne Hwf Hrank Hparse. unfold Betweenness.
  destruct (Betweenness_spec Sprint (λ v a, Set_ a "betweenness" v)
              network_Betweenness st Hwf Hrank)
    as (st' & Hrun & Hwf' & Hg & Hat).
  pose proof (Nodes_same_graph st st' Hg) as HN.
  assert (∀ n, n ∈ Nodes st →
            ∃ id, ID st n = Ok id ∧ Node_by_ID st id = Some n
              ∧ rank_value ParseFloat "betweenness" (attrs_at st' n)
                = score (network_Betweenness st) id
              ∧ ∀ v, carries (attrs_at st' n) "betweenness" v →
                     (ParseFloat v).2 = None) as Hval.
  { intros n (id & Hn)%Nodes_elem. exists id.
    split; [by apply (wf_nodes _ Hwf)|]. split; [done|].
    apply (rank_value_stored ParseFloat "betweenness" (attrs_at st' n)
             (Sprint (score (network_Betweenness st) id))).
    - rewrite (Hat id n Hn). by apply Set_nonempty_here.
    - apply Hne.
    - apply Hparse. by eexists. }
  destruct (NodesByAttribute_succeeds ParseFloat sort_Sort "betweenness" st'
              Hwf') as [out Hout].
  { intros n v Hn Hc. rewrite HN in Hn.
    destruct (Hval n Hn) as (id & _ & _ & _ & Hp). by apply Hp. }
  destruct (NodesByAttribute_ranked ParseFloat sort_Sort Hsort
              "betweenness" st' out Hout) as [Hperm Hord].
  exists st', out. rewrite HN in Hperm. split_and!; try done.
  intros Hnan i j n m idn idm Hij Hi Hj Hidn Hidm.
  assert (n ∈ Nodes st) as Hn.
  { rewrite <- Hperm. by eapply list_elem_of_lookup_2. }
  assert (m ∈ Nodes st) as Hm.
  { rewrite <- Hperm. by eapply list_elem_of_lookup_2. }
  destruct (Hval n Hn) as (idn' & Hidn' & _ & Hvn & _).
  destruct (Hval m Hm) as (idm' & Hidm' & _ & Hvm & _).
  assert (idn' = idn) as -> by congruence.
  assert (idm' = idm) as -> by congruence.
  assert (∀ q, q ∈ Nodes st' →
            is_NaN (rank_value ParseFloat "betweenness" (attrs_at st' q))
            = false) as Hnan'.
  { intros q Hq. rewrite HN in Hq.
    destruct (Hval q Hq) as (idq & _ & Hreg & -> & _).
    apply Hnan. by eexists. }
  rewrite <- Hvn, <- Hvm. by apply (Hord Hnan' i j).
Qed.

Lemma Betweenness_then_ranked_witness :
  ∃ st' out,
    Betweenness sample_Sprint_float64 sample_rank sample_three = Ok st'
    ∧ NodesByAttribute sample_ParseFloat_g insertion_Sort "betweenness" st'
      = Ok (out, None)
    ∧ out ≡ₚ Nodes sample_three
    ∧ out = [3%positive; 1%positive; 2%positive].
Proof.
  destruct (Betweenness_then_ranked sample_Sprint_float64 sample_ParseFloat_g
              insertion_Sort sample_rank sample_three
              insertion_Sort_contract sample_Sprint_nonempty sample_three_wf
              sample_rank_nodes) as (st' & out & Hrun & Hout & Hperm & _).
  { intros id [n Hn]. unfold Node_by_ID, simple.Node in Hn.
    apply elem_of_map_to_list in Hn. vm_compute in Hn.
    repeat (apply elem_of_cons in Hn as [Hn|Hn];
            [injection Hn as -> _; vm_compute; reflexivity|]).
    by apply elem_of_nil in Hn. }
  exists st', out. split_and!; [exact Hrun | exact Hout | exact Hperm |].
  assert (Betweenness sample_Sprint_float64 sample_rank sample_three
          = Ok (after (Betweenness sample_Sprint_float64 sample_rank
                         sample_three))) as E by (vm_compute; reflexivity).
  rewrite E in Hrun.
  assert (st' = after (Betweenness sample_Sprint_float64 sample_rank
                         sample_three)) as -> by congruence.
  assert (NodesByAttribute sample_ParseFloat_g insertion_Sort "betweenness"
            (after (Betweenness sample_Sprint_float64 sample_rank
                      sample_three))
          = Ok ([3%positive; 1%positive; 2%positive], None)) as E'
    by (vm_compute; reflexivity).
  rewrite E' in Hout. by injection Hout as <-.
Defined.

(** X21. [Communities] numbers the communities from 0 in the order they
    come in and stores the number under ["community"]: on a well-formed
    graph whose communities list registered nodes only, a node reads the
    number of the last community that lists it, a node no community lists
    is left as it was, and in the later revision no other attribute reads
    differently, while in the first revision a listed node is left with
    this one attribute. *)
Theorem Communities_labels
    (community_Modularize : State → float64 → list (list Z))
    (resolution : float64) (st : State) :
  wf st →
  members_known (simple.nodes (UndirectedGraph (graph st)))
    (community_Modularize st resolution) →
  (∃ st',
     Communities community_Modularize resolution st = Ok st'
     ∧ wf st' ∧ graph st' = graph st
     ∧ ∀ id n, Node_by_ID st id = Some n →
         (∀ k, k ≠ "community" →
               Get (attrs_at st' n) k = Get (attrs_at st n) k)
         ∧ match last_listing id 0 (community_Modularize st resolution) with
           | Some j => Get (attrs_at st' n) "community" = Sprint j
           | None => attrs_at st' n = attrs_at st n
           end)
  ∧ (∃ st',
       Rev1Analyses.Communities community_Modularize resolution st = Ok st'
       ∧ wf st' ∧ graph st' = graph st
       ∧ ∀ id n, Node_by_ID st id = Some n →
           match last_listing id 0 (community_Modularize st resolution) with
           | Some j => attrs_at st' n = [mkAttr "community" (Sprint j)]
           | None => attrs_at st' n = attrs_at st n
           end).
Proof.
  intros Hwf Hcs. split.
  - unfold Communities.
    destruct (label_communities_spec
                (λ i a, Set_ a "community" (Sprint i))
                (community_Modularize st resolution) st Hwf Hcs)
      as (st' & Hrun & Hwf' & Hg & Hat).
    exists st'. split_and!; try done. intros id n Hn.
    rewrite (Hat id n Hn), <- last_labels_from.
    apply apply_labels_Set.
  - unfold Rev1Analyses.Communities.
    destruct (label_communities_spec
                (λ i _, [mkAttr "community" (Sprint i)])
                (community_Modularize st resolution) st Hwf Hcs)
      as (st' & Hrun & Hwf' & Hg & Hat).
    exists st'. split_and!; try done. intros id n Hn.
    rewrite (Hat id n Hn), <- last_labels_from.
    apply apply_labels_replace.
Qed.

Lemma Communities_labels_witness :
  ∃ st',
    Communities sample_communities float64_zero sample_scored = Ok st'
    ∧ Get (attrs_at st' 1) "community" = "0"
    ∧ Get (attrs_at st' 2) "community" = "1"
    ∧ Get (attrs_at st' 1) "score" = "3.0".
Proof.
  destruct (Communities_labels sample_communities float64_zero sample_scored
              sample_scored_wf) as [(st' & Hrun & _ & _ & Hat) _].
  { repeat constructor; by eexists. }
  exists st'. split; [exact Hrun|].
  destruct (Hat 0 1%positive eq_refl) as [Hk H1].
  destruct (Hat 1 2%positive eq_refl) as [_ H2].
  split_and!; [exact H1 | exact H2 |].
  rewrite Hk by discriminate. reflexivity.
Defined.

(** ** Clique labels and the other attributes *)

Section CliqueOtherFacts.

Implicit Types (a : Attributes) (i : Z) (ls : list Z) (k : string).

Lemma visit_other i a k :
  NoDup (keys a) → k ≠ "clique" → k ≠ "clique_count" →
  Get (visit i a) k = Get a k.
Proof.
  intros Hnd Hk1 Hk2. unfold visit.
  assert (Get (Set_ (Set_ a "clique" (Sprint i)) "clique_count" "") k
          = Get a k) as Hset.
  { unfold Set_. rewrite Get_SetAttribute_other; [|done|].
    - by apply Get_SetAttribute_other.
    - by apply SetAttribute_NoDup. }
  destruct (String.eqb (Get a "clique_count") ""); [|done].
  destruct (extend i a) as [a'|] eqn:He; [|done].
  apply extend_Some in He as (_ & _ & He). by apply He.
Qed.

Lemma count_labels_other a k :
  NoDup (keys a) → k ≠ "clique_count" → Get (count_labels a) k = Get a k.
Proof.
  intros Hnd Hk. unfold count_labels.
  destruct (lookup_attr a "clique"); [|done].
  unfold Set_. by apply Get_SetAttribute_other.
Qed.

Lemma visits_other ls a k :
  NoDup (keys a) → k ≠ "clique" → k ≠ "clique_count" →
  Get (apply_labels visit ls a) k = Get a k.
Proof.
  intros Hnd Hk1 Hk2. induction ls as [|i ls IH] using rev_ind; [done|].
  rewrite apply_labels_snoc, visit_other; try done.
  by apply apply_labels_visit_NoDup.
Qed.

Lemma Rev1_visits ls a :
  "clique" ∉ keys a → ls ≠ [] →
  apply_labels Rev1.visit ls a = [mkAttr "clique" (Join (Sprint <$> ls))].
Proof.
  intros Ha. induction ls as [|i ls IH] using rev_ind; [done|]. intros _.
  rewrite apply_labels_snoc. destruct ls as [|l0 ls'].
  - simpl. unfold Rev1.visit. by rewrite (proj2 (extend_None i a) Ha).
  - rewrite IH by done. unfold Rev1.visit.
    set (v := Join (Sprint <$> l0 :: ls')).
    change [mkAttr "clique" v] with ([] ++ mkAttr "clique" v :: []).
    rewrite extend_split; [|done|apply not_elem_of_nil].
    rewrite app_nil_l. do 2 f_equal.
    change (Value (mkAttr "clique" v)) with v.
    rewrite (fmap_app Sprint (l0 :: ls') [i]).
    change (Sprint <$> [i]) with [Sprint i].
    by rewrite Join_snoc by done.
Qed.

End CliqueOtherFacts.

(** X22. [Clique] of the later revision touches only the ["clique"] and
    ["clique_count"] attributes: on a well-formed graph whose nodes have
    distinct attribute keys, every other key of every node reads after the
    run as it did before. *)
Theorem Clique_keeps_other_attributes (BronKerbosch : State → list (list Z))
    (k : Z) (st : State) :
  wf st →
  members_known (simple.nodes (UndirectedGraph (graph st))) (BronKerbosch st) →
  (∀ n, n ∈ Nodes st → NoDup (keys (attrs_at st n))) →
  ∃ st',
    Clique BronKerbosch k st = Ok st'
    ∧ ∀ id n key, Node_by_ID st id = Some n →
        key ≠ "clique" → key ≠ "clique_count" →
        Get (attrs_at st' n) key = Get (attrs_at st n) key.
Proof.
  intros Hwf Hmc Hnd.
  destruct (Clique_spec BronKerbosch k st Hwf Hmc)
    as (st' & Hrun & _ & _ & _ & Hat & _).
  exists st'. split; [done|]. intros id n key Hn Hk1 Hk2.
  assert (NoDup (keys (attrs_at st n))) as Ha.
  { apply Hnd, Nodes_elem. by exists id. }
  rewrite (Hat id n Hn), count_labels_other; [|by apply apply_labels_visit_NoDup|done].
  by apply visits_other.
Qed.

Lemma sample_four_scored_wf : wf sample_four_scored.
Proof. apply update_attrs_wf, sample_four_wf. Qed.

Lemma Clique_keeps_other_attributes_witness :
  ∃ st',
    Clique sample_cliques 3 sample_four_scored = Ok st'
    ∧ Get (attrs_at st' 2) "score" = "3.0"
    ∧ Get (attrs_at st' 2) "clique" = "0,1".
Proof.
  destruct (Clique_keeps_other_attributes sample_cliques 3 sample_four_scored
              sample_four_scored_wf) as (st' & Hrun & Hat).
  - repeat constructor; by eexists.
  - intros n Hn. vm_compute in Hn.
    repeat (apply elem_of_cons in Hn as [->|Hn]); try by_compute.
    by apply elem_of_nil in Hn.
  - exists st'. split; [exact Hrun|]. split.
    + rewrite (Hat 1 2%positive "score" eq_refl) by discriminate.
      reflexivity.
    + assert (Clique sample_cliques 3 sample_four_scored
              = Ok (after (Clique sample_cliques 3 sample_four_scored))) as E
        by (vm_compute; reflexivity).
      rewrite E in Hrun.
      assert (st' = after (Clique sample_cliques 3 sample_four_scored))
        as -> by congruence.
      vm_compute. reflexivity.
Defined.

(** X23. [Clique] of the first revision replaces the attributes of a node
    on its first label: on a well-formed graph, a node without a
    ["clique"] attribute that is listed in a surviving clique ends with
    exactly two attributes, ["clique"] with its labels joined by commas and
    ["clique_count"] with their number; every other attribute it held is
    gone. *)
Theorem Rev1_Clique_replaces_attributes
    (BronKerbosch : State → list (list Z)) (k : Z) (st : State) :
  wf st →
  members_known (simple.nodes (UndirectedGraph (graph st))) (BronKerbosch st) →
  ∃ st',
    Rev1.Clique BronKerbosch k st = Ok st'
    ∧ ∀ id n, Node_by_ID st id = Some n →
        ("clique" ∉ keys (attrs_at st n)) →
        labels_of k (BronKerbosch st) id ≠ [] →
        attrs_at st' n
        = [mkAttr "clique" (Join (Sprint <$> labels_of k (BronKerbosch st) id));
           mkAttr "clique_count"
             (Sprint (Z.of_nat (length (labels_of k (BronKerbosch st) id))))].
Proof.
  intros Hwf Hmc.
  destruct (Rev1_Clique_spec BronKerbosch k st Hwf Hmc)
    as (st' & Hrun & _ & _ & _ & Hat & _).
  exists st'. split; [done|]. intros id n Hn Hk Hls.
  rewrite (Hat id n Hn), Rev1_visits by done.
  unfold Rev1.count_labels. rewrite (lookup_attr_present _ "clique") by by left.
  rewrite Get_here. simpl (Value _). by rewrite Split_Join_Sprint.
Qed.

Lemma Rev1_Clique_replaces_attributes_witness :
  ∃ st',
    Rev1.Clique sample_cliques 3 sample_four_scored = Ok st'
    ∧ attrs_at st' 2
      = [mkAttr "clique" "0,1"; mkAttr "clique_count" "2"]
    ∧ Get (attrs_at st' 2) "score" = "".
Proof.
  destruct (Rev1_Clique_replaces_attributes sample_cliques 3
              sample_four_scored sample_four_scored_wf)
    as (st' & Hrun & Hat).
  - repeat constructor; by eexists.
  - exists st'. split; [exact Hrun|].
    assert (attrs_at st' 2
            = [mkAttr "clique" "0,1"; mkAttr "clique_count" "2"]) as E.
    { rewrite (Hat 1 2%positive eq_refl); [reflexivity| |discriminate].
      by_compute. }
    split; [exact E|]. rewrite E. reflexivity.
Defined.
(** ** Edge betweenness *)

Section EdgeWriteFacts.

Implicit Types (st : State).

Lemma set_edge_attrs_id (o : option Edge) :
  set_edge_attrs (λ a, a) <$> o = o.
Proof. by destruct o as [[]|]. Qed.

Lemma set_edge_attrs_fmap f f' (o : option Edge) :
  set_edge_attrs f' <$> (set_edge_attrs f <$> o)
  = set_edge_attrs (λ a, f' (f a)) <$> o.
Proof. by destruct o as [[]|]. Qed.

Lemma update_edge_attrs_lookup f e st q :
  edgeObjs (update_edge_attrs f e st) !! q
  = if decide (q = e) then set_edge_attrs f <$> edgeObjs st !! q
    else edgeObjs st !! q.
Proof.
  unfold update_edge_attrs. simpl. case_decide as Hq.
  - subst. apply lookup_alter_eq.
  - by apply lookup_alter_ne.
Qed.

Lemma EdgeBetween_same_graph st st' x y :
  graph st' = graph st → EdgeBetween st' x y = EdgeBetween st x y.
Proof. intros Hg. unfold EdgeBetween. by rewrite Hg. Qed.

(** A loop over entries, each writing to the edge between its two IDs. *)
Lemma edge_write_list_spec {V}
    (body : Z * Z * V → Attributes → Attributes) st0
    (l : list (Z * Z * V)) : ∀ st,
  graph st = graph st0 →
  Forall (λ kv, ∃ e, EdgeBetween st0 kv.1.1 kv.1.2 = Some e
                     ∧ is_Some (edgeObjs st !! e)) l →
  ∃ st',
    foldM (λ st kv, visit_edge (body kv) st kv.1) st l = Ok st'
    ∧ graph st' = graph st ∧ nodeObjs st' = nodeObjs st
    ∧ ∀ q, edgeObjs st' !! q
           = set_edge_attrs
               (λ a, foldl (λ a kv, body kv a) a
                       (filter (λ kv, EdgeBetween st0 kv.1.1 kv.1.2 = Some q)
                          l))
               <$> edgeObjs st !! q.
Proof.
  induction l as [|kv l IH]; intros st Hg Hl; simpl.
  - exists st. split_and!; try done. intros q. by rewrite set_edge_attrs_id.
  - apply Forall_cons in Hl as [(e & He & [o Ho]) Hl].
    assert (visit_edge (body kv) st kv.1
            = Ok (update_edge_attrs (body kv) e st)) as ->.
    { unfold visit_edge. rewrite (EdgeBetween_same_graph st0 st) by done.
      by rewrite He, Ho. }
    simpl.
    destruct (IH (update_edge_attrs (body kv) e st))
      as (st' & Hrun & Hg' & Hn & Hq); [done| |].
    { eapply Forall_impl; [exact Hl|]. intros kv' (e' & He' & [o' Ho']).
      exists e'. split; [done|]. rewrite update_edge_attrs_lookup.
      case_decide; rewrite Ho'; by eexists. }
    exists st'. split_and!; try done. intros q.
    rewrite Hq, update_edge_attrs_lookup.
    destruct (decide (q = e)) as [->|Hne].
    + rewrite filter_cons_True by done. by rewrite set_edge_attrs_fmap.
    + rewrite filter_cons_False by congruence. done.
Qed.

(** A loop over entries one of which names no edge panics, whichever
    entry comes first. *)
Lemma edge_write_list_panics {V}
    (body : Z * Z * V → Attributes → Attributes) st0
    (l : list (Z * Z * V)) : ∀ st,
  graph st = graph st0 →
  (∀ u v e, EdgeBetween st0 u v = Some e → is_Some (edgeObjs st !! e)) →
  (∃ kv, kv ∈ l ∧ EdgeBetween st0 kv.1.1 kv.1.2 = None) →
  foldM (λ st kv, visit_edge (body kv) st kv.1) st l
  = Panic "interface conversion: graph.Edge is nil, not *graphprac.Edge".
Proof.
  induction l as [|kv l IH]; intros st Hg Hobj (bad & Hin & Hbad).
  - by apply elem_of_nil in Hin.
  - simpl. destruct (EdgeBetween st0 kv.1.1 kv.1.2) as [e|] eqn:He.
    2:{ assert (visit_edge (body kv) st kv.1
                = Panic "interface conversion: graph.Edge is nil, not *graphprac.Edge")
          as ->; [|done].
        unfold visit_edge. rewrite (EdgeBetween_same_graph st0 st) by done.
        by rewrite He. }
    destruct (Hobj _ _ _ He) as [o Ho].
    assert (visit_edge (body kv) st kv.1
            = Ok (update_edge_attrs (body kv) e st)) as ->.
    { unfold visit_edge. rewrite (EdgeBetween_same_graph st0 st) by done.
      by rewrite He, Ho. }
    simpl. apply IH; [done| |].
    + intros u v e' He'. rewrite update_edge_attrs_lookup.
      destruct (Hobj _ _ _ He') as [o' Ho']. rewrite Ho'.
      case_decide; by eexists.
    + exists bad. split; [|done].
      apply elem_of_cons in Hin as [->|Hin]; [congruence|done].
Qed.

Lemma filter_ext_in {A} (P Q : A → Prop) `{∀ x, Decision (P x)}
    `{∀ x, Decision (Q x)} (l : list A) :
  (∀ x, x ∈ l → P x ↔ Q x) → filter P l = filter Q l.
Proof.
  induction l as [|x l IH]; intros Hl; [done|].
  assert (filter P l = filter Q l) as IH'.
  { apply IH. intros y Hy. apply Hl. by right. }
  destruct (decide (P x)) as [HP|HP].
  - rewrite !filter_cons_True; [by rewrite IH'|by apply Hl; [left|]|done].
  - rewrite !filter_cons_False; [done| |done].
    intros HQ. apply HP, Hl; [by left|done].
Qed.

(** On a well-formed graph an edge is stored under one pair with the
    smaller ID first. *)
Lemma edge_key_unique st u v u' v' e :
  wf st → u < v → u' < v' →
  EdgeBetween st u v = Some e → EdgeBetween st u' v' = Some e →
  (u', v') = (u, v).
Proof.
  intros Hwf Huv Huv' He He'.
  apply (wf_edges _ Hwf) in He as [_ He].
  apply (wf_edges _ Hwf) in He' as [_ He'].
  destruct He as [[H1 H2]|[H1 H2]], He' as [[H3 H4]|[H3 H4]];
    rewrite H1 in H3; rewrite H2 in H4;
    injection H3 as H3; injection H4 as H4; subst;
    first [done | lia].
Qed.

Lemma wf_set_edge_attrs st st' :
  graph st' = graph st → nodeObjs st' = nodeObjs st →
  (∀ q, ∃ f, edgeObjs st' !! q = set_edge_attrs f <$> edgeObjs st !! q) →
  wf st → wf st'.
Proof.
  intros Hg Hn Hq Hwf.
  assert (∀ q, ID st' q = ID st q) as HID.
  { intros q. unfold ID. by rewrite Hn. }
  assert (∀ e, From_ID st' e = From_ID st e ∧ To_ID st' e = To_ID st e)
    as Hends.
  { intros e. unfold From_ID, To_ID. destruct (Hq e) as [f ->].
    destruct (edgeObjs st !! e) as [o|]; simpl; [|done].
    by rewrite !HID. }
  destruct Hwf as [H1 H2 H3 H4].
  split; rewrite ?Hg; try done.
  - intros id n Hid. rewrite HID. by apply H1.
  - intros u v e He. destruct (H4 u v e He) as [[o Ho] Hor].
    destruct (Hends e) as [-> ->]. split; [|done].
    destruct (Hq e) as [f ->]. rewrite Ho. by eexists.
Qed.

(** The loop of [EdgeBetweenness], on a well-formed graph, for a ranking
    of its edges. *)
Lemma write_edge_ranks_spec (Sprint : float64 → string)
    (write : string → Attributes → Attributes)
    (rank : gmap (Z * Z) float64) st :
  wf st → ranks_edges st rank →
  ∃ st',
    foldM (λ st (kv : Z * Z * float64),
             visit_edge (write (Sprint kv.2)) st kv.1)
          st (map_to_list rank) = Ok st'
    ∧ wf st' ∧ graph st' = graph st ∧ nodeObjs st' = nodeObjs st
    ∧ ∀ u v e, u < v → EdgeBetween st u v = Some e →
        edge_attrs_at st' e
        = match rank !! (u, v) with
          | Some w => write (Sprint w) (edge_attrs_at st e)
          | None => edge_attrs_at st e
          end.
Proof.
  intros Hwf Hrank.
  destruct (edge_write_list_spec
              (λ kv : Z * Z * float64, write (Sprint kv.2)) st
              (map_to_list rank) st) as (st' & Hrun & Hg & Hn & Hq);
    [done| |].
  { apply Forall_forall. intros [[u v] w] Hin%elem_of_map_to_list. simpl.
    destruct (Hrank u v) as [_ [e He]]; [by eexists|]. exists e.
    split; [done|]. by apply (wf_edges _ Hwf) in He as [? _]. }
  exists st'. split; [done|]. split_and!; try done.
  - apply (wf_set_edge_attrs st st'); try done. intros q. eexists. apply Hq.
  - intros u v e Huv He. unfold edge_attrs_at. rewrite Hq.
    assert (is_Some (edgeObjs st !! e)) as [o Ho].
    { by apply (wf_edges _ Hwf) in He as [? _]. }
    rewrite Ho. simpl.
    rewrite (filter_ext_in _ (λ kv : Z * Z * float64, kv.1 = (u, v))).
    + rewrite filter_key_map. by destruct (rank !! (u, v)).
    + intros [[u' v'] w] Hin%elem_of_map_to_list. simpl. split.
      * intros He'. destruct (Hrank u' v') as [Hlt _]; [by eexists|].
        by apply (edge_key_unique st u v u' v' e).
      * by intros [= -> ->].
Qed.

End EdgeWriteFacts.

Lemma sample_edge_rank_ok : ranks_edges sample_star (sample_edge_rank sample_star).
Proof.
  intros u v [w Hw]. unfold sample_edge_rank in Hw.
  apply lookup_insert_Some in Hw as [[[= <- <-] _]|[_ Hw]].
  { split; [lia|]. by_compute. }
  apply lookup_singleton_Some in Hw as [[= <- <-] _].
  split; [lia|]. by_compute.
Qed.

(** X24. [EdgeBetweenness] on a well-formed graph, when every pair of the
    ranking of gonum has its smaller ID first and names an edge of the
    graph, and no numeral is empty: the call returns, the graph stays
    well formed with the same nodes and edges, every ranked edge reads the
    numeral of its value under "edge_betweenness", an unranked edge keeps
    its attributes, and no other key of any edge reads differently. *)
Theorem EdgeBetweenness_stored (Sprint : float64 → string)
    (network_EdgeBetweenness : State → gmap (Z * Z) float64) (st : State) :
  (∀ w, Sprint w ≠ "") → wf st →
  ranks_edges st (network_EdgeBetweenness st) →
  ∃ st',
    EdgeBetweenness Sprint network_EdgeBetweenness st = Ok st'
    ∧ wf st'
    ∧ edges_stored Sprint "edge_betweenness" (network_EdgeBetweenness st)
        st st'.
Proof.
  intros Hne Hwf Hrank. unfold EdgeBetweenness.
  destruct (write_edge_ranks_spec Sprint
              (λ v a, Set_ a "edge_betweenness" v)
              (network_EdgeBetweenness st) st Hwf Hrank)
    as (st' & Hrun & Hwf' & Hg & Hn & Hat).
  exists st'. split_and!; try done. split_and!; try done.
  intros u v e Huv He. rewrite (Hat u v e Huv He). split_and!.
  - intros w ->. by apply Set_nonempty_here.
  - by intros ->.
  - intros k Hk. destruct (network_EdgeBetweenness st !! (u, v)); [|done].
    by apply Set_nonempty_other.
Qed.

Lemma EdgeBetweenness_stored_witness :
  ∃ st',
    EdgeBetweenness sample_Sprint_float64 sample_edge_rank sample_star
    = Ok st'
    ∧ wf st'
    ∧ edges_stored sample_Sprint_float64 "edge_betweenness"
        (sample_edge_rank sample_star) sample_star st'.
Proof.
  apply (EdgeBetweenness_stored sample_Sprint_float64 sample_edge_rank
           sample_star sample_Sprint_nonempty sample_star_wf
           sample_edge_rank_ok).
Defined.

(** X25. [EdgeBetweenness] on a well-formed graph, when the ranking of
    gonum mentions a pair of IDs that no edge joins: the call panics on
    the type assertion of the nil edge, whatever the order in which the
    ranking is visited. *)
Theorem EdgeBetweenness_missing_edge (Sprint : float64 → string)
    (network_EdgeBetweenness : State → gmap (Z * Z) float64) (st : State)
    (u v : Z) :
  wf st →
  is_Some (network_EdgeBetweenness st !! (u, v)) →
  EdgeBetween st u v = None →
  EdgeBetweenness Sprint network_EdgeBetweenness st
  = Panic "interface conversion: graph.Edge is nil, not *graphprac.Edge".
Proof.
  intros Hwf [w Hw] Hnone. unfold EdgeBetweenness.
  apply (edge_write_list_panics _ st); [done| |].
  - intros u' v' e He. by apply (wf_edges _ Hwf) in He as [? _].
  - exists ((u, v), w). split; [|done]. by apply elem_of_map_to_list.
Qed.

Lemma EdgeBetweenness_missing_edge_witness :
  EdgeBetweenness sample_Sprint_float64 sample_edge_rank_bad sample_star
  = Panic "interface conversion: graph.Edge is nil, not *graphprac.Edge".
Proof.
  apply (EdgeBetweenness_missing_edge sample_Sprint_float64
           sample_edge_rank_bad sample_star 1 2 sample_star_wf).
  - by_compute.
  - reflexivity.
Defined.
(** ** The directed view, selections and DOT IDs *)

Section ViewFacts.

Implicit Types (st : State).

Lemma HasEdgeBetween_EdgeBetween st x y :
  HasEdgeBetween st x y = true ↔ is_Some (EdgeBetween st x y).
Proof.
  unfold HasEdgeBetween, simple.HasEdgeBetween, EdgeBetween,
    simple.EdgeBetween. apply bool_decide_eq_true.
Qed.

(** The loop of [Induce] over allocated nodes: the IDs of the nodes are
    switched on one after the other. *)
Lemma Induce_loop_ids st (by_ : list NodePtr) : ∀ (m0 : gmap Z bool),
  (∀ n, n ∈ by_ → is_Some (nodeObjs st !! n)) →
  ∃ m,
    foldM (λ (m : gmap Z bool) n, id ← ID st n; Ok (<[id := true]> m))
          m0 by_ = Ok m
    ∧ ∀ id, m !! id
            = if decide (id ∈ omap (λ n, NodeID <$> nodeObjs st !! n) by_)
              then Some true else m0 !! id.
Proof.
  induction by_ as [|n by_ IH]; intros m0 Hall; simpl.
  - exists m0. split; [done|]. intros id.
    destruct (decide (id ∈ [])) as [Hin|]; [by apply elem_of_nil in Hin|done].
  - destruct (Hall n) as [o Ho]; [by left|].
    assert (ID st n = Ok (NodeID o)) as Hid by (unfold ID; by rewrite Ho).
    rewrite Hid, Ho. simpl.
    destruct (IH (<[NodeID o := true]> m0)) as (m & Hrun & Hm).
    { intros n' Hn'. apply Hall. by right. }
    exists m. split; [done|]. intros id. rewrite Hm.
    set (ids := omap (λ n, NodeID <$> nodeObjs st !! n) by_).
    destruct (decide (id ∈ ids)) as [Hin|Hno].
    + rewrite decide_True; [done|by right].
    + destruct (decide (id = NodeID o)) as [->|Hne].
      * rewrite lookup_insert_eq. rewrite decide_True; [done|by left].
      * rewrite lookup_insert_ne by done. rewrite decide_False; [done|].
        rewrite elem_of_cons. intuition congruence.
Qed.

End ViewFacts.

(** X27. The graph as [network.PageRank] sees it through [directed]: on
    a well-formed graph every edge runs both ways, and [To(v)] lists
    exactly the registered nodes [u] with [HasEdgeFromTo(u, v)]. *)
Theorem directed_both_directions (st : State) (u v : Z) :
  wf st →
  directed_HasEdgeFromTo st u v = directed_HasEdgeFromTo st v u
  ∧ ∀ n, n ∈ directed_To st v ↔
         ∃ w, directed_HasEdgeFromTo st w v = true
              ∧ Node_by_ID st w = Some n.
Proof.
  intros Hwf. unfold directed_HasEdgeFromTo, directed_To. split.
  - apply bool_decide_ext.
    change (is_Some (EdgeBetween st u v) ↔ is_Some (EdgeBetween st v u)).
    by rewrite (EdgeBetween_sym st u v).
  - intros n. rewrite From_elem. split.
    + intros (w & e & He & Hn). exists w. split; [|done].
      apply HasEdgeBetween_EdgeBetween.
      rewrite (EdgeBetween_sym st w v) by done. by eexists.
    + intros (w & [e He]%HasEdgeBetween_EdgeBetween & Hn).
      exists w, e. split; [|done].
      by rewrite (EdgeBetween_sym st v w).
Qed.

Lemma directed_both_directions_witness :
  directed_HasEdgeFromTo sample_star 0 1
  = directed_HasEdgeFromTo sample_star 1 0
  ∧ directed_HasEdgeFromTo sample_star 0 1 = true
  ∧ directed_To sample_star 1 = [1%positive]
  ∧ ∀ n, n ∈ directed_To sample_star 1 ↔
         ∃ w, directed_HasEdgeFromTo sample_star w 1 = true
              ∧ Node_by_ID sample_star w = Some n.
Proof.
  destruct (directed_both_directions sample_star 0 1 sample_star_wf)
    as [H1 H2].
  split; [exact H1|]. split; [reflexivity|]. split; [reflexivity|exact H2].
Defined.

(** X28. [Induce] depends only on which nodes it is given: for two
    lists of allocated nodes with the same members, in any order and with
    any repetitions, both calls return, and they return the same view. *)
Theorem Induce_same_members (st : State) (by1 by2 : list NodePtr) :
  (∀ n, n ∈ by1 → is_Some (nodeObjs st !! n)) →
  (∀ n, n ∈ by1 ↔ n ∈ by2) →
  ∃ i, Induce st by1 = Ok i ∧ Induce st by2 = Ok i.
Proof.
  intros Hall Hsame. unfold Induce.
  destruct (Induce_loop_ids st by1 ∅ Hall) as (m1 & -> & Hm1).
  destruct (Induce_loop_ids st by2 ∅) as (m2 & -> & Hm2).
  { intros n Hn. by apply Hall, Hsame. }
  exists (mkInduced m1). split; [done|]. simpl. do 2 f_equal.
  apply map_eq. intros id. rewrite Hm1, Hm2. apply decide_ext.
  rewrite !list_elem_of_omap.
  split; intros (n & Hn & Hid); exists n; (split; [by apply Hsame|done]).
Qed.

Lemma Induce_same_members_witness :
  ∃ i, Induce sample_star [1%positive; 2%positive] = Ok i
       ∧ Induce sample_star [2%positive; 1%positive; 2%positive] = Ok i.
Proof.
  apply (Induce_same_members sample_star).
  - intros n Hn.
    repeat (apply elem_of_cons in Hn as [->|Hn]); try by_compute.
    by apply elem_of_nil in Hn.
  - intros n. rewrite !elem_of_cons. rewrite elem_of_nil. tauto.
Defined.

(** X29. [Induce] given a nil node panics on the call of [ID] through
    the nil pointer, wherever the node stands in the list, provided the
    nodes before it are allocated. *)
Theorem Induce_nil_node (st : State) (pre post : list NodePtr)
    (n : NodePtr) :
  (∀ p, p ∈ pre → is_Some (nodeObjs st !! p)) →
  nodeObjs st !! n = None →
  Induce st (pre ++ n :: post)
  = Panic "invalid memory address or nil pointer dereference".
Proof.
  intros Hpre Hn. unfold Induce.
  assert (∀ m0 : gmap Z bool,
            foldM (λ (m : gmap Z bool) n, id ← ID st n; Ok (<[id := true]> m))
                  m0 (pre ++ n :: post)
            = Panic "invalid memory address or nil pointer dereference")
    as ->; [|done].
  induction pre as [|p pre IH]; intros m0; simpl.
  - assert (ID st n = nil_deref) as -> by (unfold ID; by rewrite Hn). done.
  - destruct (Hpre p) as [o Ho]; [by left|].
    assert (ID st p = Ok (NodeID o)) as -> by (unfold ID; by rewrite Ho).
    simpl. apply IH.
    intros p' Hp'. apply Hpre. by right.
Qed.

Lemma Induce_nil_node_witness :
  Induce sample_star ([1%positive] ++ 9%positive :: [2%positive])
  = Panic "invalid memory address or nil pointer dereference".
Proof.
  apply (Induce_nil_node sample_star [1%positive] [2%positive] 9).
  - intros p [->|Hp]%elem_of_cons; [by_compute|by apply elem_of_nil in Hp].
  - reflexivity.
Defined.

(** X30. [SetDOTID] followed by [DOTID] on an allocated node reads the
    name just set; the names of the other nodes, every ID and every
    attribute, the edges and the graph are as they were. *)
Theorem SetDOTID_then_DOTID (st : State) (n : NodePtr) (id : string) :
  is_Some (nodeObjs st !! n) →
  ∃ st',
    SetDOTID n id st = Ok st'
    ∧ DOTID st' n = Ok id
    ∧ (∀ q, q ≠ n → DOTID st' q = DOTID st q)
    ∧ (∀ q, ID st' q = ID st q ∧ node_attrs st' q = node_attrs st q)
    ∧ graph st' = graph st ∧ edgeObjs st' = edgeObjs st.
Proof.
  intros [o Ho]. unfold SetDOTID. rewrite Ho. eexists. split; [done|].
  unfold DOTID, ID, node_attrs. simpl. split_and!; try done.
  - by rewrite lookup_alter_eq, Ho.
  - intros q Hq. by rewrite lookup_alter_ne.
  - intros q. destruct (decide (q = n)) as [->|Hq].
    + by rewrite lookup_alter_eq, Ho.
    + by rewrite lookup_alter_ne.
Qed.

Lemma SetDOTID_then_DOTID_witness :
  ∃ st',
    SetDOTID 2 "B" sample_star = Ok st'
    ∧ DOTID st' 2 = Ok "B"
    ∧ (∀ q, q ≠ 2%positive → DOTID st' q = DOTID sample_star q)
    ∧ (∀ q, ID st' q = ID sample_star q
            ∧ node_attrs st' q = node_attrs sample_star q)
    ∧ graph st' = graph sample_star ∧ edgeObjs st' = edgeObjs sample_star.
Proof.
  apply (SetDOTID_then_DOTID sample_star 2 "B"). by_compute.
Defined.
